(** * odex-telegram-relay: a shallow embedding of the relay core

    The development follows the TypeScript sources:
    - [telegram-relay.ts]: [isAuthorized], [enqueueByChat], [splitForTelegram];
    - [codex-runner.ts]: [consumeLine], [runCodexTurn];
    - [session-store.ts]: [SessionStore] ([get], [set], [clear], [loadOnce],
      [persistQueued]).

    JavaScript strings are sequences of UTF-16 code units, numbers that the
    code uses as lengths, indices, chat ids and exit codes are integers. *)

From Stdlib Require Import ZArith Lia Ascii String QArith Qround.
From stdpp Require Import base option list gmap sets strings pretty.

Open Scope Z_scope.

Set Warnings "-register-all".

(** ** JavaScript strings and values *)

Module JS.

(** A string is the list of its UTF-16 code units. *)
Definition jsstring : Type := list N.

(** [s.length] *)
Definition len (s : jsstring) : Z := Z.of_nat (length s).

(** A Rocq string read as a string of code units below 256. *)
Fixpoint lit (s : string) : jsstring :=
  match s with
  | EmptyString => []
  | String a r => N_of_ascii a :: lit r
  end.

(** White space and line terminators, the code units that [trim],
    [trimStart] and [trimEnd] strip (ECMA-262, TrimString). *)
Definition is_white_space (c : N) : bool :=
  ((c =? 9) || (c =? 10) || (c =? 11) || (c =? 12) || (c =? 13) ||
   (c =? 32) || (c =? 160) || (c =? 5760) ||
   ((8192 <=? c) && (c <=? 8202)) ||
   (c =? 8232) || (c =? 8233) || (c =? 8239) || (c =? 8287) ||
   (c =? 12288) || (c =? 65279))%N.

(** The code unit of the line feed, the search string of [lastIndexOf]. *)
Definition LF : N := 10%N.

Fixpoint trimStart (s : jsstring) : jsstring :=
  match s with
  | [] => []
  | c :: r => if is_white_space c then trimStart r else s
  end.

Definition trimEnd (s : jsstring) : jsstring := rev (trimStart (rev s)).

Definition trim (s : jsstring) : jsstring := trimEnd (trimStart s).

(** [s.slice(from, to)]: a negative bound counts from the end, both bounds
    are clamped to the string. *)
Definition slice_bound (s : jsstring) (i : Z) : Z :=
  if i <? 0 then Z.max (len s + i) 0 else Z.min i (len s).

Definition slice (s : jsstring) (from to : Z) : jsstring :=
  let a := slice_bound s from in
  let b := slice_bound s to in
  take (Z.to_nat (b - a)) (drop (Z.to_nat a) s).

(** [s.slice(from)] *)
Definition slice_from (s : jsstring) (from : Z) : jsstring :=
  slice s from (len s).

(** [s.lastIndexOf(c, pos)] for a one-unit search string: the search starts
    at [pos] clamped to the string and walks down to index 0; -1 when the
    unit does not occur. *)
Fixpoint search_backward (s : jsstring) (c : N) (i : nat) : Z :=
  if decide (s !! i = Some c) then Z.of_nat i
  else match i with
       | O => -1
       | S j => search_backward s c j
       end.

Definition lastIndexOf (s : jsstring) (c : N) (pos : Z) : Z :=
  if len s =? 0 then -1
  else search_backward s c (Z.to_nat (Z.min (Z.max pos 0) (len s - 1))).

(** Values produced by [JSON.parse]. An object keeps its members in order. *)
Inductive json : Type :=
| JNull
| JBool (b : bool)
| JNum (n : Z)
| JStr (s : jsstring)
| JArr (items : list json)
| JObj (members : list (jsstring * json)).

(** The result of reading a property: [None] is [undefined]. *)
Fixpoint assoc_last (k : jsstring) (ms : list (jsstring * json)) : option json :=
  match ms with
  | [] => None
  | (k', v) :: r =>
      match assoc_last k r with
      | Some w => Some w
      | None => if decide (k' = k) then Some v else None
      end
  end.

End JS.

(** ** The reply chunker ([splitForTelegram]) *)

Module Chunker.
Import JS.

(** A [while] loop: the state after the loop and the number of iterations,
    [None] when the fuel does not suffice. *)
Fixpoint while_loop {S : Type} (fuel : nat) (guard : S -> bool) (body : S -> S)
  (s : S) : option (S * nat) :=
  if guard s then
    match fuel with
    | O => None
    | Datatypes.S f =>
        match while_loop f guard body (body s) with
        | Some (s', n) => Some (s', Datatypes.S n)
        | None => None
        end
    end
  else Some (s, O).

(** The two variables the loop of [splitForTelegram] updates. *)
Record loop_state : Type := LoopState {
  remaining : jsstring;
  chunks : list jsstring
}.

(** [remaining.length > max] *)
Definition loop_guard (max : Z) (st : loop_state) : bool :=
  max <? len (remaining st).

(** [cut < max * 0.6]. For integers [cut] and [max] the comparison with the
    double [max * 0.6] has the same outcome as the exact [5 * cut < 3 * max]:
    the product is rounded to a double that lies in the same unit interval of
    integers, and never above [3 * max / 5] when that is an integer. *)
Definition below_sixty_percent (cut max : Z) : bool := 5 * cut <? 3 * max.

(** The position at which one iteration cuts. *)
Definition cut_point (max : Z) (text : jsstring) : Z :=
  let cut := lastIndexOf text LF max in
  if below_sixty_percent cut max then max else cut.

(** One iteration of the loop. *)
Definition loop_body (max : Z) (st : loop_state) : loop_state :=
  let cut := cut_point max (remaining st) in
  {| chunks := chunks st ++ [trim (slice (remaining st) 0 cut)];
     remaining := trimStart (slice_from (remaining st) cut) |}.

(** [splitForTelegram(text, max)] with the number of loop iterations. *)
Definition splitForTelegram_run (fuel : nat) (text : jsstring) (max : Z)
  : option (list jsstring * nat) :=
  if len text <=? max then Some ([text], O)
  else
    match while_loop fuel (loop_guard max) (loop_body max)
            {| remaining := text; chunks := [] |} with
    | None => None
    | Some (st, n) =>
        Some (if 0 <? len (remaining st)
              then chunks st ++ [remaining st]
              else chunks st, n)
    end.

(** The fuel [length text + 1] is enough whenever the loop ends at all. *)
Definition splitForTelegram (text : jsstring) (max : Z) : option (list jsstring) :=
  fst <$> splitForTelegram_run (S (length text)) text max.

(** The text has no white space at its start, as every trimmed text. *)
Definition no_leading_space (s : jsstring) : Prop := trimStart s = s.

(** [ceil(length / (0.6 * max))], that is [ceil(5 * length / (3 * max))]. *)
Definition iteration_bound (text : jsstring) (max : Z) : Z :=
  (5 * len text + 3 * max - 1) / (3 * max).

(** The text is made of white space only. *)
Definition blank (s : jsstring) : Prop := Forall (λ c, is_white_space c = true) s.

(** The text has no white space at its end. *)
Definition no_trailing_space (s : jsstring) : Prop := trimEnd s = s.

(** The text is the segments in their order, with a blank gap before each
    segment and a blank tail after the last. *)
Definition weaves (text : jsstring) (segs : list jsstring) : Prop :=
  ∃ gaps tail,
    length gaps = length segs ∧ Forall blank gaps ∧ blank tail ∧
    text = concat (zip_with app gaps segs) ++ tail.

(** Index [i] holds a line feed and lies in the part of the text where the
    loop accepts a cut: from 60% of [max] up to [max]. *)
Definition newline_in_window (text : jsstring) (max : Z) (i : nat) : Prop :=
  text !! i = Some LF ∧ 3 * max ≤ 5 * Z.of_nat i ∧ Z.of_nat i ≤ max.

End Chunker.

(** ** The allow-list ([isAuthorized]) *)

Module Auth.

(** The part of [relayConfig] that the relay reads. *)
Record RelayConfig : Type := {
  allowedChatIds : gset Z
}.

(** The part of grammy's [Context] that [isAuthorized] reads: [ctx.chat],
    absent for updates that belong to no chat; [ctx.chat.id] is a number. *)
Record Chat : Type := { id : Z }.
Record Context : Type := { chat : option Chat }.

Definition isAuthorized (relayConfig : RelayConfig) (ctx : Context) : bool :=
  if decide (size (allowedChatIds relayConfig) = O) then true
  else
    match chat ctx with
    | Some c => bool_decide (id c ∈ allowedChatIds relayConfig)
    | None => false
    end.

End Auth.

(** ** The turn executor ([runCodexTurn]) *)

Module Runner.
Import JS.

Record CodexTurnInput : Type := {
  prompt : jsstring;
  input_sessionId : option jsstring;
  imagePaths : list jsstring
}.

Record CodexTurnResult : Type := {
  reply : jsstring;
  sessionId : option jsstring
}.

(** A call returns a value, throws an [Error] with a message, or its promise
    never settles. *)
Inductive completion (A : Type) : Type :=
| Returns (a : A)
| Throws (message : jsstring)
| NeverSettles.
Arguments Returns {A} a.
Arguments Throws {A} message.
Arguments NeverSettles {A}.

Inductive source : Type := stdout | stderr.

#[global] Instance source_eq_dec : EqDecision source.
Proof. solve_decision. Defined.

(** What the child process does: it cannot be started (the ['error'] event,
    with the message of the error), it closes with an exit code, [None]
    when a signal ended it, or it never closes. The call waits for one of the
    two events without a timer, so a child that never closes is waited for
    without end. *)
Inductive child_outcome : Type :=
| SpawnError (message : jsstring)
| Close (code : option Z)
| NeverCloses.

(** What one turn observes of its environment: the lines of both streams in
    the order of their ['line'] events, the way the child ends, and the
    contents of the final-message file when it is read ([None]: the read
    fails). *)
Record turn_env : Type := {
  lines : list (jsstring * source);
  outcome : child_outcome;
  output_file : option jsstring
}.

(** The temporary directories that exist. *)
Definition world : Type := gset nat.

(** The variables that [consumeLine] closes over. *)
Record capture : Type := {
  cap_sessionId : option jsstring;
  jsonErrors : list jsstring;
  stderrLines : list jsstring;
  stdoutLines : list jsstring
}.

(** [v.k] for a value that is not [null]: [None] is [undefined]. Strings,
    numbers, booleans and arrays have none of the properties read here. *)
Definition member (v : json) (k : string) : option json :=
  match v with
  | JObj ms => assoc_last (lit k) ms
  | _ => None
  end.

(** [typeof v === "string"] *)
Definition as_string (v : option json) : option jsstring :=
  match v with
  | Some (JStr s) => Some s
  | _ => None
  end.

(** [event.type === name] *)
Definition type_is (event : json) (name : string) : bool :=
  bool_decide (as_string (member event "type") = Some (lit name)).

Section WithParser.

(** [JSON.parse]: [None] when it throws a [SyntaxError]. *)
Variable JSON_parse : jsstring -> option json.

(** The body of the [try] block of [consumeLine], for a parsed event that is
    not [null]. *)
Definition consumeEvent (event : json) (st : capture) : capture :=
  let st1 :=
    if type_is event "thread.started" then
      match as_string (member event "thread_id") with
      | Some thread_id =>
          {| cap_sessionId := Some thread_id; jsonErrors := jsonErrors st;
             stderrLines := stderrLines st; stdoutLines := stdoutLines st |}
      | None => st
      end
    else st in
  let st2 :=
    if type_is event "error" then
      match as_string (member event "message") with
      | Some message =>
          {| cap_sessionId := cap_sessionId st1;
             jsonErrors := jsonErrors st1 ++ [message];
             stderrLines := stderrLines st1; stdoutLines := stdoutLines st1 |}
      | None => st1
      end
    else st1 in
  if type_is event "turn.failed" then
    match as_string (mbind (λ e, member e "message") (member event "error")) with
    | Some message =>
        {| cap_sessionId := cap_sessionId st2;
           jsonErrors := jsonErrors st2 ++ [message];
           stderrLines := stderrLines st2; stdoutLines := stdoutLines st2 |}
    | None => st2
    end
  else st2.

Definition consumeLine (st : capture) (entry : jsstring * source) : capture :=
  let trimmed := trim (fst entry) in
  match trimmed with
  | [] => st
  | _ =>
      let st0 :=
        match snd entry with
        | stderr => {| cap_sessionId := cap_sessionId st; jsonErrors := jsonErrors st;
                       stderrLines := stderrLines st ++ [trimmed];
                       stdoutLines := stdoutLines st |}
        | stdout => {| cap_sessionId := cap_sessionId st; jsonErrors := jsonErrors st;
                       stderrLines := stderrLines st;
                       stdoutLines := stdoutLines st ++ [trimmed] |}
        end in
      match JSON_parse trimmed with
      | None => st0                 (* SyntaxError, caught *)
      | Some JNull => st0           (* [event.type] throws a TypeError, caught *)
      | Some event => consumeEvent event st0
      end
  end.

Definition initial_capture (input : CodexTurnInput) : capture :=
  {| cap_sessionId := input_sessionId input; jsonErrors := [];
     stderrLines := []; stdoutLines := [] |}.

(** The captured state once every line has been consumed. *)
Definition consumeAll (input : CodexTurnInput) (ls : list (jsstring * source)) : capture :=
  foldl consumeLine (initial_capture input) ls.

Definition fallback_reply : jsstring :=
  lit "Codex completed but returned an empty message.".

(** [`Codex process exited with code ${exitCode}`] *)
Definition exit_message (exitCode : Z) : jsstring :=
  lit "Codex process exited with code " ++ lit (pretty exitCode).

(** [jsonErrors.at(-1) ?? stderrLines.at(-1) ?? stdoutLines.at(-1) ?? ...] *)
Definition details (st : capture) (exitCode : Z) : jsstring :=
  match last (jsonErrors st) with
  | Some m => m
  | None =>
      match last (stderrLines st) with
      | Some m => m
      | None =>
          match last (stdoutLines st) with
          | Some m => m
          | None => exit_message exitCode
          end
      end
  end.

(** The trimmed contents of the final-message file, empty when the file
    cannot be read. *)
Definition candidate_reply (env : turn_env) : jsstring :=
  match output_file env with
  | Some text => trim text
  | None => []
  end.

(** [runCodexTurn(input)] in a world [w] of temporary directories. *)
Definition runCodexTurn (input : CodexTurnInput) (env : turn_env) (w : world)
  : world * completion CodexTurnResult :=
  let tempDir := fresh w in
  let w1 := {[ tempDir ]} ∪ w in
  let st := consumeAll input (lines env) in
  match outcome env with
  | SpawnError e => (w1, Throws e)
  | Close code =>
      let exitCode := default 1 code in
      let reply := candidate_reply env in
      let w2 := w1 ∖ {[ tempDir ]} in
      if negb (exitCode =? 0) && (len reply =? 0)
      then (w2, Throws (details st exitCode))
      else (w2, Returns {| reply := match reply with
                                    | [] => fallback_reply
                                    | _ => reply
                                    end;
                           sessionId := cap_sessionId st |})
  | NeverCloses => (w1, NeverSettles)
  end.

(** The directory that a turn started in world [w] creates. *)
Definition tempDir_of (w : world) : nat := fresh w.

(** *** The output of the child, described line by line *)

(** The event that a line carries: the line is not blank, its trimmed text
    parses, and the value is not [null]. *)
Definition line_event (line : jsstring) : option json :=
  match trim line with
  | [] => None
  | trimmed =>
      match JSON_parse trimmed with
      | Some JNull => None
      | parsed => parsed
      end
  end.

(** The session id of a session-started event. *)
Definition event_session (event : json) : option jsstring :=
  if type_is event "thread.started" then as_string (member event "thread_id")
  else None.

(** The messages of an error event and of a turn-failed event. *)
Definition event_errors (event : json) : list jsstring :=
  (if type_is event "error"
   then option_list (as_string (member event "message")) else []) ++
  (if type_is event "turn.failed"
   then option_list (as_string (mbind (λ e, member e "message") (member event "error")))
   else []).

(** The session ids that the child reported, oldest first. *)
Definition reported_sessions (ls : list (jsstring * source)) : list jsstring :=
  omap (λ e, line_event (fst e) ≫= event_session) ls.

(** The structured error messages, oldest first. *)
Definition reported_errors (ls : list (jsstring * source)) : list jsstring :=
  flat_map (λ e, from_option event_errors [] (line_event (fst e))) ls.

(** The trimmed lines of one stream that are not blank, oldest first. *)
Definition nonblank_lines (src : source) (ls : list (jsstring * source)) : list jsstring :=
  omap (λ e, if decide (snd e = src)
             then match trim (fst e) with [] => None | t => Some t end
             else None) ls.

(** The message of a failed turn, by priority: the latest structured error
    message, else the last line of standard error that is not blank, else
    the last such line of standard output, else the generic message. *)
Definition failure_message (ls : list (jsstring * source)) (exitCode : Z) : jsstring :=
  match last (reported_errors ls) with
  | Some m => m
  | None =>
      match last (nonblank_lines stderr ls) with
      | Some m => m
      | None =>
          match last (nonblank_lines stdout ls) with
          | Some m => m
          | None => exit_message exitCode
          end
      end
  end.

(** A line that is not JSON: it is blank or [JSON.parse] throws on it. *)
Definition malformed (line : jsstring) : bool :=
  match trim line with
  | [] => true
  | trimmed => bool_decide (JSON_parse trimmed = None)
  end.

Definition without_malformed (ls : list (jsstring * source)) : list (jsstring * source) :=
  filter (λ e, malformed (fst e) = false) ls.

(** The environment of a turn with the lines that are not JSON left out. *)
Definition valid_lines_only (env : turn_env) : turn_env :=
  {| lines := without_malformed (lines env);
     outcome := outcome env;
     output_file := output_file env |}.

End WithParser.

(** The session id after the sessions [sids] were reported, oldest first,
    in a turn that started from [prior]. *)
Definition latest (prior : option jsstring) (sids : list jsstring) : option jsstring :=
  match last sids with
  | Some sid => Some sid
  | None => prior
  end.

(** A child that prints nothing, writes no file and exits with code 0. *)
Definition silent_turn_env : turn_env :=
  {| lines := []; outcome := Close (Some 0); output_file := None |}.

(** A parser given by a table of the texts it accepts, for examples. *)
Definition parse_table (table : list (jsstring * json)) (text : jsstring) : option json :=
  match list_find (λ row, fst row = text) table with
  | Some (_, (_, v)) => Some v
  | None => None
  end.

(** ["s"] as JSON text *)
Definition quoted (s : string) : jsstring := [34%N] ++ lit s ++ [34%N].

(** [{"type":"thread.started","thread_id":"S1"}] *)
Definition thread_started_S1 : jsstring :=
  lit "{" ++ quoted "type" ++ lit ":" ++ quoted "thread.started" ++ lit "," ++
  quoted "thread_id" ++ lit ":" ++ quoted "S1" ++ lit "}".

(** [{"type":"error","message":"boom"}] *)
Definition error_boom : jsstring :=
  lit "{" ++ quoted "type" ++ lit ":" ++ quoted "error" ++ lit "," ++
  quoted "message" ++ lit ":" ++ quoted "boom" ++ lit "}".

(** [JSON.parse] on the two texts above; every other text of the examples
    is not JSON. *)
Definition sample_parse : jsstring → option json :=
  parse_table
    [(thread_started_S1,
      JObj [(lit "type", JStr (lit "thread.started"));
            (lit "thread_id", JStr (lit "S1"))]);
     (error_boom,
      JObj [(lit "type", JStr (lit "error")); (lit "message", JStr (lit "boom"))])].

End Runner.

(** ** The session registry ([SessionStore]) *)

Module Store.
Import JS.

(** The durable document at [filePath]: missing, unusable (the read fails
    with an error other than [ENOENT], or the text is not JSON), or the value
    that [JSON.parse] gives for its text. [JSON.stringify] followed by
    [JSON.parse] gives back an object with the same string members, so a
    written document is kept as the object written. *)
Inductive file : Type :=
| Absent
| Unusable
| Document (v : json).

(** [writeQueue]: the promise at the tail of the chain of writes. *)
Inductive write_queue : Type := QueueFulfilled | QueueRejected.

Record SessionStore : Type := {
  loaded : bool;
  sessions : gmap jsstring jsstring;
  writeQueue : write_queue
}.

(** [new SessionStore(filePath)] *)
Definition new_store : SessionStore :=
  {| loaded := false; sessions := ∅; writeQueue := QueueFulfilled |}.

(** Nothing is in the map before the first load: the constructor gives such
    a store and every method keeps it so. *)
Definition consistent (st : SessionStore) : Prop :=
  loaded st = false → sessions st = ∅.

(** The outcome of an asynchronous method once awaited. *)
Inductive completion (A : Type) : Type :=
| Returns (a : A)
| Throws.
Arguments Returns {A} a.
Arguments Throws {A}.

(** [String(chatId)] *)
Definition String_of (chatId : Z) : jsstring := lit (pretty chatId).

(** [Object.entries(v)]; [None] when it throws (for [null]). *)
Definition Object_entries (v : json) : option (list (jsstring * json)) :=
  match v with
  | JNull => None
  | JBool _ | JNum _ => Some []
  | JStr s => Some (imap (λ i c, (lit (pretty (Z.of_nat i)), JStr [c])) s)
  | JArr items => Some (imap (λ i x, (lit (pretty (Z.of_nat i)), x)) items)
  | JObj ms => Some ms
  end.

(** The body of the [for] loop of [loadOnce]. *)
Definition load_entry (m : gmap jsstring jsstring) (e : jsstring * json)
  : gmap jsstring jsstring :=
  match snd e with
  | JStr sessionId => if 0 <? len sessionId then <[fst e := sessionId]> m else m
  | _ => m
  end.

(** The methods below describe a call that is awaited before the next call
    of the store begins: the call runs from its start to its end with no
    other call in between. [Overlap] cuts the calls at their [await]s,
    and [OverlapFacts.alone_agrees] relates the two descriptions. *)

(** [loadOnce()]: the flag is set before the document is read. *)
Definition loadOnce (disk : file) (st : SessionStore) : completion unit * SessionStore :=
  if loaded st then (Returns (), st)
  else
    let st1 := {| loaded := true; sessions := sessions st; writeQueue := writeQueue st |} in
    match disk with
    | Absent => (Returns (), st1)
    | Unusable => (Throws, st1)
    | Document v =>
        match Object_entries v with
        | None => (Throws, st1)
        | Some entries =>
            (Returns (), {| loaded := true;
                            sessions := foldl load_entry (sessions st) entries;
                            writeQueue := writeQueue st |})
        end
    end.

(** The object that [Object.fromEntries(this.sessions)] builds. *)
Definition snapshot (m : gmap jsstring jsstring) : json :=
  JObj (prod_map Datatypes.id JStr <$> map_to_list m).

(** [persistQueued()]: the write is chained behind [writeQueue]; it runs
    only when the queue is fulfilled, and [write_ok] tells whether [mkdir]
    and [writeFile] then succeed. A failed write leaves the queue rejected. *)
Definition persistQueued (write_ok : bool) (disk : file) (st : SessionStore)
  : completion unit * SessionStore * file :=
  match writeQueue st with
  | QueueRejected => (Throws, st, disk)
  | QueueFulfilled =>
      if write_ok then (Returns (), st, Document (snapshot (sessions st)))
      else (Throws,
            {| loaded := loaded st; sessions := sessions st;
               writeQueue := QueueRejected |}, disk)
  end.

Definition get (chatId : Z) (disk : file) (st : SessionStore)
  : completion (option jsstring) * SessionStore :=
  match loadOnce disk st with
  | (Throws, st1) => (Throws, st1)
  | (Returns _, st1) => (Returns (sessions st1 !! String_of chatId), st1)
  end.

Definition set (chatId : Z) (sessionId : jsstring) (write_ok : bool)
  (disk : file) (st : SessionStore) : completion unit * SessionStore * file :=
  match loadOnce disk st with
  | (Throws, st1) => (Throws, st1, disk)
  | (Returns _, st1) =>
      persistQueued write_ok disk
        {| loaded := loaded st1;
           sessions := <[String_of chatId := sessionId]> (sessions st1);
           writeQueue := writeQueue st1 |}
  end.

Definition clear (chatId : Z) (write_ok : bool) (disk : file) (st : SessionStore)
  : completion unit * SessionStore * file :=
  match loadOnce disk st with
  | (Throws, st1) => (Throws, st1, disk)
  | (Returns _, st1) =>
      persistQueued write_ok disk
        {| loaded := loaded st1;
           sessions := delete (String_of chatId) (sessions st1);
           writeQueue := writeQueue st1 |}
  end.

(** No session id in the map is the empty string. *)
Definition ids_not_empty (st : SessionStore) : Prop :=
  ∀ k sessionId, sessions st !! k = Some sessionId → sessionId ≠ [].

End Store.

(** ** Calls of the session registry that overlap

    [Store.get], [Store.set] and [Store.clear] above describe a call that is
    awaited before the next call of the store begins. The tasks of different
    chats call the store while a call of another task is at one of its
    [await]s. Here a call is cut at its [await]s, and the pieces of the
    calls in flight run in any order that the promises allow. *)

Module Overlap.
Import JS.

Inductive method : Type :=
| CallGet (chatId : Z)
| CallSet (chatId : Z) (sessionId : jsstring)
| CallClear (chatId : Z).

(** Where a call stands:
    - [Reading]: inside [loadOnce], at [await fs.readFile(..)]; this call has
      found [loaded] false and has set it; the file is not read yet;
    - [Fetched d]: still at [await fs.readFile(..)]; the file has been read
      and was [d] then;
    - [Loaded]: at [await this.loadOnce()], whose promise is fulfilled;
    - [Writing n]: at [await this.writeQueue], the promise of write [n];
    - [Ended r]: the call has returned ([Returns None] for [undefined]) or
      thrown. *)
Inductive phase : Type :=
| Reading
| Fetched (d : Store.file)
| Loaded
| Writing (n : nat)
| Ended (r : Store.completion (option jsstring)).

(** A write that [persistQueued] has chained:
    - [Queued]: its callback has not run to [writeFile];
    - [Stringified payload]: [mkdir] has completed, the callback has built
      the document from the map and is at [await fs.writeFile(..)];
    - [Written]: the promise of the write is fulfilled;
    - [Failed]: it is rejected. *)
Inductive write_status : Type :=
| Queued
| Stringified (payload : json)
| Written
| Failed.

Inductive promise : Type := Pending | Fulfilled | Rejected.

Definition promise_of (ws : write_status) : promise :=
  match ws with
  | Queued | Stringified _ => Pending
  | Written => Fulfilled
  | Failed => Rejected
  end.

(** The store, the document, the writes chained since the start, oldest
    first, and the calls made since the start, oldest first. [writeQueue0]
    is [writeQueue] at the start. *)
Record state : Type := {
  loaded : bool;
  sessions : gmap jsstring jsstring;
  disk : Store.file;
  writeQueue0 : Store.write_queue;
  writes : list write_status;
  calls : list (method * phase)
}.

Definition start (st : Store.SessionStore) (d : Store.file) : state :=
  {| loaded := Store.loaded st; sessions := Store.sessions st; disk := d;
     writeQueue0 := Store.writeQueue st; writes := []; calls := [] |}.

(** The promise that write [n] is chained behind. *)
Definition previous (n : nat) (s : state) : promise :=
  match n with
  | O => match writeQueue0 s with
         | Store.QueueFulfilled => Fulfilled
         | Store.QueueRejected => Rejected
         end
  | S m => from_option promise_of Pending (writes s !! m)
  end.

(** [writeQueue] now: the promise of the last write. *)
Definition writeQueue (s : state) : promise := previous (length (writes s)) s.

Definition set_phase (i : nat) (ph : phase) (s : state) : state :=
  {| loaded := loaded s; sessions := sessions s; disk := disk s;
     writeQueue0 := writeQueue0 s; writes := writes s;
     calls := alter (λ c, (c.1, ph)) i (calls s) |}.

Definition set_write (n : nat) (ws : write_status) (s : state) : state :=
  {| loaded := loaded s; sessions := sessions s; disk := disk s;
     writeQueue0 := writeQueue0 s; writes := <[n := ws]> (writes s);
     calls := calls s |}.

(** The map is changed and [persistQueued] chains a write, for call [i]. *)
Definition persistQueued (i : nat) (m : gmap jsstring jsstring) (s : state) : state :=
  {| loaded := loaded s; sessions := m; disk := disk s;
     writeQueue0 := writeQueue0 s; writes := writes s ++ [Queued];
     calls := alter (λ c, (c.1, Writing (length (writes s)))) i (calls s) |}.

(** The pieces of the calls, and the completions of the file operations. *)
Inductive label : Type :=
| Call (m : method)        (* a method is called and runs to its first [await] *)
| ReadFile (i : nat)       (* the file is read for call [i] *)
| ReadDone (i : nat)       (* [readFile] of call [i] completes, [loadOnce] ends *)
| Resume (i : nat)         (* call [i] goes on after [await this.loadOnce()] *)
| Stringify (n : nat)      (* [mkdir] of write [n] completes, the text is built *)
| WriteDone (n : nat)      (* [writeFile] of write [n] completes *)
| WriteFails (n : nat)     (* [mkdir] or [writeFile] of write [n] fails, or the
                              write before it is rejected *)
| Return (i : nat).        (* call [i] goes on after [await this.writeQueue] *)

Definition step (l : label) (s : state) : option state :=
  match l with
  | Call m =>
      if loaded s
      then Some {| loaded := loaded s; sessions := sessions s; disk := disk s;
                   writeQueue0 := writeQueue0 s; writes := writes s;
                   calls := calls s ++ [(m, Loaded)] |}
      else Some {| loaded := true; sessions := sessions s; disk := disk s;
                   writeQueue0 := writeQueue0 s; writes := writes s;
                   calls := calls s ++ [(m, Reading)] |}
  | ReadFile i =>
      c ← calls s !! i;
      match c.2 with
      | Reading => Some (set_phase i (Fetched (disk s)) s)
      | _ => None
      end
  | ReadDone i =>
      c ← calls s !! i;
      match c.2 with
      | Fetched d =>
          match d with
          | Store.Absent => Some (set_phase i Loaded s)
          | Store.Unusable => Some (set_phase i (Ended Store.Throws) s)
          | Store.Document v =>
              match Store.Object_entries v with
              | None => Some (set_phase i (Ended Store.Throws) s)
              | Some entries =>
                  Some {| loaded := loaded s;
                          sessions := foldl Store.load_entry (sessions s) entries;
                          disk := disk s; writeQueue0 := writeQueue0 s;
                          writes := writes s;
                          calls := alter (λ c, (c.1, Loaded)) i (calls s) |}
              end
          end
      | _ => None
      end
  | Resume i =>
      c ← calls s !! i;
      match c.2 with
      | Loaded =>
          match c.1 with
          | CallGet chatId =>
              Some (set_phase i
                      (Ended (Store.Returns (sessions s !! Store.String_of chatId))) s)
          | CallSet chatId sessionId =>
              Some (persistQueued i
                      (<[Store.String_of chatId := sessionId]> (sessions s)) s)
          | CallClear chatId =>
              Some (persistQueued i (delete (Store.String_of chatId) (sessions s)) s)
          end
      | _ => None
      end
  | Stringify n =>
      ws ← writes s !! n;
      match ws, previous n s with
      | Queued, Fulfilled =>
          Some (set_write n (Stringified (Store.snapshot (sessions s))) s)
      | _, _ => None
      end
  | WriteDone n =>
      ws ← writes s !! n;
      match ws with
      | Stringified payload =>
          Some {| loaded := loaded s; sessions := sessions s;
                  disk := Store.Document payload; writeQueue0 := writeQueue0 s;
                  writes := <[n := Written]> (writes s); calls := calls s |}
      | _ => None
      end
  | WriteFails n =>
      ws ← writes s !! n;
      match ws, previous n s with
      | Queued, (Fulfilled | Rejected) => Some (set_write n Failed s)
      | Stringified _, _ => Some (set_write n Failed s)
      | _, _ => None
      end
  | Return i =>
      c ← calls s !! i;
      match c.2 with
      | Writing n =>
          match previous (S n) s with
          | Fulfilled => Some (set_phase i (Ended (Store.Returns None)) s)
          | Rejected => Some (set_phase i (Ended Store.Throws) s)
          | Pending => None
          end
      | _ => None
      end
  end.

Fixpoint run (ls : list label) (s : state) : option state :=
  match ls with
  | [] => Some s
  | l :: r => s' ← step l s; run r s'
  end.

(** The store as the methods of [Store] see it. *)
Definition store_of (s : state) : Store.SessionStore :=
  {| Store.loaded := loaded s; Store.sessions := sessions s;
     Store.writeQueue := match writeQueue s with
                         | Rejected => Store.QueueRejected
                         | _ => Store.QueueFulfilled
                         end |}.

(** The pieces of one call that runs with no other call in flight, from
    a store [st] on a document [d]; [write_ok] tells whether [mkdir] and
    [writeFile] succeed. *)
Definition alone (m : method) (write_ok : bool) (st : Store.SessionStore)
  (d : Store.file) : list label :=
  [Call m] ++
  (if Store.loaded st then [] else [ReadFile 0; ReadDone 0]) ++
  match (Store.loadOnce d st).1 with
  | Store.Throws => []
  | Store.Returns _ =>
      Resume 0 ::
      match m with
      | CallGet _ => []
      | _ =>
          match Store.writeQueue st with
          | Store.QueueRejected => [WriteFails 0; Return 0]
          | Store.QueueFulfilled =>
              if write_ok then [Stringify 0; WriteDone 0; Return 0]
              else [WriteFails 0; Return 0]
          end
      end
  end.

(** What [Store] gives for the call. *)
Definition awaited (m : method) (write_ok : bool) (st : Store.SessionStore)
  (d : Store.file) : Store.completion (option jsstring) * Store.SessionStore * Store.file :=
  match m with
  | CallGet chatId =>
      let '(r, st1) := Store.get chatId d st in (r, st1, d)
  | CallSet chatId sessionId =>
      let '(r, st1, d1) := Store.set chatId sessionId write_ok d st in
      (match r with
       | Store.Returns _ => Store.Returns None
       | Store.Throws => Store.Throws
       end, st1, d1)
  | CallClear chatId =>
      let '(r, st1, d1) := Store.clear chatId write_ok d st in
      (match r with
       | Store.Returns _ => Store.Returns None
       | Store.Throws => Store.Throws
       end, st1, d1)
  end.

(** No write waits: behind a write that is not settled, every write is
    still [Queued]. *)
Definition pending (ws : write_status) : bool :=
  match ws with
  | Queued | Stringified _ => true
  | _ => false
  end.

(** The invariant of a store whose load had completed at the start: no
    call reads the document; the writes settle in their order; and the last
    write, once it has built its text, holds the map as it is now. *)
Record load_completed (s : state) : Prop := {
  inv_loaded : loaded s = true;
  inv_no_reading : ∀ i c, calls s !! i = Some c →
                     c.2 ≠ Reading ∧ ∀ d, c.2 ≠ Fetched d;
  inv_order : ∀ n m wn wm, (n < m)%nat → writes s !! n = Some wn →
                writes s !! m = Some wm → pending wn = true → wm = Queued;
  inv_text : ∀ n payload, S n = length (writes s) →
               writes s !! n = Some (Stringified payload) →
               payload = Store.snapshot (sessions s);
  inv_document : ∀ n, S n = length (writes s) → writes s !! n = Some Written →
                   disk s = Store.Document (Store.snapshot (sessions s))
}.

(** [get(k)] starts the first load, and [set(k', b)] runs to its end before
    [readFile] completes. *)
Definition overlap_schedule (k k' : Z) (b : jsstring) : list label :=
  [Call (CallGet k); ReadFile 0; Call (CallSet k' b); Resume 1; Stringify 0;
   WriteDone 0; Return 1; ReadDone 0; Resume 0].

(** After the load: [set(1, "a")] and [set(2, "b")] overlap. *)
Definition sample_schedule : list label :=
  [Call (CallSet 1 (lit "a")); Call (CallSet 2 (lit "b")); Resume 0; Resume 1;
   Stringify 0; WriteDone 0; Stringify 1; WriteDone 1; Return 1; Return 0].

Definition sample_start : state :=
  start {| Store.loaded := true; Store.sessions := {[ Store.String_of 3 := lit "c" ]};
           Store.writeQueue := Store.QueueFulfilled |}
        Store.Absent.

Definition sample_state : state :=
  Eval vm_compute in default sample_start (run sample_schedule sample_start).

End Overlap.

(** ** The per-conversation serializer ([enqueueByChat]) *)

Module Queue.

(** How the promise returned by a task settles. *)
Inductive settlement : Type := Fulfilled | Rejected.

#[global] Instance settlement_eq_dec : EqDecision settlement.
Proof. solve_decision. Defined.

(** The progress of the chain that one call of [enqueueByChat] builds,
    [previous.then(task, task).catch(..).finally(..)]:
    - [Waiting]: the reaction of [then] has not run, the task is not called;
    - [Running]: the task was called and its promise is pending;
    - [TaskDone o]: the promise of the task settled with [o], the handlers of
      [catch] and [finally] have not run;
    - [Settled]: both handlers ran and [next] is fulfilled. *)
Inductive status : Type :=
| Waiting
| Running
| TaskDone (o : settlement)
| Settled.

#[global] Instance status_eq_dec : EqDecision status.
Proof. solve_decision. Defined.

(** One call [enqueueByChat(chatId, task)]. The promise [next] of the call
    is named by the position of the call; [previous] is
    [inFlightByChat.get(chatId)] at the time of the call, [None] when the
    map has no entry and [Promise.resolve()] is used. *)
Record job : Type := {
  chatId : Z;
  previous : option nat;
  progress : status
}.

(** What the tasks do, as seen from outside: task [j] is called, the promise
    it returned settles. *)
Inductive event : Type :=
| Start (j : nat)
| End (j : nat) (o : settlement).

#[global] Instance event_eq_dec : EqDecision event.
Proof. solve_decision. Defined.

Record state : Type := {
  jobs : list job;
  inFlightByChat : gmap Z nat;
  trace : list event;            (* oldest first *)
  logged : list nat              (* tasks reported by [console.error] *)
}.

Definition initial : state :=
  {| jobs := []; inFlightByChat := ∅; trace := []; logged := [] |}.

(** The steps of the event loop that concern the queue. *)
Inductive label : Type :=
| Enqueue (c : Z)                 (* a call of [enqueueByChat(c, task)] *)
| Run (j : nat)                   (* the reaction [then(task, task)] of call [j] *)
| Finish (j : nat) (o : settlement) (* the promise of task [j] settles *)
| Settle (j : nat).               (* the handlers of [catch] and [finally] *)

Definition set_progress (j : nat) (p : status) (js : list job) : list job :=
  alter (λ jb, {| chatId := chatId jb; previous := previous jb; progress := p |}) j js.

(** [previous] is settled: it is [Promise.resolve()], or the promise [next]
    of an earlier call whose chain has run to its end. *)
Definition previous_settled (js : list job) (jb : job) : bool :=
  match previous jb with
  | None => true
  | Some p =>
      match js !! p with
      | Some pb => bool_decide (progress pb = Settled)
      | None => false
      end
  end.

(** [enqueueByChat(c, task)]: the call reads the map, builds the chain
    behind [previous] and stores its promise [next] in the map. The task is
    not called yet. *)
Definition enqueueByChat (c : Z) (s : state) : state :=
  let next := length (jobs s) in
  {| jobs := jobs s ++ [{| chatId := c;
                           previous := inFlightByChat s !! c;
                           progress := Waiting |}];
     inFlightByChat := <[c := next]> (inFlightByChat s);
     trace := trace s; logged := logged s |}.

(** One step. The handlers of [catch] and [finally] and the settlement of
    [next] are one step: a call in between reads the map only, which the
    handler of [finally] has already updated. *)
Definition step (l : label) (s : state) : option state :=
  match l with
  | Enqueue c => Some (enqueueByChat c s)
  | Run j =>
      jb ← jobs s !! j;
      if bool_decide (progress jb = Waiting) && previous_settled (jobs s) jb
      then Some {| jobs := set_progress j Running (jobs s);
                   inFlightByChat := inFlightByChat s;
                   trace := trace s ++ [Start j]; logged := logged s |}
      else None
  | Finish j o =>
      jb ← jobs s !! j;
      if bool_decide (progress jb = Running)
      then Some {| jobs := set_progress j (TaskDone o) (jobs s);
                   inFlightByChat := inFlightByChat s;
                   trace := trace s ++ [End j o]; logged := logged s |}
      else None
  | Settle j =>
      jb ← jobs s !! j;
      match progress jb with
      | TaskDone o =>
          Some {| jobs := set_progress j Settled (jobs s);
                  inFlightByChat :=
                    if bool_decide (inFlightByChat s !! chatId jb = Some j)
                    then delete (chatId jb) (inFlightByChat s)
                    else inFlightByChat s;
                  trace := trace s;
                  logged := match o with
                            | Rejected => logged s ++ [j]
                            | Fulfilled => logged s
                            end |}
      | _ => None
      end
  end.

(** A schedule is a list of steps, run from left to right. *)
Fixpoint run (ls : list label) (s : state) : option state :=
  match ls with
  | [] => Some s
  | l :: r => s' ← step l s; run r s'
  end.

Definition reachable (s : state) : Prop := ∃ ls, run ls initial = Some s.

(** The steps that the event loop takes by itself. *)
Definition internal (l : label) : bool :=
  match l with
  | Enqueue _ => false
  | _ => true
  end.

(** Nothing is left to do: no step other than a new call is possible. *)
Definition quiescent (s : state) : Prop :=
  ∀ l, internal l = true → step l s = None.

(** The chats of the calls of a schedule, in the order of the calls. *)
Definition submissions (ls : list label) : list Z :=
  omap (λ l, match l with Enqueue c => Some c | _ => None end) ls.

Definition starts (j : nat) (tr : list event) : nat :=
  length (filter (λ e, e = Start j) tr).

Definition is_end (j : nat) (e : event) : bool :=
  match e with
  | End i _ => bool_decide (i = j)
  | _ => false
  end.

Definition ends (j : nat) (tr : list event) : nat :=
  length (filter (λ e, is_end j e = true) tr).

(** The reactions still to run for one call. *)
Definition work_left (p : status) : nat :=
  match p with
  | Waiting => 3
  | Running => 2
  | TaskDone _ => 1
  | Settled => 0
  end.

Definition pending_work (s : state) : nat :=
  sum_list (work_left ∘ progress <$> jobs s).

(** Two messages for chat 1 and one for chat 2; the first task rejects. *)
Definition sample_schedule : list label :=
  [Enqueue 1; Enqueue 1; Run 0; Enqueue 2; Run 2; Finish 0 Rejected; Settle 0;
   Run 1; Finish 2 Fulfilled; Finish 1 Fulfilled; Settle 1; Settle 2].

Definition sample_state : state :=
  Eval vm_compute in default initial (run sample_schedule initial).

(** *** The invariant of the queue *)

(** [previous] of a call is the latest earlier call of the same chat, and
    when it is [Promise.resolve()] every earlier call of the chat has run
    to its end. *)
Definition previous_ok (js : list job) : Prop :=
  ∀ j jb, js !! j = Some jb →
    match previous jb with
    | Some p =>
        (p < j)%nat ∧ (∃ pb, js !! p = Some pb ∧ chatId pb = chatId jb) ∧
        (∀ i ib, (p < i < j)%nat → js !! i = Some ib → chatId ib ≠ chatId jb)
    | None =>
        ∀ i ib, (i < j)%nat → js !! i = Some ib → chatId ib = chatId jb →
                progress ib = Settled
    end.

(** A task is called only when every earlier call of its chat has run to
    its end. *)
Definition order_ok (js : list job) : Prop :=
  ∀ i j ib jb, (i < j)%nat → js !! i = Some ib → js !! j = Some jb →
    chatId ib = chatId jb → progress jb ≠ Waiting → progress ib = Settled.

(** The map holds, for a chat, the latest call of the chat as long as its
    chain has not run to its end, and nothing once it has. *)
Definition map_ok (js : list job) (m : gmap Z nat) : Prop :=
  ∀ c,
    match m !! c with
    | Some p =>
        (∃ pb, js !! p = Some pb ∧ chatId pb = c ∧ progress pb ≠ Settled) ∧
        (∀ i ib, (p < i)%nat → js !! i = Some ib → chatId ib ≠ c)
    | None => ∀ i ib, js !! i = Some ib → chatId ib = c → progress ib = Settled
    end.

(** The events of the trace are those that the progress of the calls tells. *)
Definition counts_ok (js : list job) (tr : list event) : Prop :=
  (∀ j jb, js !! j = Some jb →
     starts j tr = (match progress jb with Waiting => 0 | _ => 1 end)%nat ∧
     ends j tr = (match progress jb with Waiting | Running => 0 | _ => 1 end)%nat) ∧
  (∀ j, (length js ≤ j)%nat → starts j tr = O ∧ ends j tr = O).

(** In the trace, a task starts after the tasks of the earlier calls of its
    chat have ended, and ends after it has started. *)
Definition trace_ok (js : list job) (tr : list event) : Prop :=
  (∀ i j ib jb pre post, (i < j)%nat → js !! i = Some ib → js !! j = Some jb →
     chatId ib = chatId jb → tr = pre ++ Start j :: post → (0 < ends i pre)%nat) ∧
  (∀ j o pre post, tr = pre ++ End j o :: post → (0 < starts j pre)%nat).

Record invariant (s : state) : Prop := {
  inv_previous : previous_ok (jobs s);
  inv_order : order_ok (jobs s);
  inv_map : map_ok (jobs s) (inFlightByChat s);
  inv_counts : counts_ok (jobs s) (trace s);
  inv_trace : trace_ok (jobs s) (trace s)
}.

(** [console.error] has reported exactly the tasks that rejected and whose
    chain has run to its end, each once; and a task whose promise has settled
    has its end in the trace. *)
Definition log_ok (s : state) : Prop :=
  NoDup (logged s) ∧
  (∀ j, j ∈ logged s ↔
        ∃ jb, jobs s !! j = Some jb ∧ progress jb = Settled ∧ End j Rejected ∈ trace s) ∧
  (∀ j jb o, jobs s !! j = Some jb → progress jb = TaskDone o → End j o ∈ trace s).

End Queue.

(** ** The arguments of the child process ([buildArgs]) *)

Module Args.
Import JS Runner.

(** [relayConfig.codexSandbox] *)
Inductive sandbox : Type := ReadOnly | WorkspaceWrite | DangerFullAccess.

Definition sandbox_name (s : sandbox) : jsstring :=
  match s with
  | ReadOnly => lit "read-only"
  | WorkspaceWrite => lit "workspace-write"
  | DangerFullAccess => lit "danger-full-access"
  end.

(** The part of [relayConfig] that [buildArgs] reads. *)
Record RunnerConfig : Type := {
  codexSandbox : sandbox;
  codexModel : option jsstring
}.

(** A string that is present and not empty, as a condition tests it. *)
Definition truthy (s : option jsstring) : option jsstring :=
  match s with
  | Some (c :: r) => Some (c :: r)
  | _ => None
  end.

Definition buildArgs (relayConfig : RunnerConfig) (input : CodexTurnInput)
  (outputFile : jsstring) : list jsstring :=
  let baseArgs :=
    match truthy (input_sessionId input) with
    | Some _ => [lit "exec"; lit "resume"]
    | None => [lit "exec"]
    end in
  let baseArgs := baseArgs ++ [lit "--skip-git-repo-check"] in
  let baseArgs := baseArgs ++ [lit "--sandbox"; sandbox_name (codexSandbox relayConfig)] in
  let baseArgs := baseArgs ++ [lit "--json"] in
  let baseArgs := baseArgs ++ [lit "--color"; lit "never"] in
  let baseArgs := baseArgs ++ [lit "--output-last-message"; outputFile] in
  let baseArgs :=
    match truthy (codexModel relayConfig) with
    | Some model => baseArgs ++ [lit "--model"; model]
    | None => baseArgs
    end in
  let baseArgs :=
    foldl (λ args imagePath, args ++ [lit "--image"; imagePath]) baseArgs
          (imagePaths input) in
  let baseArgs :=
    match truthy (input_sessionId input) with
    | Some sessionId => baseArgs ++ [sessionId]
    | None => baseArgs
    end in
  baseArgs ++ [prompt input].

(** The options that do not depend on the request. *)
Definition fixed_options (relayConfig : RunnerConfig) (outputFile : jsstring)
  : list jsstring :=
  [lit "--skip-git-repo-check"; lit "--sandbox"; sandbox_name (codexSandbox relayConfig);
   lit "--json"; lit "--color"; lit "never"; lit "--output-last-message"; outputFile] ++
  match truthy (codexModel relayConfig) with
  | Some model => [lit "--model"; model]
  | None => []
  end.

End Args.

(** ** Replies and the task of one message ([humanError], [sendResponse],
    [cleanupTargets], the task that the message handler queues) *)

Module Relay.
Import JS.

(** What a [catch] clause receives: an [Error] with its message, or any
    other value. *)
Inductive thrown : Type :=
| ErrorObject (message : jsstring)
| OtherValue.

Definition unknown_error : jsstring :=
  lit "Unknown error while handling your request.".

Definition humanError (error : thrown) : jsstring :=
  match error with
  | ErrorObject message =>
      match trim message with
      | [] => unknown_error
      | _ => message
      end
  | OtherValue => unknown_error
  end.

(** The messages delivered to the chat, oldest first, and the number of
    calls of [ctx.reply] so far. *)
Record chat_state : Type := {
  sent : list jsstring;
  attempts : nat
}.

(** The result of [buildPayload], as far as the task uses it. The
    directories of the downloads are named like those of [Runner.world];
    every call of [downloadTelegramFile] that returns is followed by the push
    of its directory, so the [cleanupTargets] of a returned payload are the
    directories that [buildPayload] has created. *)
Record MessagePayload : Type := {
  payload_prompt : jsstring;
  payload_imagePaths : list jsstring;
  payload_cleanupTargets : list nat
}.

(** [buildPayload] returns a payload, or it throws; [downloads] are then the
    directories that [downloadTelegramFile] has created before the failure
    (a download that cannot be written, a transcription that fails, a message
    without content after a download). Its requests have no timer:
    [PayloadPending] is a download or a transcription that never completes. *)
Inductive payload_outcome : Type :=
| PayloadReady (payload : MessagePayload)
| PayloadFails (error : thrown) (downloads : list nat)
| PayloadPending.

(** What the task of one message finds: the outcome of [buildPayload], the
    behaviour of the child process, whether the session file can be written,
    and what a failing call of the session store throws. *)
Record task_env : Type := {
  payload : payload_outcome;
  turn : Runner.turn_env;
  write_ok : bool;
  store_failure : thrown
}.

(** The state that the task works on; [turns] records the calls of
    [runCodexTurn], oldest first, with their requests. *)
Record world : Type := {
  store : Store.SessionStore;
  disk : Store.file;
  dirs : Runner.world;
  chat : chat_state;
  turns : list Runner.CodexTurnInput
}.

Section WithEnvironment.

(** [JSON.parse], as in [Runner]. *)
Variable JSON_parse : jsstring → option json.

(** [relayConfig.maxReplyChars] *)
Variable maxReplyChars : Z.

(** Telegram: what call number [n] of [ctx.reply] with a text throws, if it
    throws. *)
Variable telegram : nat → jsstring → option thrown.

(** [await ctx.reply(text)] *)
Definition reply (text : jsstring) (c : chat_state) : chat_state * option thrown :=
  match telegram (attempts c) text with
  | None => ({| sent := sent c ++ [text]; attempts := S (attempts c) |}, None)
  | Some error => ({| sent := sent c; attempts := S (attempts c) |}, Some error)
  end.

(** [for (const chunk of chunks) await ctx.reply(chunk)] *)
Fixpoint reply_each (chunks : list jsstring) (c : chat_state)
  : chat_state * option thrown :=
  match chunks with
  | [] => (c, None)
  | chunk :: rest =>
      match reply chunk c with
      | (c', None) => reply_each rest c'
      | (c', Some error) => (c', Some error)
      end
  end.

(** [sendResponse(ctx, text)]; [None] when [splitForTelegram] does not
    return. *)
Definition sendResponse (text : jsstring) (c : chat_state)
  : option (chat_state * option thrown) :=
  chunks ← Chunker.splitForTelegram text maxReplyChars;
  Some (reply_each chunks c).

(** [cleanupTargets(paths)]: every target is removed, [fs.rm] being taken
    to succeed as in [Runner.runCodexTurn]; no failure leaves the function. *)
Definition cleanupTargets (pathsToRemove : list nat) (w : Runner.world) : Runner.world :=
  w ∖ list_to_set pathsToRemove.

(** The [try] block of the task: the state after it and what it threw;
    [None] when it never ends: [buildPayload] never settles, the child
    process never closes, or [splitForTelegram] does not return. The calls for the typing indicator are
    left out: they are not awaited and touch nothing of this state. *)
Definition try_block (chatId : Z) (env : task_env) (w : world)
  : option (world * option thrown) :=
  match payload env with
  | PayloadFails error downloads =>
      Some ({| store := store w; disk := disk w;
               dirs := list_to_set downloads ∪ dirs w;
               chat := chat w; turns := turns w |},
            Some error)
  | PayloadPending => None
  | PayloadReady p =>
      let dirs0 := list_to_set (payload_cleanupTargets p) ∪ dirs w in
      match Store.get chatId (disk w) (store w) with
      | (Store.Throws, st1) =>
          Some ({| store := st1; disk := disk w; dirs := dirs0;
                   chat := chat w; turns := turns w |},
                Some (store_failure env))
      | (Store.Returns priorSessionId, st1) =>
          let input := {| Runner.prompt := payload_prompt p;
                          Runner.input_sessionId := priorSessionId;
                          Runner.imagePaths := payload_imagePaths p |} in
          let turns1 := turns w ++ [input] in
          match Runner.runCodexTurn JSON_parse input (turn env) dirs0 with
          | (_, Runner.NeverSettles) => None
          | (dirs1, Runner.Throws message) =>
              Some ({| store := st1; disk := disk w; dirs := dirs1;
                       chat := chat w; turns := turns1 |},
                    Some (ErrorObject message))
          | (dirs1, Runner.Returns result) =>
              let '(saved, st2, disk2) :=
                match Args.truthy (Runner.sessionId result) with
                | Some sessionId =>
                    Store.set chatId sessionId (write_ok env) (disk w) st1
                | None => (Store.Returns (), st1, disk w)
                end in
              match saved with
              | Store.Throws =>
                  Some ({| store := st2; disk := disk2; dirs := dirs1;
                           chat := chat w; turns := turns1 |},
                        Some (store_failure env))
              | Store.Returns _ =>
                  '(chat1, error) ← sendResponse (Runner.reply result) (chat w);
                  Some ({| store := st2; disk := disk2; dirs := dirs1;
                           chat := chat1; turns := turns1 |},
                        error)
              end
          end
      end
  end.

(** The task that the handler of a message passes to [enqueueByChat]:
    [try], [catch] with the error reply, [finally] with the cleanup. The
    result holds what the task rejects with, if it rejects; it is [None]
    when the task never settles. [cleanup] is assigned only once
    [buildPayload] has returned. *)
Definition message_task (chatId : Z) (env : task_env) (w : world)
  : option (world * option thrown) :=
  '(w1, caught) ← try_block chatId env w;
  let '(chat2, rejected) :=
    match caught with
    | None => (chat w1, None)
    | Some error => reply (lit "Error: " ++ humanError error) (chat w1)
    end in
  let cleanup :=
    match payload env with
    | PayloadReady p => payload_cleanupTargets p
    | PayloadFails _ _ | PayloadPending => []
    end in
  Some ({| store := store w1; disk := disk w1;
           dirs := cleanupTargets cleanup (dirs w1); chat := chat2;
           turns := turns w1 |},
        rejected).

End WithEnvironment.

(** A message with one download, answered by a child that reports session
    [S1] and replies [Hello]; a message without content; a voice message
    when no key for the transcription is set, whose download has created
    directory 6; and a message whose child never closes. Directory 2 is the
    directory of some other task. *)
Definition sample_world : world :=
  {| store := Store.new_store; disk := Store.Absent; dirs := {[ 2%nat ]};
     chat := {| sent := []; attempts := 0 |}; turns := [] |}.

Definition sample_task : task_env :=
  {| payload := PayloadReady {| payload_prompt := lit "hi"; payload_imagePaths := [];
                                payload_cleanupTargets := [5%nat] |};
     turn := {| Runner.lines := [(Runner.thread_started_S1, Runner.stdout)];
                Runner.outcome := Runner.Close (Some 0);
                Runner.output_file := Some (lit "Hello") |};
     write_ok := true;
     store_failure := ErrorObject (lit "EACCES") |}.

Definition failing_task : task_env :=
  {| payload := PayloadFails (ErrorObject (lit "Send text, image, or voice message.")) [];
     turn := Runner.silent_turn_env;
     write_ok := true;
     store_failure := ErrorObject (lit "EACCES") |}.

Definition voice_task : task_env :=
  {| payload := PayloadFails (ErrorObject (lit "Voice input requires OPENAI_API_KEY."))
                             [6%nat];
     turn := Runner.silent_turn_env;
     write_ok := true;
     store_failure := ErrorObject (lit "EACCES") |}.


(** Telegram accepts every reply; Telegram is unreachable. *)
Definition accepting : nat → jsstring → option thrown := λ _ _, None.

(** The state after the first message, for chat 7. *)
Definition sample_result : world :=
  Eval vm_compute in
    default sample_world
      (fst <$> message_task Runner.sample_parse 3800 accepting 7 sample_task sample_world).

(** The state after the voice message, and after the message without
    content. *)
Definition voice_result : world :=
  Eval vm_compute in
    default sample_world
      (fst <$> message_task Runner.sample_parse 3800 accepting 7 voice_task sample_world).

Definition failing_result : world :=
  Eval vm_compute in
    default sample_world
      (fst <$> message_task Runner.sample_parse 3800 accepting 7 failing_task sample_world).

End Relay.

(** ** The numeric settings ([parseMaxReplyChars], [parseBoundedInt]) *)

Module Config.
Import JS.

(** A JavaScript number: every finite double is a rational number. *)
Inductive number : Type :=
| NaN
| Infinity (negative : bool)
| Finite (q : Q).

Section WithNumber.

(** [Number(s)] for a string [s]. *)
Variable Number_of_string : jsstring → number.

(** [Number(raw)] for [raw : string | undefined]. *)
Definition Number (raw : option jsstring) : number :=
  match raw with
  | None => NaN
  | Some s => Number_of_string s
  end.

(** [q < n] and [q > n] for a finite [q] and an integer [n]. *)
Definition lt_int (q : Q) (n : Z) : bool := negb (Qle_bool (inject_Z n) q).
Definition gt_int (q : Q) (n : Z) : bool := negb (Qle_bool q (inject_Z n)).

Definition parseMaxReplyChars (raw : option jsstring) : Z :=
  match Number raw with
  | Finite parsed =>
      if lt_int parsed 200 || gt_int parsed 4096 then 3800 else Qfloor parsed
  | _ => 3800
  end.

Definition parseBoundedInt (raw : option jsstring) (fallback min max : Z) : Z :=
  match Number raw with
  | Finite parsed =>
      if lt_int parsed min || gt_int parsed max then fallback else Qfloor parsed
  | _ => fallback
  end.

End WithNumber.

End Config.

(** * Properties *)

(** ** Facts about the string operations *)

Module JSFacts.
Import JS.

Lemma len_nonneg (s : jsstring) : 0 ≤ len s.
Proof. unfold len. lia. Qed.

Lemma len_nil_iff (s : jsstring) : len s = 0 ↔ s = [].
Proof. unfold len. destruct s; simpl; split; intros; (congruence || lia). Qed.

Lemma trimStart_length (s : jsstring) : (length (trimStart s) ≤ length s)%nat.
Proof.
  induction s as [|c r IH]; simpl; [lia|].
  destruct (is_white_space c); simpl; lia.
Qed.

Lemma trimStart_idemp (s : jsstring) : trimStart (trimStart s) = trimStart s.
Proof.
  induction s as [|c r IH]; simpl; [done|].
  destruct (is_white_space c) eqn:E; [done|]. simpl. by rewrite E.
Qed.

Lemma trimStart_fixed_cons (c : N) (r : jsstring) :
  trimStart (c :: r) = c :: r → is_white_space c = false.
Proof.
  simpl. destruct (is_white_space c); [|done].
  intros E. pose proof (trimStart_length r) as L.
  rewrite E in L. simpl in L. lia.
Qed.

Lemma trimStart_snoc_nonempty (l : jsstring) (c : N) :
  is_white_space c = false → trimStart (l ++ [c]) ≠ [].
Proof.
  intros E. induction l as [|x l IH]; simpl.
  - by rewrite E.
  - destruct (is_white_space x); [done|discriminate].
Qed.

Lemma trimEnd_length (s : jsstring) : (length (trimEnd s) ≤ length s)%nat.
Proof.
  unfold trimEnd. rewrite length_rev.
  etrans; [apply trimStart_length|]. by rewrite length_rev.
Qed.

Lemma trim_length (s : jsstring) : (length (trim s) ≤ length s)%nat.
Proof.
  unfold trim. etrans; [apply trimEnd_length|apply trimStart_length].
Qed.

Lemma trim_cons_nonempty (c : N) (r : jsstring) :
  is_white_space c = false → trim (c :: r) ≠ [].
Proof.
  intros E. unfold trim. simpl. rewrite E. unfold trimEnd. simpl.
  intros H. apply (f_equal (@rev N)) in H. rewrite rev_involutive in H. simpl in H.
  by apply (trimStart_snoc_nonempty (rev r) c).
Qed.

Lemma slice_prefix (s : jsstring) (cut : Z) :
  0 ≤ cut ≤ len s → slice s 0 cut = take (Z.to_nat cut) s.
Proof.
  intros H. unfold slice, slice_bound. simpl.
  destruct (cut <? 0) eqn:E; [lia|].
  replace (Z.min 0 (len s)) with 0 by lia.
  replace (Z.min cut (len s)) with cut by lia.
  simpl. by rewrite Z.sub_0_r.
Qed.

Lemma slice_suffix (s : jsstring) (cut : Z) :
  0 ≤ cut ≤ len s → slice_from s cut = drop (Z.to_nat cut) s.
Proof.
  intros H. unfold slice_from, slice, slice_bound.
  destruct (cut <? 0) eqn:E; [lia|].
  destruct (len s <? 0) eqn:E'; [pose proof (len_nonneg s); lia|].
  replace (Z.min (len s) (len s)) with (len s) by lia.
  replace (Z.min cut (len s)) with cut by lia.
  apply take_ge. rewrite length_drop. unfold len in *. lia.
Qed.

Lemma search_backward_bounds (s : jsstring) (c : N) (i : nat) :
  -1 ≤ search_backward s c i ≤ Z.of_nat i.
Proof.
  induction i as [|i IH]; simpl; case_decide; lia.
Qed.

Lemma lastIndexOf_bounds (s : jsstring) (c : N) (pos : Z) :
  -1 ≤ lastIndexOf s c pos ≤ Z.max pos 0.
Proof.
  unfold lastIndexOf. destruct (len s =? 0) eqn:E; [lia|].
  pose proof (search_backward_bounds s c
                (Z.to_nat (Z.min (Z.max pos 0) (len s - 1)))). lia.
Qed.

End JSFacts.

(** ** The reply chunker *)

Module ChunkerFacts.
Import JS Chunker JSFacts.

Section While.
Context {S : Type} (guard : S → bool) (body : S → S).

Lemma while_loop_invariant (P : S → Prop) :
  (∀ s, guard s = true → P s → P (body s)) →
  ∀ fuel s s' n,
    P s → while_loop fuel guard body s = Some (s', n) →
    P s' ∧ guard s' = false.
Proof.
  intros Hbody fuel. induction fuel as [|fuel IH]; intros s s' n HP; simpl.
  - destruct (guard s) eqn:G; [done|]. intros [= <- <-]. done.
  - destruct (guard s) eqn:G; [|by intros [= <- <-]].
    destruct (while_loop fuel guard body (body s)) as [[s1 n1]|] eqn:W; [|done].
    intros [= <- <-]. eapply IH; [|exact W]. by apply Hbody.
Qed.

(** Every iteration lowers the measure [m] by [d] at least. *)
Lemma while_loop_count (P : S → Prop) (m : S → Z) (d : Z) :
  (∀ s, guard s = true → P s → P (body s) ∧ m (body s) + d ≤ m s) →
  ∀ fuel s s' n,
    P s → while_loop fuel guard body s = Some (s', n) →
    Z.of_nat n * d + m s' ≤ m s.
Proof.
  intros Hbody fuel. induction fuel as [|fuel IH]; intros s s' n HP; simpl.
  - destruct (guard s) eqn:G; [done|]. intros [= <- <-]. lia.
  - destruct (guard s) eqn:G; [|intros [= <- <-]; lia].
    destruct (while_loop fuel guard body (body s)) as [[s1 n1]|] eqn:W; [|done].
    intros [= <- <-]. destruct (Hbody s G HP) as [HP' Hm].
    specialize (IH _ _ _ HP' W). lia.
Qed.

(** A loop whose measure goes down ends before the fuel does. *)
Lemma while_loop_terminates (P : S → Prop) (m : S → nat) :
  (∀ s, guard s = true → P s → P (body s) ∧ (m (body s) < m s)%nat) →
  ∀ fuel s, P s → (m s < fuel)%nat →
    is_Some (while_loop fuel guard body s).
Proof.
  intros Hbody fuel. induction fuel as [|fuel IH]; intros s HP Hm; [lia|].
  simpl. destruct (guard s) eqn:G; [|by eexists].
  destruct (Hbody s G HP) as [HP' Hlt].
  destruct (IH (body s) HP') as [[s1 n1] W]; [lia|].
  rewrite W. by eexists.
Qed.

(** More fuel does not change the result. *)
Lemma while_loop_fuel_mono fuel fuel' s r :
  (fuel ≤ fuel')%nat →
  while_loop fuel guard body s = Some r →
  while_loop fuel' guard body s = Some r.
Proof.
  revert fuel' s r. induction fuel as [|fuel IH]; intros fuel' s r Hle; simpl.
  - destruct (guard s) eqn:G; [done|]. intros <-.
    destruct fuel'; simpl; by rewrite G.
  - destruct fuel' as [|fuel']; [lia|]. simpl.
    destruct (guard s) eqn:G; [|done].
    destruct (while_loop fuel guard body (body s)) as [[s1 n1]|] eqn:W; [|done].
    intros <-. rewrite (IH fuel' _ _ ltac:(lia) W). done.
Qed.

(** The fuel that a finished loop needs is its number of iterations. *)
Lemma while_loop_fuel_needed fuel s s' n :
  while_loop fuel guard body s = Some (s', n) →
  while_loop n guard body s = Some (s', n).
Proof.
  revert s s' n. induction fuel as [|fuel IH]; intros s s' n; simpl.
  - destruct (guard s) eqn:G; [done|]. intros [= <- <-]. simpl. by rewrite G.
  - destruct (guard s) eqn:G.
    + destruct (while_loop fuel guard body (body s)) as [[s1 n1]|] eqn:W; [|done].
      intros [= <- <-]. simpl. rewrite G. by rewrite (IH _ _ _ W).
    + intros [= <- <-]. simpl. by rewrite G.
Qed.

(** A loop that stays where its guard holds never ends. *)
Lemma while_loop_diverges (P : S → Prop) :
  (∀ s, P s → guard s = true ∧ P (body s)) →
  ∀ fuel s, P s → while_loop fuel guard body s = None.
Proof.
  intros Hbody fuel. induction fuel as [|fuel IH]; intros s HP; simpl;
    destruct (Hbody s HP) as [-> HP']; [done|].
  by rewrite (IH _ HP').
Qed.

End While.

Lemma cut_point_nonneg (limit : Z) (text : jsstring) :
  0 ≤ limit → 0 ≤ cut_point limit text ≤ limit.
Proof.
  intros H. unfold cut_point, below_sixty_percent. cbv zeta.
  pose proof (lastIndexOf_bounds text LF limit).
  destruct (Z.ltb_spec (5 * lastIndexOf text LF limit) (3 * limit)); lia.
Qed.

Lemma cut_point_sixty_percent (limit : Z) (text : jsstring) :
  0 ≤ limit → 3 * limit ≤ 5 * cut_point limit text.
Proof.
  intros H. unfold cut_point, below_sixty_percent. cbv zeta.
  destruct (Z.ltb_spec (5 * lastIndexOf text LF limit) (3 * limit)); lia.
Qed.

Lemma guard_true (limit : Z) (st : loop_state) :
  loop_guard limit st = true ↔ limit < len (remaining st).
Proof. unfold loop_guard. apply Z.ltb_lt. Qed.

Lemma guard_false (limit : Z) (st : loop_state) :
  loop_guard limit st = false ↔ len (remaining st) ≤ limit.
Proof. unfold loop_guard. rewrite Z.ltb_ge. done. Qed.

Lemma body_chunks (limit : Z) (st : loop_state) :
  0 ≤ limit → limit < len (remaining st) →
  ∃ seg, chunks (loop_body limit st) = chunks st ++ [seg] ∧ len seg ≤ limit ∧
         seg = trim (take (Z.to_nat (cut_point limit (remaining st))) (remaining st)).
Proof.
  intros Hmax Hlen. pose proof (cut_point_nonneg limit (remaining st) Hmax) as Hc.
  eexists. split; [done|]. rewrite slice_prefix by lia. split; [|done].
  unfold len. pose proof (trim_length
    (take (Z.to_nat (cut_point limit (remaining st))) (remaining st))) as L.
  rewrite length_take in L. lia.
Qed.

Lemma body_remaining (limit : Z) (st : loop_state) :
  0 ≤ limit → limit < len (remaining st) →
  no_leading_space (remaining (loop_body limit st)) ∧
  len (remaining (loop_body limit st)) + cut_point limit (remaining st)
    ≤ len (remaining st).
Proof.
  intros Hmax Hlen. pose proof (cut_point_nonneg limit (remaining st) Hmax) as Hc.
  simpl. split; [apply trimStart_idemp|].
  rewrite slice_suffix by lia.
  pose proof (trimStart_length
    (drop (Z.to_nat (cut_point limit (remaining st))) (remaining st))) as L.
  rewrite length_drop in L. unfold len in *. lia.
Qed.

(** With a negative [max] the guard of the loop never fails. *)
Lemma negative_max_diverges (limit : Z) (fuel : nat) (st : loop_state) :
  limit < 0 → while_loop fuel (loop_guard limit) (loop_body limit) st = None.
Proof.
  intros Hmax. apply (while_loop_diverges _ _ (λ _, True)); [|done].
  intros s _. split; [|done]. apply guard_true. pose proof (len_nonneg (remaining s)). lia.
Qed.

(** With [max = 0] nothing is cut off a text that starts with a character
    that is not white space, and the loop does not end. *)
Lemma zero_max_diverges (fuel : nat) (st : loop_state) :
  no_leading_space (remaining st) → remaining st ≠ [] →
  while_loop fuel (loop_guard 0) (loop_body 0) st = None.
Proof.
  intros Hns Hne.
  apply (while_loop_diverges _ _
           (λ s, no_leading_space (remaining s) ∧ remaining s ≠ [])); [|done].
  intros s [Hs Hn]. split.
  - apply guard_true. pose proof (len_nonneg (remaining s)).
    pose proof (len_nil_iff (remaining s)). destruct (decide (len (remaining s) = 0)); [tauto|lia].
  - pose proof (cut_point_nonneg 0 (remaining s) ltac:(lia)) as Hc.
    assert (cut_point 0 (remaining s) = 0) as Hz by lia.
    assert (remaining (loop_body 0 s) = remaining s) as ->; [|done].
    simpl. rewrite Hz.
    rewrite slice_suffix by (pose proof (len_nonneg (remaining s)); lia).
    exact Hs.
Qed.

Lemma loop_segments_bounded (limit : Z) (fuel : nat) (st st' : loop_state) (n : nat) :
  Forall (λ seg, len seg ≤ limit) (chunks st) →
  while_loop fuel (loop_guard limit) (loop_body limit) st = Some (st', n) →
  Forall (λ seg, len seg ≤ limit) (chunks st') ∧ len (remaining st') ≤ limit.
Proof.
  intros Hall W. destruct (decide (limit < 0)) as [Hneg|Hpos].
  { by rewrite negative_max_diverges in W. }
  rewrite <- guard_false.
  eapply (while_loop_invariant _ _ (λ s, Forall (λ seg, len seg ≤ limit) (chunks s)));
    [|exact Hall|exact W].
  intros s G HP. apply guard_true in G.
  destruct (body_chunks limit s) as (seg & -> & Hseg & _); [lia|done|].
  apply Forall_app. split; [done|]. by constructor.
Qed.

Lemma loop_terminates (limit : Z) (st : loop_state) :
  1 ≤ limit →
  is_Some (while_loop (S (length (remaining st))) (loop_guard limit) (loop_body limit) st).
Proof.
  intros Hmax.
  refine (while_loop_terminates (loop_guard limit) (loop_body limit) (λ _, True)
            (λ s, length (remaining s)) _ _ st I _); [|lia].
  intros s G _. split; [done|]. apply guard_true in G.
  destruct (body_remaining limit s) as [_ L]; [lia|done|].
  pose proof (cut_point_sixty_percent limit (remaining s) ltac:(lia)). unfold len in *. lia.
Qed.

Lemma loop_iterations (limit : Z) (fuel : nat) (st st' : loop_state) (n : nat) :
  1 ≤ limit →
  while_loop fuel (loop_guard limit) (loop_body limit) st = Some (st', n) →
  Z.of_nat n * (3 * limit) + 5 * len (remaining st') ≤ 5 * len (remaining st).
Proof.
  intros Hmax W.
  refine (while_loop_count (loop_guard limit) (loop_body limit) (λ _, True)
            (λ s, 5 * len (remaining s)) (3 * limit) _ fuel st st' n I W).
  intros s G _. split; [done|]. apply guard_true in G.
  destruct (body_remaining limit s) as [_ L]; [lia|done|].
  pose proof (cut_point_sixty_percent limit (remaining s) ltac:(lia)). lia.
Qed.

Lemma loop_consumes (limit : Z) (fuel : nat) (st st' : loop_state) (n : nat) :
  1 ≤ limit →
  while_loop fuel (loop_guard limit) (loop_body limit) st = Some (st', n) →
  Z.of_nat n + len (remaining st') ≤ len (remaining st).
Proof.
  intros Hmax W.
  pose proof (while_loop_count (loop_guard limit) (loop_body limit) (λ _, True)
                (λ s, len (remaining s)) 1) as H.
  cbv beta in H. rewrite <- (Z.mul_1_r (Z.of_nat n)). eapply H; [|done|exact W].
  intros s G _. split; [done|]. apply guard_true in G.
  destruct (body_remaining limit s) as [_ L]; [lia|done|].
  pose proof (cut_point_sixty_percent limit (remaining s) ltac:(lia)). lia.
Qed.

Lemma loop_segments_nonempty (limit : Z) (fuel : nat) (st st' : loop_state) (n : nat) :
  1 ≤ limit →
  no_leading_space (remaining st) →
  Forall (λ seg, seg ≠ []) (chunks st) →
  while_loop fuel (loop_guard limit) (loop_body limit) st = Some (st', n) →
  Forall (λ seg, seg ≠ []) (chunks st').
Proof.
  intros Hmax Hns Hall W.
  apply (while_loop_invariant _ _
           (λ s, no_leading_space (remaining s) ∧ Forall (λ seg, seg ≠ []) (chunks s)))
    in W as [[_ H] _]; [done| |done].
  intros s G [Hs Hc]. apply guard_true in G.
  destruct (body_remaining limit s) as [Hs' _]; [lia|done|]. split; [done|].
  destruct (body_chunks limit s) as (seg & -> & _ & ->); [lia|done|].
  apply Forall_app. split; [done|]. constructor; [|done].
  destruct (remaining s) as [|c r] eqn:R; [unfold len in G; simpl in G; lia|].
  pose proof (cut_point_sixty_percent limit (c :: r) ltac:(lia)).
  destruct (Z.to_nat (cut_point limit (c :: r))) as [|k] eqn:K; [lia|].
  simpl. apply trim_cons_nonempty. by apply (trimStart_fixed_cons c r).
Qed.

(** Any run of the loop that ends is found with the fuel of
    [splitForTelegram]: without a result there, the call does not return. *)
Lemma splitForTelegram_fuel_adequate (text : jsstring) (limit : Z) (fuel : nat) r :
  splitForTelegram_run fuel text limit = Some r →
  splitForTelegram_run (S (length text)) text limit = Some r.
Proof.
  unfold splitForTelegram_run. destruct (len text <=? limit) eqn:E; [done|].
  apply Z.leb_gt in E.
  destruct (while_loop fuel _ _ _) as [[st n]|] eqn:W; [|done].
  intros <-.
  enough (n ≤ length text)%nat as Hn.
  { apply while_loop_fuel_needed in W.
    by rewrite (while_loop_fuel_mono _ _ n (S (length text)) _ _ ltac:(lia) W). }
  destruct (decide (limit < 0)) as [Hneg|Hnn].
  { by rewrite negative_max_diverges in W. }
  destruct (decide (limit = 0)) as [->|Hnz].
  - destruct fuel as [|fuel]; simpl in W.
    + destruct (loop_guard 0 _); [done|]. injection W as <- <-. lia.
    + destruct (loop_guard 0 _) eqn:G; [|injection W as <- <-; lia].
      destruct (while_loop fuel _ _ _) as [[s1 n1]|] eqn:W1; [|done].
      injection W as <- <-.
      destruct (decide (remaining (loop_body 0 {| remaining := text; chunks := [] |}) = []))
        as [Hnil|Hne].
      * destruct fuel; simpl in W1; unfold loop_guard in W1 at 1;
          rewrite Hnil in W1; simpl in W1; injection W1 as <- <-;
          unfold len in E; lia.
      * rewrite zero_max_diverges in W1; [done| |done]. apply trimStart_idemp.
  - pose proof (loop_consumes limit fuel _ _ _ ltac:(lia) W) as Hit. simpl in Hit.
    pose proof (len_nonneg (remaining st)). unfold len in *. lia.
Qed.

Lemma run_segments_bounded (text : jsstring) (limit : Z) (fuel : nat) segs n :
  splitForTelegram_run fuel text limit = Some (segs, n) →
  Forall (λ seg, len seg ≤ limit) segs.
Proof.
  unfold splitForTelegram_run. destruct (Z.leb_spec (len text) limit) as [Hle|Hgt].
  - intros [= <- <-]. by repeat constructor.
  - destruct (while_loop fuel _ _ _) as [[st k]|] eqn:W; [|done].
    intros [= <- <-].
    destruct (loop_segments_bounded limit fuel {| remaining := text; chunks := [] |}
                st k (Forall_nil_2 _) W) as [Hc Hr].
    destruct (0 <? len (remaining st)); [|done].
    apply Forall_app. split; [done|]. by constructor.
Qed.

Lemma run_terminates (text : jsstring) (limit : Z) :
  1 ≤ limit → is_Some (splitForTelegram_run (S (length text)) text limit).
Proof.
  intros Hmax. unfold splitForTelegram_run.
  destruct (len text <=? limit); [by eexists|].
  destruct (loop_terminates limit {| remaining := text; chunks := [] |} Hmax)
    as [[st n] W]. cbn [remaining] in W. rewrite W. by eexists.
Qed.

(** C6 (amended). Every segment that [splitForTelegram] returns has length
    at most [max], for every text and every integer [max]; the call returns
    for every [max] of at least 1; and a text of length at most [max] comes
    back as the single segment [text] itself, not trimmed. *)
Theorem splitForTelegram_segments_bounded (text : jsstring) (limit : Z) :
  (∀ segs, splitForTelegram text limit = Some segs →
           Forall (λ seg, len seg ≤ limit) segs) ∧
  (1 ≤ limit → is_Some (splitForTelegram text limit)) ∧
  (len text ≤ limit → splitForTelegram text limit = Some [text]).
Proof.
  unfold splitForTelegram. split; [|split].
  - intros segs H.
    destruct (splitForTelegram_run _ text limit) as [[segs' n]|] eqn:R; [|done].
    injection H as <-. by eapply run_segments_bounded.
  - intros Hmax. destruct (run_terminates text limit Hmax) as [r ->]. by eexists.
  - intros Hle. unfold splitForTelegram_run.
    destruct (Z.leb_spec (len text) limit); [done|lia].
Qed.

Lemma splitForTelegram_segments_bounded_witness :
  Forall (λ seg, len seg ≤ 8) [lit "hello"; lit "world an"; lit "d more"] ∧
  is_Some (splitForTelegram (lit "hello" ++ [LF] ++ lit "world and more") 8) ∧
  splitForTelegram (lit " hi ") 8 = Some [lit " hi "].
Proof.
  destruct (splitForTelegram_segments_bounded
              (lit "hello" ++ [LF] ++ lit "world and more") 8) as (H1 & H2 & _).
  destruct (splitForTelegram_segments_bounded (lit " hi ") 8) as (_ & _ & H3).
  split; [apply H1; reflexivity|].
  split; [apply H2; lia|apply H3; vm_compute; discriminate].
Defined.

(** C6 as stated fails: a short text with white space around it comes back
    as it is, which is not its trimmed form. *)
Lemma splitForTelegram_short_text_untrimmed :
  len (lit " a") ≤ 5 ∧
  splitForTelegram (lit " a") 5 = Some [lit " a"] ∧
  splitForTelegram (lit " a") 5 ≠ Some [trim (lit " a")].
Proof. split; [vm_compute; discriminate|]. split; [reflexivity|vm_compute; discriminate]. Qed.

(** With [max = 0] the call does not return for a text such as ["a"]; the
    configuration gives a [max] between 200 and 4096. *)
Lemma splitForTelegram_zero_max_no_result (fuel : nat) :
  splitForTelegram_run fuel (lit "a") 0 = None.
Proof.
  unfold splitForTelegram_run. simpl.
  by rewrite zero_max_diverges.
Qed.

(** C7 (amended). For every [max] of at least 1 the loop of
    [splitForTelegram] ends after at most [ceil(length / (0.6 * max))]
    iterations, and for a text that is not empty and does not start with
    white space no returned segment is empty. *)
Theorem splitForTelegram_progress (text : jsstring) (limit : Z) :
  1 ≤ limit →
  ∃ segs n,
    splitForTelegram_run (S (length text)) text limit = Some (segs, n) ∧
    Z.of_nat n ≤ iteration_bound text limit ∧
    (text ≠ [] → no_leading_space text → Forall (λ seg, seg ≠ []) segs).
Proof.
  intros Hmax. destruct (run_terminates text limit Hmax) as [[segs n] R].
  exists segs, n. split; [done|]. revert R. unfold splitForTelegram_run.
  pose proof (len_nonneg text) as Hlen.
  assert (0 ≤ iteration_bound text limit) as Hb.
  { unfold iteration_bound. apply Z.div_pos; lia. }
  destruct (len text <=? limit).
  - intros [= <- <-]. split; [done|]. intros Hne _. by repeat constructor.
  - destruct (while_loop _ _ _ _) as [[st k]|] eqn:W; [|done].
    intros [= <- <-]. split.
    + pose proof (loop_iterations limit _ _ _ _ Hmax W) as Hit. simpl in Hit.
      pose proof (len_nonneg (remaining st)).
      unfold iteration_bound. apply Z.div_le_lower_bound; lia.
    + intros Hne Hns.
      pose proof (loop_segments_nonempty limit _ {| remaining := text; chunks := [] |}
                    st k Hmax Hns (Forall_nil_2 _) W) as Hc.
      destruct (Z.ltb_spec 0 (len (remaining st))) as [Hpos|]; [|done].
      apply Forall_app. split; [done|]. constructor; [|done].
      intros Hnil. rewrite Hnil in Hpos. unfold len in Hpos. simpl in Hpos. lia.
Qed.

Lemma splitForTelegram_progress_witness :
  ∃ segs n,
    splitForTelegram_run 21 (lit "hello" ++ [LF] ++ lit "world and more") 8
      = Some (segs, n) ∧
    Z.of_nat n ≤ 5 ∧
    Forall (λ seg, seg ≠ []) segs.
Proof.
  destruct (splitForTelegram_progress
              (lit "hello" ++ [LF] ++ lit "world and more") 8 ltac:(lia))
    as (segs & n & H1 & H2 & H3).
  exists segs, n. split; [exact H1|]. split; [exact H2|].
  apply H3; [discriminate|reflexivity].
Defined.

(** C7 as stated fails: a text of 201 spaces is not empty, and with
    [max = 200] the single segment returned for it is empty. *)
Lemma splitForTelegram_empty_segment :
  replicate 201 32%N ≠ [] ∧
  splitForTelegram (replicate 201 32%N) 200 = Some [[]].
Proof. split; [discriminate|]. vm_compute. reflexivity. Qed.

End ChunkerFacts.

(** ** The allow-list *)

Module AuthFacts.
Import Auth.

Lemma allow_list_size (cfg : RelayConfig) :
  size (allowedChatIds cfg) = O ↔ allowedChatIds cfg = ∅.
Proof.
  rewrite size_empty_iff. by unfold_leibniz.
Qed.

(** C10. With an empty allow-list [isAuthorized] returns [true] for every
    update, whatever its chat and also without a chat; an update is refused
    only under an allow-list that is not empty, and then exactly when it has
    no chat or its chat id is not in the list. *)
Theorem isAuthorized_empty_allow_list (cfg : RelayConfig) (ctx : Context) :
  (allowedChatIds cfg = ∅ → isAuthorized cfg ctx = true) ∧
  (isAuthorized cfg ctx = false → allowedChatIds cfg ≠ ∅) ∧
  (allowedChatIds cfg ≠ ∅ →
   (isAuthorized cfg ctx = true ↔ ∃ c, chat ctx = Some c ∧ id c ∈ allowedChatIds cfg)).
Proof.
  unfold isAuthorized. pose proof (allow_list_size cfg) as Hsz.
  destruct (decide (size (allowedChatIds cfg) = O)) as [Hz|Hnz].
  - split; [done|]. split; [done|]. intros Hne. tauto.
  - split; [intros He; tauto|]. split; [intros _ He; tauto|]. intros _.
    destruct (chat ctx) as [c|].
    + rewrite bool_decide_eq_true. split; [by exists c|]. by intros (c' & [= <-] & H).
    + split; [done|]. by intros (c' & [=] & _).
Qed.

Lemma isAuthorized_empty_allow_list_witness :
  isAuthorized {| allowedChatIds := ∅ |}
               {| chat := None |} = true ∧
  isAuthorized {| allowedChatIds := ∅ |}
               {| chat := Some {| id := 42 |} |} = true ∧
  ({[ 7 ]} : gset Z) ≠ ∅ ∧
  (isAuthorized {| allowedChatIds := {[ 7 ]} |}
                {| chat := Some {| id := 7 |} |} = true ↔
   ∃ c, Some {| id := 7 |} = Some c ∧ id c ∈ ({[ 7 ]} : gset Z)).
Proof.
  destruct (isAuthorized_empty_allow_list
              {| allowedChatIds := ∅ |} {| chat := None |})
    as (H1 & _ & _).
  destruct (isAuthorized_empty_allow_list
              {| allowedChatIds := ∅ |}
              {| chat := Some {| id := 42 |} |}) as (H2 & _ & _).
  destruct (isAuthorized_empty_allow_list
              {| allowedChatIds := {[ 7 ]} |}
              {| chat := Some {| id := 42 |} |}) as (_ & H3 & _).
  destruct (isAuthorized_empty_allow_list
              {| allowedChatIds := {[ 7 ]} |}
              {| chat := Some {| id := 7 |} |}) as (_ & _ & H4).
  split; [apply H1; reflexivity|].
  split; [apply H2; reflexivity|].
  split; [apply H3; vm_compute; reflexivity|].
  apply H4. cbn [allowedChatIds]. intros E. apply (f_equal size) in E. discriminate E.
Defined.

End AuthFacts.

(** ** The turn executor *)

Module RunnerFacts.
Import JS Runner.

Section WithParser.
Context (JSON_parse : jsstring → option json).

#[local] Abbreviation consumeLine := (consumeLine JSON_parse).
#[local] Abbreviation consumeAll := (consumeAll JSON_parse).
#[local] Abbreviation runCodexTurn := (runCodexTurn JSON_parse).
#[local] Abbreviation line_event := (line_event JSON_parse).
#[local] Abbreviation reported_sessions := (reported_sessions JSON_parse).
#[local] Abbreviation reported_errors := (reported_errors JSON_parse).
#[local] Abbreviation malformed := (malformed JSON_parse).
#[local] Abbreviation without_malformed := (without_malformed JSON_parse).

Lemma latest_cons prior sid sids : latest prior (sid :: sids) = latest (Some sid) sids.
Proof. unfold latest. rewrite last_cons. by destruct (last sids). Qed.

Lemma consumeEvent_capture (event : json) (st : capture) :
  cap_sessionId (consumeEvent event st)
    = from_option Some (cap_sessionId st) (event_session event) ∧
  jsonErrors (consumeEvent event st) = jsonErrors st ++ event_errors event ∧
  stderrLines (consumeEvent event st) = stderrLines st ∧
  stdoutLines (consumeEvent event st) = stdoutLines st.
Proof.
  unfold consumeEvent, event_session, event_errors.
  destruct (type_is event "thread.started"),
           (as_string (member event "thread_id")),
           (type_is event "error"),
           (as_string (member event "message")),
           (type_is event "turn.failed"),
           (as_string (member event "error" ≫= λ e, member e "message"));
    simpl; rewrite ?app_nil_r, <- ?app_assoc; done.
Qed.

Lemma consumeLine_capture (st : capture) (e : jsstring * source) :
  cap_sessionId (consumeLine st e)
    = from_option Some (cap_sessionId st) (line_event (fst e) ≫= event_session) ∧
  jsonErrors (consumeLine st e)
    = jsonErrors st ++ from_option event_errors [] (line_event (fst e)) ∧
  stderrLines (consumeLine st e) = stderrLines st ++ nonblank_lines stderr [e] ∧
  stdoutLines (consumeLine st e) = stdoutLines st ++ nonblank_lines stdout [e].
Proof.
  unfold Runner.consumeLine, Runner.line_event.
  destruct (trim (fst e)) as [|c t] eqn:T.
  { assert (∀ src, nonblank_lines src [e] = []) as Hn.
    { intros src. unfold nonblank_lines. simpl. rewrite T. by case_decide. }
    rewrite !Hn, !app_nil_r. done. }
  assert (∀ src, nonblank_lines src [e] = if decide (snd e = src) then [c :: t] else [])
    as Hn.
  { intros src. unfold nonblank_lines. simpl. rewrite T. by case_decide. }
  rewrite !Hn. clear Hn.
  set (st0 := match snd e with stderr => _ | stdout => _ end).
  assert (cap_sessionId st0 = cap_sessionId st ∧ jsonErrors st0 = jsonErrors st ∧
          stderrLines st0 = stderrLines st ++
            (if decide (snd e = stderr) then [c :: t] else []) ∧
          stdoutLines st0 = stdoutLines st ++
            (if decide (snd e = stdout) then [c :: t] else []))
    as (Hs & He & Herr & Hout).
  { subst st0. destruct (snd e); repeat case_decide; simpl;
      rewrite ?app_nil_r; done. }
  destruct (JSON_parse (c :: t)) as [event|] eqn:P; simpl;
    [|by rewrite Hs, He, Herr, Hout, app_nil_r].
  destruct (consumeEvent_capture event st0) as (Hs' & He' & Herr' & Hout').
  rewrite Hs in Hs'. rewrite He in He'. rewrite Herr in Herr'. rewrite Hout in Hout'.
  destruct event; simpl; rewrite ?Hs, ?He, ?Herr, ?Hout, ?app_nil_r; done.
Qed.

(** What [consumeLine] has captured after a sequence of lines. *)
Lemma foldl_consumeLine_capture (ls : list (jsstring * source)) (st : capture) :
  cap_sessionId (foldl consumeLine st ls)
    = latest (cap_sessionId st) (reported_sessions ls) ∧
  jsonErrors (foldl consumeLine st ls) = jsonErrors st ++ reported_errors ls ∧
  stderrLines (foldl consumeLine st ls) = stderrLines st ++ nonblank_lines stderr ls ∧
  stdoutLines (foldl consumeLine st ls) = stdoutLines st ++ nonblank_lines stdout ls.
Proof.
  revert st. induction ls as [|e ls IH]; intros st; simpl.
  { unfold latest. simpl. rewrite !app_nil_r. done. }
  destruct (IH (consumeLine st e)) as (-> & -> & -> & ->).
  destruct (consumeLine_capture st e) as (-> & -> & -> & ->).
  unfold Runner.reported_sessions, Runner.reported_errors, nonblank_lines. simpl.
  rewrite <- !app_assoc. repeat split.
  - destruct (line_event (fst e) ≫= event_session); simpl; [by rewrite latest_cons|done].
  - do 2 f_equal. repeat case_decide; destruct (trim (fst e)); simpl; done.
  - do 2 f_equal. repeat case_decide; destruct (trim (fst e)); simpl; done.
Qed.

Lemma consumeAll_capture (input : CodexTurnInput) (ls : list (jsstring * source)) :
  cap_sessionId (consumeAll input ls)
    = latest (input_sessionId input) (reported_sessions ls) ∧
  jsonErrors (consumeAll input ls) = reported_errors ls ∧
  stderrLines (consumeAll input ls) = nonblank_lines stderr ls ∧
  stdoutLines (consumeAll input ls) = nonblank_lines stdout ls.
Proof.
  unfold Runner.consumeAll.
  destruct (foldl_consumeLine_capture ls (initial_capture input)) as (-> & -> & -> & ->).
  done.
Qed.

Lemma candidate_reply_empty (env : turn_env) :
  (len (candidate_reply env) =? 0) = true ↔ candidate_reply env = [].
Proof. rewrite Z.eqb_eq. apply JSFacts.len_nil_iff. Qed.

(** The outcome of a turn whose child closed with [code]. *)
Lemma runCodexTurn_closed (input : CodexTurnInput) (env : turn_env) (w : world)
  (code : option Z) :
  outcome env = Close code →
  (runCodexTurn input env w).2 =
    if decide (default 1 code ≠ 0 ∧ candidate_reply env = [])
    then Throws (details (consumeAll input (lines env)) (default 1 code))
    else Returns {| reply := match candidate_reply env with
                             | [] => fallback_reply
                             | _ => candidate_reply env
                             end;
                    sessionId := cap_sessionId (consumeAll input (lines env)) |}.
Proof.
  intros Hc. unfold Runner.runCodexTurn. rewrite Hc.
  pose proof (candidate_reply_empty env) as He.
  destruct (Z.eqb_spec (default 1 code) 0) as [Hz|Hnz]; simpl.
  - rewrite decide_False by tauto. done.
  - destruct (len (candidate_reply env) =? 0) eqn:E; simpl.
    + rewrite decide_True by tauto. done.
    + rewrite decide_False; [done|]. intros [_ H]. apply He in H. congruence.
Qed.

Lemma details_failure_message (input : CodexTurnInput) (ls : list (jsstring * source))
  (exitCode : Z) :
  details (consumeAll input ls) exitCode = failure_message JSON_parse ls exitCode.
Proof.
  unfold details, failure_message.
  destruct (consumeAll_capture input ls) as (_ & -> & -> & ->). done.
Qed.

(** C2. A turn whose child process closed fails exactly when the exit status
    is not zero and the trimmed contents of the final-message file are
    empty; the message of the failure is then the latest structured error
    message, else the last line of standard error that is not blank, else the
    last such line of standard output, else the generic message with the
    exit code. *)
Theorem runCodexTurn_failure_rule (input : CodexTurnInput) (env : turn_env)
  (w : world) (code : option Z) :
  outcome env = Close code →
  ((∃ m, (runCodexTurn input env w).2 = Throws m) ↔
   default 1 code ≠ 0 ∧ candidate_reply env = []) ∧
  (default 1 code ≠ 0 → candidate_reply env = [] →
   (runCodexTurn input env w).2 =
     Throws (failure_message JSON_parse (lines env) (default 1 code))).
Proof.
  intros Hc. rewrite (runCodexTurn_closed input env w code Hc).
  rewrite details_failure_message. split.
  - case_decide; split; try done; [by eexists|by intros [m ?]].
  - intros H1 H2. by rewrite decide_True.
Qed.

(** C3. A turn whose child process closed with exit status zero, or with a
    final-message file whose trimmed contents are not empty, returns a
    result; its reply is the trimmed contents, or the fallback text when
    they are empty. *)
Theorem runCodexTurn_success_rule (input : CodexTurnInput) (env : turn_env)
  (w : world) (code : option Z) :
  outcome env = Close code →
  default 1 code = 0 ∨ candidate_reply env ≠ [] →
  ∃ r, (runCodexTurn input env w).2 = Returns r ∧
       reply r = (if decide (candidate_reply env = [])
                  then fallback_reply else candidate_reply env).
Proof.
  intros Hc Hok. rewrite (runCodexTurn_closed input env w code Hc).
  rewrite decide_False by tauto. eexists. split; [done|]. simpl.
  by destruct (candidate_reply env).
Qed.

(** C4 (amended). The [sessionId] of a returned result is the session id of
    the latest session-started event of the turn; when the child reported no
    session it is the [sessionId] of the request, absent only when the
    request had none. *)
Theorem runCodexTurn_sessionId (input : CodexTurnInput) (env : turn_env)
  (w : world) (r : CodexTurnResult) :
  (runCodexTurn input env w).2 = Returns r →
  sessionId r = latest (input_sessionId input) (reported_sessions (lines env)) ∧
  (reported_sessions (lines env) = [] → sessionId r = input_sessionId input) ∧
  (input_sessionId input = None →
   ∀ sid, sessionId r = Some sid → last (reported_sessions (lines env)) = Some sid).
Proof.
  intros Hr.
  assert (sessionId r = latest (input_sessionId input) (reported_sessions (lines env)))
    as Hs.
  { revert Hr. unfold Runner.runCodexTurn.
    destruct (outcome env); [done| |done].
    destruct (consumeAll_capture input (lines env)) as (<- & _).
    destruct (_ && _); [done|]. by intros [= <-]. }
  split; [done|]. rewrite Hs. unfold latest. split.
  - by intros ->.
  - intros ->. by destruct (last _).
Qed.

(** The directory is removed in every turn whose child closes. *)
Lemma runCodexTurn_closed_removes_tempDir (input : CodexTurnInput) (env : turn_env)
  (w : world) (code : option Z) :
  outcome env = Close code → (runCodexTurn input env w).1 = w.
Proof.
  intros Hc. unfold Runner.runCodexTurn. rewrite Hc.
  assert (({[fresh w]} ∪ w) ∖ {[fresh w]} = w) as Hw.
  { pose proof (is_fresh w) as Hf. apply set_eq. intros x.
    rewrite elem_of_difference, elem_of_union, elem_of_singleton.
    split; [tauto|]. intros Hx. split; [tauto|]. by intros ->. }
  by destruct (_ && _).
Qed.

(** C5 fails on the code. When the child cannot be started the call throws
    with the directory it created still there. *)
Theorem runCodexTurn_spawn_error_keeps_tempDir (input : CodexTurnInput)
  (ls : list (jsstring * source)) (file : option jsstring) (e : jsstring) (w : world) :
  let env := {| lines := ls; outcome := SpawnError e; output_file := file |} in
  (runCodexTurn input env w).2 = Throws e ∧
  (tempDir_of w ∉ w) ∧
  (tempDir_of w ∈ (runCodexTurn input env w).1).
Proof.
  cbv zeta. unfold Runner.runCodexTurn, tempDir_of. simpl.
  split; [done|]. split; [apply is_fresh|].
  apply elem_of_union_l. by apply elem_of_singleton.
Qed.

Lemma malformed_no_event (line : jsstring) :
  malformed line = true → line_event line = None.
Proof.
  unfold Runner.malformed, Runner.line_event.
  destruct (trim line); [done|]. rewrite bool_decide_eq_true. by intros ->.
Qed.

Lemma reported_sessions_without_malformed (ls : list (jsstring * source)) :
  reported_sessions (without_malformed ls) = reported_sessions ls.
Proof.
  unfold Runner.reported_sessions, Runner.without_malformed.
  induction ls as [|e ls IH]; [done|]. rewrite filter_cons.
  case_decide as M; simpl.
  - destruct (line_event (fst e) ≫= event_session); [f_equal|]; exact IH.
  - apply not_false_is_true in M. rewrite (malformed_no_event _ M). simpl. exact IH.
Qed.

Lemma reported_errors_without_malformed (ls : list (jsstring * source)) :
  reported_errors (without_malformed ls) = reported_errors ls.
Proof.
  unfold Runner.reported_errors, Runner.without_malformed.
  induction ls as [|e ls IH]; [done|]. rewrite filter_cons.
  case_decide as M; simpl.
  - by rewrite IH.
  - apply not_false_is_true in M. rewrite (malformed_no_event _ M). simpl. exact IH.
Qed.

(** C8. Leaving out the lines that are not JSON changes neither the session
    id, nor the captured structured error messages, nor whether the turn
    returns or throws; a returned result is the same. *)
Theorem malformed_lines_ignored (input : CodexTurnInput) (env : turn_env) (w : world) :
  cap_sessionId (consumeAll input (lines (valid_lines_only JSON_parse env)))
    = cap_sessionId (consumeAll input (lines env)) ∧
  jsonErrors (consumeAll input (lines (valid_lines_only JSON_parse env)))
    = jsonErrors (consumeAll input (lines env)) ∧
  (∀ r, (runCodexTurn input (valid_lines_only JSON_parse env) w).2 = Returns r ↔
        (runCodexTurn input env w).2 = Returns r) ∧
  ((∃ m, (runCodexTurn input (valid_lines_only JSON_parse env) w).2 = Throws m) ↔
   (∃ m, (runCodexTurn input env w).2 = Throws m)).
Proof.
  assert (cap_sessionId (consumeAll input (lines (valid_lines_only JSON_parse env)))
            = cap_sessionId (consumeAll input (lines env))) as Hs.
  { destruct (consumeAll_capture input (lines env)) as (-> & _).
    destruct (consumeAll_capture input (lines (valid_lines_only JSON_parse env)))
      as (-> & _).
    simpl. by rewrite reported_sessions_without_malformed. }
  split; [exact Hs|]. split.
  { destruct (consumeAll_capture input (lines env)) as (_ & -> & _).
    destruct (consumeAll_capture input (lines (valid_lines_only JSON_parse env)))
      as (_ & -> & _).
    simpl. by rewrite reported_errors_without_malformed. }
  destruct (outcome env) as [e|code|] eqn:Hc.
  - unfold Runner.runCodexTurn. simpl. rewrite Hc. simpl. split; [done|].
    split; intros _; by eexists.
  - rewrite (runCodexTurn_closed input env w code Hc).
    rewrite (runCodexTurn_closed input (valid_lines_only JSON_parse env) w code Hc).
    change (candidate_reply (valid_lines_only JSON_parse env)) with (candidate_reply env).
    rewrite Hs. case_decide.
    + split; [done|]. split; intros _; by eexists.
    + split; [done|]. split; by intros [m ?].
  - unfold Runner.runCodexTurn. simpl. rewrite Hc. simpl. split; [done|].
    split; by intros [m ?].
Qed.

End WithParser.

(** *** The turns of the decision table *)

(** Exit code 1, an empty final-message file and ["rate limited"] as the
    last line of standard error. *)
Definition rate_limited_turn : turn_env :=
  {| lines := [(thread_started_S1, stdout); (lit "starting", stderr);
               (lit " rate limited ", stderr)];
     outcome := Close (Some 1);
     output_file := Some [] |}.

(** Exit code 1 and a final-message file with ["partial answer"]. *)
Definition partial_answer_turn : turn_env :=
  {| lines := [(lit "warming up", stdout); (error_boom, stdout)];
     outcome := Close (Some 1);
     output_file := Some (lit "partial answer" ++ [LF]) |}.

(** Exit code 0, a reply, and no line on either stream. *)
Definition silent_turn : turn_env :=
  {| lines := []; outcome := Close (Some 0); output_file := Some (lit "Hello") |}.

Definition fresh_request : CodexTurnInput :=
  {| prompt := lit "hi"; input_sessionId := None; imagePaths := [] |}.

Definition resumed_request : CodexTurnInput :=
  {| prompt := lit "hi"; input_sessionId := Some (lit "abc"); imagePaths := [] |}.

Lemma runCodexTurn_failure_rule_witness :
  ((∃ m, (runCodexTurn sample_parse fresh_request rate_limited_turn ∅).2 = Throws m) ↔
   default 1 (Some 1) ≠ 0 ∧ candidate_reply rate_limited_turn = []) ∧
  (runCodexTurn sample_parse fresh_request rate_limited_turn ∅).2
    = Throws (lit "rate limited").
Proof.
  destruct (runCodexTurn_failure_rule sample_parse fresh_request rate_limited_turn ∅
              (Some 1) eq_refl) as [H1 H2].
  split; [exact H1|]. apply H2; [discriminate|reflexivity].
Defined.

Lemma runCodexTurn_success_rule_witness :
  ∃ r, (runCodexTurn sample_parse fresh_request partial_answer_turn ∅).2 = Returns r ∧
       reply r = lit "partial answer".
Proof.
  apply (runCodexTurn_success_rule sample_parse fresh_request partial_answer_turn ∅
           (Some 1) eq_refl).
  right. vm_compute. discriminate.
Defined.

Lemma runCodexTurn_sessionId_witness :
  sessionId {| reply := lit "Hello"; sessionId := Some (lit "abc") |}
    = latest (Some (lit "abc")) [] ∧
  sessionId {| reply := fallback_reply; sessionId := Some (lit "S1") |}
    = Some (lit "S1").
Proof.
  destruct (runCodexTurn_sessionId sample_parse resumed_request silent_turn ∅
              {| reply := lit "Hello"; sessionId := Some (lit "abc") |} eq_refl)
    as (H1 & _ & _).
  destruct (runCodexTurn_sessionId sample_parse fresh_request
              {| lines := [(thread_started_S1, stdout)]; outcome := Close (Some 0);
                 output_file := None |} ∅
              {| reply := fallback_reply; sessionId := Some (lit "S1") |} eq_refl)
    as (H2 & _ & _).
  split; [exact H1|exact H2].
Defined.

(** C4 as stated fails: the child reports no session, and the result still
    has a [sessionId], the one of the request. *)
Lemma runCodexTurn_sessionId_without_report :
  reported_sessions sample_parse (lines silent_turn) = [] ∧
  (runCodexTurn sample_parse resumed_request silent_turn ∅).2
    = Returns {| reply := lit "Hello"; sessionId := Some (lit "abc") |}.
Proof. split; reflexivity. Qed.

(** A line that is not JSON is still the last line of its stream: it can
    change the message of a failed turn that has no structured error. *)
Example malformed_line_changes_fallback_message :
  let env := {| lines := [(lit "oops", stderr)]; outcome := Close (Some 1);
                output_file := None |} in
  (runCodexTurn sample_parse fresh_request env ∅).2 = Throws (lit "oops") ∧
  (runCodexTurn sample_parse fresh_request (valid_lines_only sample_parse env) ∅).2
    = Throws (lit "Codex process exited with code 1").
Proof. split; reflexivity. Qed.

End RunnerFacts.

(** ** The session registry *)

Module StoreFacts.
Import JS.

Lemma loadOnce_loaded (disk : Store.file) (st : Store.SessionStore) :
  Store.loaded (Store.loadOnce disk st).2 = true.
Proof.
  unfold Store.loadOnce. destruct (Store.loaded st) eqn:L; [done|].
  destruct disk as [| |v]; [done|done|]. by destruct (Store.Object_entries v).
Qed.

Lemma loadOnce_when_loaded (disk : Store.file) (st : Store.SessionStore) :
  Store.loaded st = true → Store.loadOnce disk st = (Store.Returns (), st).
Proof. intros L. unfold Store.loadOnce. by rewrite L. Qed.

Lemma get_when_loaded (chatId : Z) (disk : Store.file) (st : Store.SessionStore) :
  Store.loaded st = true →
  Store.get chatId disk st
    = (Store.Returns (Store.sessions st !! Store.String_of chatId), st).
Proof. intros L. unfold Store.get. by rewrite loadOnce_when_loaded. Qed.

(** Loading the entries [l] of a written document, whose keys are distinct. *)
Lemma foldl_load_entry_lookup (l : list (jsstring * jsstring))
  (m0 : gmap jsstring jsstring) (k : jsstring) :
  NoDup l.*1 →
  foldl Store.load_entry m0 (prod_map Datatypes.id JStr <$> l) !! k =
    match (list_to_map l : gmap jsstring jsstring) !! k with
    | Some sid => if 0 <? len sid then Some sid else m0 !! k
    | None => m0 !! k
    end.
Proof.
  revert m0. induction l as [|[k' v] l IH]; intros m0 Hnd; [done|].
  apply NoDup_cons in Hnd as [Hk' Hnd]. simpl. rewrite (IH _ Hnd).
  unfold Store.load_entry at 1 2. simpl.
  destruct (decide (k' = k)) as [->|Hne].
  - rewrite lookup_insert_eq.
    rewrite (not_elem_of_list_to_map_1 _ k Hk').
    destruct (0 <? len v); [apply lookup_insert_eq|done].
  - rewrite lookup_insert_ne by done.
    destruct ((list_to_map l : gmap jsstring jsstring) !! k) as [sid|];
      destruct (0 <? len v); rewrite ?lookup_insert_ne by done; done.
Qed.

(** A new store that loads a written document holds the mappings of the
    document whose session id is not empty. *)
Lemma reload_lookup (m : gmap jsstring jsstring) (k : jsstring) :
  Store.sessions (Store.loadOnce (Store.Document (Store.snapshot m)) Store.new_store).2 !! k
    = match m !! k with
      | Some sid => if 0 <? len sid then Some sid else None
      | None => None
      end.
Proof.
  unfold Store.loadOnce, Store.snapshot. simpl.
  rewrite foldl_load_entry_lookup by apply NoDup_fst_map_to_list.
  rewrite list_to_map_to_list. rewrite lookup_empty. done.
Qed.

Lemma set_returns (chatId : Z) (sessionId : jsstring) (write_ok : bool)
  (disk disk1 : Store.file) (st st1 : Store.SessionStore) :
  Store.set chatId sessionId write_ok disk st = (Store.Returns (), st1, disk1) →
  Store.loaded st1 = true ∧
  Store.sessions st1 !! Store.String_of chatId = Some sessionId ∧
  disk1 = Store.Document (Store.snapshot (Store.sessions st1)) ∧
  write_ok = true.
Proof.
  unfold Store.set. pose proof (loadOnce_loaded disk st) as L.
  destruct (Store.loadOnce disk st) as [[[]|] st0]; [|done].
  unfold Store.persistQueued. simpl in *.
  destruct (Store.writeQueue st0); [|done].
  destruct write_ok; [|done]. intros [= <- <-]. simpl.
  by rewrite lookup_insert_eq.
Qed.

Lemma clear_result (chatId : Z) (write_ok : bool) (disk : Store.file)
  (st : Store.SessionStore) :
  Store.loaded (Store.clear chatId write_ok disk st).1.2 = true ∧
  (Store.sessions (Store.clear chatId write_ok disk st).1.2 !! Store.String_of chatId = None ∨
   (Store.clear chatId write_ok disk st).1.1 = Store.Throws ∧
   Store.loaded st = false ∧ Store.sessions st = Store.sessions (Store.clear chatId write_ok disk st).1.2).
Proof.
  unfold Store.clear. pose proof (loadOnce_loaded disk st) as L.
  destruct (Store.loadOnce disk st) as [[[]|] st0] eqn:E; simpl in *.
  - unfold Store.persistQueued. simpl.
    destruct (Store.writeQueue st0); [destruct write_ok|]; simpl;
      (split; [done|]); left; apply lookup_delete_eq.
  - split; [done|]. right. split; [done|].
    revert E. unfold Store.loadOnce. destruct (Store.loaded st); [done|].
    destruct disk as [| |v]; [done| |]; [by intros [= <-]|].
    destruct (Store.Object_entries v); [done|]. by intros [= <-].
Qed.

Lemma clear_returns (chatId : Z) (write_ok : bool) (disk disk1 : Store.file)
  (st st1 : Store.SessionStore) :
  Store.clear chatId write_ok disk st = (Store.Returns (), st1, disk1) →
  Store.sessions st1 !! Store.String_of chatId = None ∧
  disk1 = Store.Document (Store.snapshot (Store.sessions st1)).
Proof.
  unfold Store.clear.
  destruct (Store.loadOnce disk st) as [[[]|] st0]; [|done].
  unfold Store.persistQueued. simpl.
  destruct (Store.writeQueue st0); [|done].
  destruct write_ok; [|done]. intros [= <- <-]. simpl.
  by rewrite lookup_delete_eq.
Qed.

Lemma new_store_consistent : Store.consistent Store.new_store.
Proof. done. Qed.

Lemma loaded_consistent (st : Store.SessionStore) :
  Store.loaded st = true → Store.consistent st.
Proof. unfold Store.consistent. congruence. Qed.

(** Every method leaves a store that has loaded, hence a consistent one. *)
Lemma methods_keep_consistent (chatId : Z) (sessionId : jsstring) (write_ok : bool)
  (disk : Store.file) (st : Store.SessionStore) :
  Store.consistent (Store.get chatId disk st).2 ∧
  Store.consistent (Store.set chatId sessionId write_ok disk st).1.2 ∧
  Store.consistent (Store.clear chatId write_ok disk st).1.2.
Proof.
  pose proof (loadOnce_loaded disk st) as L.
  unfold Store.get, Store.set, Store.clear, Store.persistQueued.
  destruct (Store.loadOnce disk st) as [[[]|] st0]; simpl in *;
    repeat split; try (by apply loaded_consistent);
    destruct (Store.writeQueue st0); try destruct write_ok;
    by apply loaded_consistent.
Qed.

(** C9 (amended). After [set(k, s)] has returned, so that the write has
    completed, [get(k)] returns [s]; a new store that loads the written
    document also returns [s] when [s] is not the empty string. After
    [clear(k)], [get(k)] returns no mapping, and a new store that loads the
    document written by a completed [clear(k)] returns none either. *)
Theorem session_registry_round_trip (k : Z) (disk : Store.file)
  (st : Store.SessionStore) :
  Store.consistent st →
  (∀ s write_ok st1 disk1,
     Store.set k s write_ok disk st = (Store.Returns (), st1, disk1) →
     Store.get k disk1 st1 = (Store.Returns (Some s), st1) ∧
     (s ≠ [] → (Store.get k disk1 Store.new_store).1 = Store.Returns (Some s))) ∧
  (∀ write_ok r st1 disk1,
     Store.clear k write_ok disk st = (r, st1, disk1) →
     Store.get k disk1 st1 = (Store.Returns None, st1) ∧
     (r = Store.Returns () →
      (Store.get k disk1 Store.new_store).1 = Store.Returns None)).
Proof.
  intros Hc. split.
  - intros s write_ok st1 disk1 Hset.
    destruct (set_returns _ _ _ _ _ _ _ Hset) as (L & Hk & -> & _). split.
    + rewrite get_when_loaded by done. by rewrite Hk.
    + intros Hne. unfold Store.get.
      pose proof (reload_lookup (Store.sessions st1) (Store.String_of k)) as R.
      rewrite Hk in R.
      assert ((0 <? len s) = true) as Hpos.
      { apply Z.ltb_lt. pose proof (JSFacts.len_nonneg s).
        pose proof (JSFacts.len_nil_iff s). destruct (decide (len s = 0)); [tauto|lia]. }
      rewrite Hpos in R. revert R. unfold Store.loadOnce, Store.snapshot. simpl.
      by intros ->.
  - intros write_ok r st1 disk1 Hcl. split.
    + destruct (clear_result k write_ok disk st) as [L H]. rewrite Hcl in L, H.
      simpl in L, H. rewrite get_when_loaded by done. f_equal. f_equal.
      destruct H as [H|(_ & Hl & Hs)]; [done|].
      rewrite <- Hs, (Hc Hl). apply lookup_empty.
    + intros ->. destruct (clear_returns _ _ _ _ _ _ Hcl) as [Hk ->].
      unfold Store.get.
      pose proof (reload_lookup (Store.sessions st1) (Store.String_of k)) as R.
      rewrite Hk in R. revert R. unfold Store.loadOnce, Store.snapshot. simpl.
      by intros ->.
Qed.

Lemma session_registry_round_trip_witness :
  (let '(_, st1, disk1) := Store.set 42 (lit "abc") true Store.Absent Store.new_store in
   Store.get 42 disk1 st1 = (Store.Returns (Some (lit "abc")), st1) ∧
   (Store.get 42 disk1 Store.new_store).1 = Store.Returns (Some (lit "abc"))) ∧
  (let '(_, st1, disk1) := Store.clear 42 true Store.Absent Store.new_store in
   Store.get 42 disk1 st1 = (Store.Returns None, st1) ∧
   (Store.get 42 disk1 Store.new_store).1 = Store.Returns None).
Proof.
  destruct (session_registry_round_trip 42 Store.Absent Store.new_store
              new_store_consistent) as [Hset Hclear].
  split.
  - destruct (Store.set 42 (lit "abc") true Store.Absent Store.new_store)
      as [[r st1] disk1] eqn:E.
    assert (r = Store.Returns ()) as -> by (by vm_compute in E; injection E as <- _ _).
    destruct (Hset _ _ _ _ E) as [H1 H2]. split; [exact H1|].
    apply H2. discriminate.
  - destruct (Store.clear 42 true Store.Absent Store.new_store)
      as [[r st1] disk1] eqn:E.
    assert (r = Store.Returns ()) as -> by (by vm_compute in E; injection E as <- _ _).
    destruct (Hclear _ _ _ _ E) as [H1 H2]. split; [exact H1|].
    apply H2. reflexivity.
Defined.

(** C9 as stated fails for the empty session id: it is stored and written,
    and a new store that loads the document drops it. *)
Lemma session_registry_empty_id_lost :
  let '(r, st1, disk1) := Store.set 42 [] true Store.Absent Store.new_store in
  r = Store.Returns () ∧
  (Store.get 42 disk1 st1).1 = Store.Returns (Some []) ∧
  (Store.get 42 disk1 Store.new_store).1 = Store.Returns None.
Proof. vm_compute. done. Qed.

End StoreFacts.

(** ** The per-conversation serializer *)

Module QueueFacts.
Import Queue.

(** *** Events of a trace *)

Lemma starts_snoc (j : nat) (tr : list event) (e : event) :
  starts j (tr ++ [e]) = (starts j tr + if decide (e = Start j) then 1 else 0)%nat.
Proof.
  unfold starts. rewrite filter_app, length_app. f_equal.
  rewrite filter_cons, filter_nil. by case_decide.
Qed.

Lemma ends_snoc (j : nat) (tr : list event) (e : event) :
  ends j (tr ++ [e]) = (ends j tr + if is_end j e then 1 else 0)%nat.
Proof.
  unfold ends. rewrite filter_app, length_app. f_equal.
  rewrite filter_cons, filter_nil. destruct (is_end j e); by case_decide.
Qed.

Lemma starts_app (j : nat) (tr1 tr2 : list event) :
  starts j (tr1 ++ tr2) = (starts j tr1 + starts j tr2)%nat.
Proof. unfold starts. by rewrite filter_app, length_app. Qed.

Lemma ends_app (j : nat) (tr1 tr2 : list event) :
  ends j (tr1 ++ tr2) = (ends j tr1 + ends j tr2)%nat.
Proof. unfold ends. by rewrite filter_app, length_app. Qed.

Lemma starts_pos_elem (j : nat) (tr : list event) :
  (0 < starts j tr)%nat → Start j ∈ tr.
Proof.
  unfold starts. intros H.
  destruct (filter (λ e, e = Start j) tr) as [|e l] eqn:F; [simpl in H; lia|].
  assert (e ∈ filter (λ e, e = Start j) tr) as He by (rewrite F; left).
  apply list_elem_of_filter in He as [-> He]. done.
Qed.

Lemma ends_pos_elem (j : nat) (tr : list event) :
  (0 < ends j tr)%nat → ∃ o, End j o ∈ tr.
Proof.
  unfold ends. intros H.
  destruct (filter (λ e, is_end j e = true) tr) as [|e l] eqn:F; [simpl in H; lia|].
  assert (e ∈ filter (λ e, is_end j e = true) tr) as He by (rewrite F; left).
  apply list_elem_of_filter in He as [Hj He].
  destruct e as [i|i o]; [done|]. simpl in Hj. apply bool_decide_eq_true in Hj as ->.
  by exists o.
Qed.

(** The ways to split a trace that has just grown by one event. *)
Lemma snoc_split (tr pre post : list event) (e x : event) :
  tr ++ [e] = pre ++ x :: post →
  (post = [] ∧ x = e ∧ pre = tr) ∨
  (∃ post', post = post' ++ [e] ∧ tr = pre ++ x :: post').
Proof.
  intros H. destruct (decide (post = [])) as [->|Hne].
  - left. apply app_inj_tail in H as [-> ->]. done.
  - right. destruct (exists_last Hne) as (post' & y & ->).
    rewrite app_comm_cons, app_assoc in H. apply app_inj_tail in H as [-> ->].
    by exists post'.
Qed.

(** *** Updates of the progress of a call *)

Lemma lookup_set_progress (j : nat) (p : status) (js : list job) (i : nat) (jb' : job) :
  set_progress j p js !! i = Some jb' →
  ∃ jb, js !! i = Some jb ∧ chatId jb' = chatId jb ∧ previous jb' = previous jb ∧
        progress jb' = (if decide (i = j) then p else progress jb).
Proof.
  unfold set_progress. rewrite list_lookup_alter.
  destruct (decide (j = i)) as [->|Hne].
  - destruct (js !! i) as [jb|]; simpl; [|done]. intros [= <-]. exists jb.
    by rewrite decide_True.
  - intros H. exists jb'. by rewrite decide_False by congruence.
Qed.

Lemma lookup_set_progress_old (j : nat) (p : status) (js : list job) (i : nat) (jb : job) :
  js !! i = Some jb →
  ∃ jb', set_progress j p js !! i = Some jb' ∧ chatId jb' = chatId jb ∧
         previous jb' = previous jb ∧
         progress jb' = (if decide (i = j) then p else progress jb).
Proof.
  intros H. unfold set_progress. rewrite list_lookup_alter.
  destruct (decide (j = i)) as [->|Hne].
  - rewrite H. simpl. eexists. split; [done|]. simpl. by rewrite decide_True.
  - exists jb. by rewrite decide_False by congruence.
Qed.

Lemma length_set_progress (j : nat) (p : status) (js : list job) :
  length (set_progress j p js) = length js.
Proof. unfold set_progress. apply length_alter. Qed.

(** *** The reactions keep the invariant of the jobs *)

Section SetProgress.
Context (j : nat) (p : status) (js : list job) (jb : job).
Context (Hj : js !! j = Some jb) (Hunsettled : progress jb ≠ Settled).

Lemma previous_ok_set_progress :
  previous_ok js → previous_ok (set_progress j p js).
Proof.
  intros Hprev k kb' Hk.
  destruct (lookup_set_progress _ _ _ _ _ Hk) as (kb & Hk0 & Hc & Hp & _).
  specialize (Hprev k kb Hk0). rewrite Hp, Hc. destruct (previous kb) as [q|].
  - destruct Hprev as (Hlt & (qb & Hq & Hqc) & Hbetween). split; [done|]. split.
    + destruct (lookup_set_progress_old j p js q qb Hq) as (qb' & Hq' & Hqc' & _).
      exists qb'. split; [done|]. congruence.
    + intros i ib' Hi Hib'.
      destruct (lookup_set_progress _ _ _ _ _ Hib') as (ib & Hi0 & -> & _).
      by eapply Hbetween.
  - intros i ib' Hi Hib' Hch.
    destruct (lookup_set_progress _ _ _ _ _ Hib') as (ib & Hi0 & Hic & _ & ->).
    assert (progress ib = Settled) as Hs by (eapply Hprev; [done..|congruence]).
    destruct (decide (i = j)) as [->|]; [congruence|done].
Qed.

(** When [previous] is settled, every earlier call of the chat is. *)
Lemma earlier_settled :
  previous_ok js → order_ok js → previous_settled js jb = true →
  ∀ i ib, (i < j)%nat → js !! i = Some ib → chatId ib = chatId jb →
          progress ib = Settled.
Proof.
  intros Hprev Hord Hps i ib Hi Hib Hch.
  specialize (Hprev j jb Hj). unfold previous_settled in Hps.
  destruct (previous jb) as [q|]; [|by eapply Hprev].
  destruct Hprev as (Hlt & (qb & Hq & Hqc) & Hbetween).
  rewrite Hq in Hps. apply bool_decide_eq_true in Hps.
  destruct (decide (i = q)) as [->|Hne]; [congruence|].
  destruct (decide (i < q)%nat) as [Hiq|Hqi].
  - eapply (Hord i q ib qb); [done..|congruence|congruence].
  - exfalso. by eapply (Hbetween i ib); [lia|..].
Qed.

Lemma order_ok_set_progress :
  (progress jb = Waiting → previous_settled js jb = true) →
  previous_ok js → order_ok js → order_ok (set_progress j p js).
Proof.
  intros Hready Hprev Hord i k ib' kb' Hik Hi Hk Hch Hstarted.
  destruct (lookup_set_progress _ _ _ _ _ Hi) as (ib & Hi0 & Hic & _ & Hip).
  destruct (lookup_set_progress _ _ _ _ _ Hk) as (kb & Hk0 & Hkc & _ & Hkp).
  rewrite Hic, Hkc in Hch.
  assert (progress ib = Settled) as Hs.
  { destruct (decide (k = j)) as [->|Hkj].
    - assert (kb = jb) as -> by congruence.
      destruct (decide (progress jb = Waiting)) as [Hw|Hnw].
      + by eapply earlier_settled; eauto.
      + by eapply (Hord i j ib jb).
    - simpl in Hkp. rewrite Hkp in Hstarted.
      by eapply (Hord i k ib kb). }
  rewrite Hip. destruct (decide (i = j)) as [->|]; [congruence|done].
Qed.

(** A reaction that does not end the chain leaves the map as it is. *)
Lemma map_ok_set_progress (m : gmap Z nat) :
  p ≠ Settled → map_ok js m → map_ok (set_progress j p js) m.
Proof.
  intros Hp Hmap c. specialize (Hmap c). destruct (m !! c) as [q|].
  - destruct Hmap as [(qb & Hq & Hqc & Hqs) Hlater]. split.
    + destruct (lookup_set_progress_old j p js q qb Hq) as (qb' & Hq' & Hqc' & _ & Hqp).
      exists qb'. split; [done|]. split; [congruence|]. rewrite Hqp.
      by destruct (decide (q = j)).
    + intros i ib' Hi Hib'.
      destruct (lookup_set_progress _ _ _ _ _ Hib') as (ib & Hi0 & -> & _).
      by eapply Hlater.
  - intros i ib' Hib' Hch.
    destruct (lookup_set_progress _ _ _ _ _ Hib') as (ib & Hi0 & Hic & _ & ->).
    assert (progress ib = Settled) as Hs by (eapply Hmap; [done|congruence]).
    destruct (decide (i = j)) as [->|]; [congruence|done].
Qed.

(** The handler of [finally] removes the entry of the chat when it still
    holds this call. *)
Lemma map_ok_settle (m : gmap Z nat) :
  p = Settled → progress jb ≠ Waiting → order_ok js → map_ok js m →
  map_ok (set_progress j p js)
         (if bool_decide (m !! chatId jb = Some j) then delete (chatId jb) m else m).
Proof.
  intros -> Hstarted Hord Hmap c.
  assert (∀ q qb, q ≠ j → js !! q = Some qb → progress qb ≠ Settled →
            ∃ qb', set_progress j Settled js !! q = Some qb' ∧ chatId qb' = chatId qb ∧
                   progress qb' ≠ Settled) as Hother.
  { intros q qb Hne Hq Hqs.
    destruct (lookup_set_progress_old j Settled js q qb Hq) as (qb' & Hq' & Hqc' & _ & Hqp).
    exists qb'. rewrite decide_False in Hqp by done. split; [done|]. split; congruence. }
  assert (∀ q, (∀ i ib, (q < i)%nat → js !! i = Some ib → chatId ib ≠ c) →
            ∀ i ib', (q < i)%nat → set_progress j Settled js !! i = Some ib' →
                     chatId ib' ≠ c) as Hlater'.
  { intros q Hlater i ib' Hi Hib'.
    destruct (lookup_set_progress _ _ _ _ _ Hib') as (ib & Hi0 & -> & _).
    by eapply Hlater. }
  assert (∀ i ib', set_progress j Settled js !! i = Some ib' →
            (∀ ib, js !! i = Some ib → chatId ib = chatId ib' → i ≠ j →
                   progress ib = Settled) →
            progress ib' = Settled) as Hsettled.
  { intros i ib' Hib' Hold.
    destruct (lookup_set_progress _ _ _ _ _ Hib') as (ib & Hi0 & Hic & _ & ->).
    destruct (decide (i = j)) as [->|]; [done|]. by eapply Hold. }
  pose proof (Hmap (chatId jb)) as Hown.
  case_bool_decide as Hm.
  - destruct (decide (c = chatId jb)) as [->|Hc].
    + rewrite lookup_delete_eq. rewrite Hm in Hown. destruct Hown as [_ Hlater].
      intros i ib' Hib' Hch. apply (Hsettled i ib' Hib'). intros ib Hi0 Hic Hij.
      destruct (decide (i < j)%nat).
      * eapply (Hord i j ib jb); [done..|congruence|done].
      * exfalso. eapply (Hlater i ib); [lia|done|congruence].
    + rewrite lookup_delete_ne by done. specialize (Hmap c).
      destruct (m !! c) as [q|].
      * destruct Hmap as [(qb & Hq & Hqc & Hqs) Hlater]. split; [|by apply Hlater'].
        destruct (Hother q qb) as (qb' & ? & ? & ?); [congruence|done..|].
        exists qb'. split; [done|]. split; [congruence|done].
      * intros i ib' Hib' Hch. apply (Hsettled i ib' Hib'). intros ib Hi0 Hic _.
        eapply Hmap; [done|congruence].
  - specialize (Hmap c). destruct (m !! c) as [q|] eqn:Hmc.
    + destruct Hmap as [(qb & Hq & Hqc & Hqs) Hlater]. split; [|by apply Hlater'].
      destruct (Hother q qb) as (qb' & ? & ? & ?); [|done..|].
      { intros ->. apply Hm. assert (qb = jb) as -> by congruence. by rewrite Hqc. }
      exists qb'. split; [done|]. split; [congruence|done].
    + intros i ib' Hib' Hch. apply (Hsettled i ib' Hib'). intros ib Hi0 Hic _.
      eapply Hmap; [done|congruence].
Qed.

End SetProgress.

(** *** The reactions keep the invariant of the trace *)

Lemma counts_ok_run (j : nat) (js : list job) (jb : job) (tr : list event) :
  js !! j = Some jb → progress jb = Waiting → counts_ok js tr →
  counts_ok (set_progress j Running js) (tr ++ [Start j]).
Proof.
  intros Hj Hw [Hc Hd]. split.
  - intros k kb' Hk.
    destruct (lookup_set_progress _ _ _ _ _ Hk) as (kb & Hk0 & _ & _ & ->).
    destruct (Hc k kb Hk0) as [Hs He]. rewrite starts_snoc, ends_snoc. simpl.
    destruct (decide (k = j)) as [->|Hne].
    + assert (kb = jb) as -> by congruence. rewrite Hw in Hs, He.
      rewrite decide_True by done. lia.
    + rewrite decide_False by congruence. rewrite Hs, He. lia.
  - intros k Hk. rewrite length_set_progress in Hk. destruct (Hd k Hk) as [Hs He].
    rewrite starts_snoc, ends_snoc. simpl. rewrite decide_False; [lia|].
    intros [= ->]. apply lookup_lt_Some in Hj. lia.
Qed.

Lemma counts_ok_finish (j : nat) (o : settlement) (js : list job) (jb : job)
  (tr : list event) :
  js !! j = Some jb → progress jb = Running → counts_ok js tr →
  counts_ok (set_progress j (TaskDone o) js) (tr ++ [End j o]).
Proof.
  intros Hj Hw [Hc Hd]. split.
  - intros k kb' Hk.
    destruct (lookup_set_progress _ _ _ _ _ Hk) as (kb & Hk0 & _ & _ & ->).
    destruct (Hc k kb Hk0) as [Hs He]. rewrite starts_snoc, ends_snoc.
    rewrite decide_False by discriminate. simpl.
    destruct (decide (k = j)) as [->|Hne].
    + assert (kb = jb) as -> by congruence. rewrite Hw in Hs, He.
      rewrite bool_decide_true by done. lia.
    + rewrite bool_decide_false by congruence. rewrite Hs, He. lia.
  - intros k Hk. rewrite length_set_progress in Hk. destruct (Hd k Hk) as [Hs He].
    rewrite starts_snoc, ends_snoc. rewrite decide_False by discriminate. simpl.
    rewrite bool_decide_false; [lia|].
    intros ->. apply lookup_lt_Some in Hj. lia.
Qed.

Lemma counts_ok_settle (j : nat) (o : settlement) (js : list job) (jb : job)
  (tr : list event) :
  js !! j = Some jb → progress jb = TaskDone o → counts_ok js tr →
  counts_ok (set_progress j Settled js) tr.
Proof.
  intros Hj Hw [Hc Hd]. split.
  - intros k kb' Hk.
    destruct (lookup_set_progress _ _ _ _ _ Hk) as (kb & Hk0 & _ & _ & ->).
    destruct (Hc k kb Hk0) as [Hs He].
    destruct (decide (k = j)) as [->|Hne]; [|done].
    assert (kb = jb) as -> by congruence. by rewrite Hw in Hs, He.
  - intros k Hk. rewrite length_set_progress in Hk. by apply Hd.
Qed.

(** The trace talks about the chats of the calls only, which no reaction
    changes. *)
Lemma trace_ok_set_progress (j : nat) (p : status) (js : list job) (tr : list event) :
  trace_ok js tr → trace_ok (set_progress j p js) tr.
Proof.
  intros [Ho Hw]. split; [|done].
  intros i k ib' kb' pre post Hik Hi Hk Hch Htr.
  destruct (lookup_set_progress _ _ _ _ _ Hi) as (ib & Hi0 & Hic & _).
  destruct (lookup_set_progress _ _ _ _ _ Hk) as (kb & Hk0 & Hkc & _).
  eapply (Ho i k ib kb); [done..|congruence|done].
Qed.

Lemma trace_ok_run (j : nat) (js : list job) (jb : job) (tr : list event) :
  js !! j = Some jb →
  (∀ i ib, (i < j)%nat → js !! i = Some ib → chatId ib = chatId jb →
           progress ib = Settled) →
  counts_ok js tr → trace_ok js tr → trace_ok js (tr ++ [Start j]).
Proof.
  intros Hj Hearlier [Hc _] [Ho Hw]. split.
  - intros i k ib kb pre post Hik Hi Hk Hch Htr.
    apply snoc_split in Htr as [(-> & [= ->] & ->)|(post' & -> & ->)].
    + assert (kb = jb) as -> by congruence.
      destruct (Hc i ib Hi) as [_ He]. rewrite (Hearlier i ib) in He by done. lia.
    + by eapply (Ho i k ib kb).
  - intros k o pre post Htr.
    apply snoc_split in Htr as [(_ & [=] & _)|(post' & -> & ->)]. by eapply Hw.
Qed.

Lemma trace_ok_finish (j : nat) (o : settlement) (js : list job) (jb : job)
  (tr : list event) :
  js !! j = Some jb → progress jb = Running →
  counts_ok js tr → trace_ok js tr → trace_ok js (tr ++ [End j o]).
Proof.
  intros Hj Hr [Hc _] [Ho Hw]. split.
  - intros i k ib kb pre post Hik Hi Hk Hch Htr.
    apply snoc_split in Htr as [(_ & [=] & _)|(post' & -> & ->)].
    by eapply (Ho i k ib kb).
  - intros k o' pre post Htr.
    apply snoc_split in Htr as [(-> & [= -> ->] & ->)|(post' & -> & ->)].
    + destruct (Hc j jb Hj) as [Hs _]. rewrite Hr in Hs. lia.
    + by eapply Hw.
Qed.

(** *** A new call keeps the invariant *)

Lemma lookup_snoc_inv {A : Type} (l : list A) (x y : A) (i : nat) :
  (l ++ [x]) !! i = Some y → l !! i = Some y ∨ (i = length l ∧ y = x).
Proof.
  rewrite lookup_app_Some. intros [H|[Hle H]]; [by left|right].
  apply list_lookup_singleton_Some in H as [H ->]. split; [lia|done].
Qed.

Lemma starts_split (j : nat) (pre post : list event) :
  (0 < starts j (pre ++ Start j :: post))%nat.
Proof.
  rewrite starts_app. unfold starts at 2. rewrite filter_cons.
  rewrite decide_True by done. simpl. lia.
Qed.

Section Enqueue.
Context (c : Z) (js : list job) (m : gmap Z nat) (tr : list event).

#[local] Abbreviation new_job :=
  {| chatId := c; previous := m !! c; progress := Waiting |}.

Lemma previous_ok_enqueue :
  map_ok js m → previous_ok js → previous_ok (js ++ [new_job]).
Proof.
  intros Hmap Hprev k kb Hk. apply lookup_snoc_inv in Hk as [Hk|[-> ->]].
  - pose proof (lookup_lt_Some _ _ _ Hk) as Hlt.
    specialize (Hprev k kb Hk). destruct (previous kb) as [q|].
    + destruct Hprev as (Hqk & (qb & Hq & Hqc) & Hb). split; [done|]. split.
      * exists qb. split; [|done]. by apply lookup_app_l_Some.
      * intros i ib Hi Hib. apply lookup_snoc_inv in Hib as [Hib|[-> ->]]; [|lia].
        by eapply Hb.
    + intros i ib Hi Hib Hch. apply lookup_snoc_inv in Hib as [Hib|[-> ->]]; [|lia].
      by eapply Hprev.
  - simpl. specialize (Hmap c). destruct (m !! c) as [q|].
    + destruct Hmap as [(qb & Hq & Hqc & Hqs) Hlater].
      split; [by eapply lookup_lt_Some|]. split.
      * exists qb. split; [|done]. by apply lookup_app_l_Some.
      * intros i ib Hi Hib. apply lookup_snoc_inv in Hib as [Hib|[-> ->]]; [|lia].
        eapply Hlater; [|done]. lia.
    + intros i ib Hi Hib Hch. apply lookup_snoc_inv in Hib as [Hib|[-> ->]]; [|lia].
      by eapply Hmap.
Qed.

Lemma order_ok_enqueue : order_ok js → order_ok (js ++ [new_job]).
Proof.
  intros Hord i k ib kb Hik Hi Hk Hch Hst.
  apply lookup_snoc_inv in Hk as [Hk|[-> ->]]; [|done].
  pose proof (lookup_lt_Some _ _ _ Hk) as Hlt.
  apply lookup_snoc_inv in Hi as [Hi|[-> ->]]; [|lia].
  by eapply (Hord i k ib kb).
Qed.

Lemma map_ok_enqueue : map_ok js m → map_ok (js ++ [new_job]) (<[c := length js]> m).
Proof.
  intros Hmap c'. destruct (decide (c = c')) as [<-|Hne].
  - rewrite lookup_insert_eq. split.
    + exists new_job. split; [|done]. by apply list_lookup_middle.
    + intros i ib Hi Hib. apply lookup_snoc_inv in Hib as [Hib|[-> ->]]; [|lia].
      apply lookup_lt_Some in Hib. lia.
  - rewrite lookup_insert_ne by done. specialize (Hmap c').
    destruct (m !! c') as [q|].
    + destruct Hmap as [(qb & Hq & Hqc & Hqs) Hlater]. split.
      * exists qb. split; [|done]. by apply lookup_app_l_Some.
      * intros i ib Hi Hib. apply lookup_snoc_inv in Hib as [Hib|[-> ->]]; [|done].
        by eapply Hlater.
    + intros i ib Hib Hch. apply lookup_snoc_inv in Hib as [Hib|[-> ->]]; [|done].
      by eapply Hmap.
Qed.

Lemma counts_ok_enqueue : counts_ok js tr → counts_ok (js ++ [new_job]) tr.
Proof.
  intros [Hc Hd]. split.
  - intros k kb Hk. apply lookup_snoc_inv in Hk as [Hk|[-> ->]]; [by apply Hc|].
    simpl. by apply Hd.
  - intros k Hk. rewrite length_app in Hk. simpl in Hk. apply Hd. lia.
Qed.

Lemma trace_ok_enqueue : counts_ok js tr → trace_ok js tr → trace_ok (js ++ [new_job]) tr.
Proof.
  intros [_ Hd] [Ho Hw]. split; [|done].
  intros i k ib kb pre post Hik Hi Hk Hch Htr.
  apply lookup_snoc_inv in Hk as [Hk|[-> ->]].
  - pose proof (lookup_lt_Some _ _ _ Hk) as Hlt.
    apply lookup_snoc_inv in Hi as [Hi|[-> ->]]; [|lia].
    by eapply (Ho i k ib kb).
  - exfalso. destruct (Hd (length js)) as [Hs _]; [done|].
    pose proof (starts_split (length js) pre post) as Hpos.
    rewrite <- Htr in Hpos. lia.
Qed.

End Enqueue.

(** *** The invariant holds in every reachable state *)

Lemma invariant_initial : invariant initial.
Proof.
  split; simpl.
  - by intros j jb H.
  - by intros i j ib jb _ H.
  - intros c. rewrite lookup_empty. by intros i ib H.
  - split; [by intros j jb H|done].
  - split.
    + by intros i j ib jb pre post _ H.
    + intros j o pre post H. by destruct pre.
Qed.

Lemma invariant_step (l : label) (s s' : state) :
  invariant s → step l s = Some s' → invariant s'.
Proof.
  intros [Hprev Hord Hmap Hcnt Htr]. destruct l as [c|j|j o|j]; simpl.
  - intros [= <-]. unfold enqueueByChat. split; simpl.
    + by apply previous_ok_enqueue.
    + by apply order_ok_enqueue.
    + by apply map_ok_enqueue.
    + by apply counts_ok_enqueue.
    + by apply trace_ok_enqueue.
  - destruct (jobs s !! j) as [jb|] eqn:Hj; [simpl|done].
    destruct (bool_decide (progress jb = Waiting)) eqn:Hw; [|done].
    destruct (previous_settled (jobs s) jb) eqn:Hps; [simpl|done].
    apply bool_decide_eq_true in Hw. intros [= <-].
    assert (progress jb ≠ Settled) as Hns by congruence.
    split; simpl.
    + by eapply previous_ok_set_progress.
    + by eapply order_ok_set_progress.
    + by eapply map_ok_set_progress.
    + by eapply counts_ok_run.
    + apply trace_ok_set_progress. eapply trace_ok_run; [done| |done..].
      by eapply earlier_settled.
  - destruct (jobs s !! j) as [jb|] eqn:Hj; [simpl|done].
    destruct (bool_decide (progress jb = Running)) eqn:Hw; [|done].
    apply bool_decide_eq_true in Hw. intros [= <-].
    assert (progress jb ≠ Settled) as Hns by congruence.
    split; simpl.
    + by eapply previous_ok_set_progress.
    + eapply order_ok_set_progress; [done..|congruence|done|done].
    + by eapply map_ok_set_progress.
    + by eapply counts_ok_finish.
    + apply trace_ok_set_progress. by eapply trace_ok_finish.
  - destruct (jobs s !! j) as [jb|] eqn:Hj; [simpl|done].
    destruct (progress jb) as [| |o|] eqn:Hw; try done. intros [= <-].
    assert (progress jb ≠ Settled) as Hns by congruence.
    split; simpl.
    + by eapply previous_ok_set_progress.
    + eapply order_ok_set_progress; [done..|congruence|done|done].
    + eapply map_ok_settle; [done..|congruence|done|done].
    + by eapply counts_ok_settle.
    + by apply trace_ok_set_progress.
Qed.

Lemma invariant_run (ls : list label) (s s' : state) :
  invariant s → run ls s = Some s' → invariant s'.
Proof.
  revert s. induction ls as [|l ls IH]; intros s Hinv; simpl.
  - by intros [= <-].
  - destruct (step l s) as [s1|] eqn:Hstep; [simpl|done].
    apply IH. by eapply invariant_step.
Qed.

Lemma invariant_reachable (s : state) : reachable s → invariant s.
Proof. intros [ls Hrun]. eapply invariant_run; [apply invariant_initial|done]. Qed.

(** *** The queue drains *)

(** As long as the chain of some call has not run to its end, a reaction
    can run: the first unsettled call of a chain of [previous] links. *)
Lemma reaction_enabled (s : state) (j : nat) (jb : job) :
  previous_ok (jobs s) → jobs s !! j = Some jb → progress jb ≠ Settled →
  ∃ l s', internal l = true ∧ step l s = Some s'.
Proof.
  intros Hprev. revert jb. induction (lt_wf j) as [j _ IH]. intros jb Hj Hns.
  destruct (progress jb) as [| |o|] eqn:Hp; [| | |done].
  - destruct (previous_settled (jobs s) jb) eqn:Hps.
    + exists (Run j). eexists. split; [done|]. simpl. rewrite Hj. simpl.
      rewrite bool_decide_true by done. rewrite Hps. done.
    + specialize (Hprev j jb Hj). unfold previous_settled in Hps.
      destruct (previous jb) as [q|]; [|done].
      destruct Hprev as (Hlt & (qb & Hq & _) & _). rewrite Hq in Hps.
      apply bool_decide_eq_false in Hps. by eapply (IH q).
  - exists (Finish j Fulfilled). eexists. split; [done|]. simpl. rewrite Hj. simpl.
    by rewrite bool_decide_true.
  - exists (Settle j). eexists. split; [done|]. simpl. rewrite Hj. simpl.
    by rewrite Hp.
Qed.

Lemma work_set_progress (j : nat) (p : status) (js : list job) (jb : job) :
  js !! j = Some jb →
  (sum_list (work_left ∘ progress <$> set_progress j p js) + work_left (progress jb)
   = sum_list (work_left ∘ progress <$> js) + work_left p)%nat.
Proof.
  revert j. induction js as [|x js IH]; intros [|j] Hj; try done; simpl in *.
  - injection Hj as ->. lia.
  - specialize (IH j Hj).
    change (list_fmap job nat (work_left ∘ progress) (set_progress j p js))
      with (work_left ∘ progress <$> set_progress j p js).
    change (list_fmap job nat (work_left ∘ progress) js)
      with (work_left ∘ progress <$> js).
    lia.
Qed.

(** Every reaction takes one unit of the work that is left. *)
Lemma reaction_works (l : label) (s s' : state) :
  internal l = true → step l s = Some s' →
  (pending_work s' < pending_work s)%nat.
Proof.
  unfold pending_work. destruct l as [c|j|j o|j]; [done|..]; intros _; simpl;
    destruct (jobs s !! j) as [jb|] eqn:Hj; try done; simpl.
  - destruct (bool_decide (progress jb = Waiting)) eqn:Hw; [|done].
    destruct (previous_settled (jobs s) jb); [simpl|done].
    apply bool_decide_eq_true in Hw. intros [= <-]. simpl.
    pose proof (work_set_progress j Running _ _ Hj) as H. rewrite Hw in H.
    simpl in H. lia.
  - destruct (bool_decide (progress jb = Running)) eqn:Hw; [|done].
    apply bool_decide_eq_true in Hw. intros [= <-]. simpl.
    pose proof (work_set_progress j (TaskDone o) _ _ Hj) as H. rewrite Hw in H.
    simpl in H. lia.
  - destruct (progress jb) as [| |o|] eqn:Hw; try done. intros [= <-]. simpl.
    pose proof (work_set_progress j Settled _ _ Hj) as H. rewrite Hw in H.
    simpl in H. lia.
Qed.

Lemma quiescent_settled (s : state) :
  previous_ok (jobs s) → quiescent s →
  ∀ j jb, jobs s !! j = Some jb → progress jb = Settled.
Proof.
  intros Hprev Hq j jb Hj.
  destruct (decide (progress jb = Settled)) as [|Hns]; [done|].
  destruct (reaction_enabled s j jb Hprev Hj Hns) as (l & s' & Hl & Hstep).
  rewrite (Hq l Hl) in Hstep. done.
Qed.

Lemma settled_quiescent (s : state) :
  Forall (λ jb, progress jb = Settled) (jobs s) → quiescent s.
Proof.
  intros Hall l Hl. rewrite Forall_lookup in Hall.
  destruct l as [c|j|j o|j]; [done|..]; simpl;
    destruct (jobs s !! j) as [jb|] eqn:Hj; try done; simpl;
    rewrite (Hall j jb Hj); done.
Qed.

(** *** The calls of a schedule *)

Lemma chats_set_progress (j : nat) (p : status) (js : list job) :
  chatId <$> set_progress j p js = chatId <$> js.
Proof.
  revert j. induction js as [|x js IH]; intros [|j]; try done; simpl.
  f_equal. apply IH.
Qed.

Lemma chats_step (l : label) (s s' : state) :
  step l s = Some s' →
  chatId <$> jobs s' = (chatId <$> jobs s) ++ submissions [l].
Proof.
  destruct l as [c|j|j o|j]; simpl.
  - intros [= <-]. unfold enqueueByChat. simpl. by rewrite fmap_app.
  - destruct (jobs s !! j) as [jb|]; [simpl|done].
    destruct (_ && _); [|done]. intros [= <-]. simpl.
    by rewrite chats_set_progress, app_nil_r.
  - destruct (jobs s !! j) as [jb|]; [simpl|done].
    destruct (bool_decide _); [|done]. intros [= <-]. simpl.
    by rewrite chats_set_progress, app_nil_r.
  - destruct (jobs s !! j) as [jb|]; [simpl|done].
    destruct (progress jb); try done. intros [= <-]. simpl.
    by rewrite chats_set_progress, app_nil_r.
Qed.

Lemma chats_run (ls : list label) (s s' : state) :
  run ls s = Some s' →
  chatId <$> jobs s' = (chatId <$> jobs s) ++ submissions ls.
Proof.
  revert s. induction ls as [|l ls IH]; intros s; simpl.
  - intros [= <-]. by rewrite app_nil_r.
  - destruct (step l s) as [s1|] eqn:Hstep; [simpl|done]. intros Hrun.
    rewrite (IH _ Hrun), (chats_step _ _ _ Hstep), <- app_assoc. f_equal.
    unfold submissions. simpl. by destruct l.
Qed.

(** C1 (amended). In every state that a schedule of calls of
    [enqueueByChat] and of reactions of the event loop reaches: the calls are
    the submissions, in their order; no task is called twice and none ends
    twice; of two calls for the same chat, the task of the earlier one has
    been called and has ended, fulfilled or rejected, before the task of the
    later one is called; a task ends after its call; once no reaction is left
    to run, every submitted task has been called exactly once and has ended;
    and as long as the chain of some call is not at its end, a reaction can
    run and takes from the finite work that is left. For a task that has
    been called this reaction is the settlement of its promise: the queue
    waits for it without a timer, and a task that never settles keeps its
    chat waiting. How often a task calls [runCodexTurn] is no matter of the
    queue but of the task. *)
Theorem enqueueByChat_serializes (ls : list label) (s : state) :
  run ls initial = Some s →
  chatId <$> jobs s = submissions ls ∧
  (∀ j, (starts j (trace s) ≤ 1)%nat ∧ (ends j (trace s) ≤ 1)%nat) ∧
  (∀ i j ib jb pre post,
     (i < j)%nat → jobs s !! i = Some ib → jobs s !! j = Some jb →
     chatId ib = chatId jb → trace s = pre ++ Start j :: post →
     Start i ∈ pre ∧ ∃ o, End i o ∈ pre) ∧
  (∀ j o pre post, trace s = pre ++ End j o :: post → Start j ∈ pre) ∧
  (quiescent s →
   ∀ j, (j < length (jobs s))%nat →
        starts j (trace s) = 1%nat ∧ ends j (trace s) = 1%nat) ∧
  (∀ j jb, jobs s !! j = Some jb → progress jb ≠ Settled →
     ∃ l s', internal l = true ∧ step l s = Some s' ∧
             (pending_work s' < pending_work s)%nat).
Proof.
  intros Hrun.
  destruct (invariant_run ls initial s invariant_initial Hrun)
    as [Hprev Hord Hmap [Hc Hd] [Ho Hw]].
  split; [exact (chats_run ls initial s Hrun)|]. split; [|split; [|split; [|split]]].
  - intros j. destruct (jobs s !! j) as [jb|] eqn:Hj.
    + destruct (Hc j jb Hj) as [-> ->]. destruct (progress jb); lia.
    + apply lookup_ge_None in Hj. destruct (Hd j Hj) as [-> ->]. lia.
  - intros i j ib jb pre post Hij Hi Hj Hch Htr.
    destruct (ends_pos_elem i pre (Ho i j ib jb pre post Hij Hi Hj Hch Htr)) as [o Ho'].
    split; [|by exists o].
    apply list_elem_of_split in Ho' as (a & b & ->).
    rewrite <- app_assoc in Htr. simpl in Htr.
    apply elem_of_app. left. apply starts_pos_elem. by eapply Hw.
  - intros j o pre post Htr. apply starts_pos_elem. by eapply Hw.
  - intros Hq j Hj. apply lookup_lt_is_Some in Hj as [jb Hj].
    destruct (Hc j jb Hj) as [-> ->].
    by rewrite (quiescent_settled s Hprev Hq j jb Hj).
  - intros j jb Hj Hns.
    destruct (reaction_enabled s j jb Hprev Hj Hns) as (l & s' & Hl & Hstep).
    exists l, s'. split; [done|]. split; [done|]. by eapply reaction_works.
Qed.

Lemma enqueueByChat_serializes_witness :
  chatId <$> jobs sample_state = [1; 1; 2] ∧
  trace sample_state
    = [Start 0; Start 2; End 0 Rejected; Start 1; End 2 Fulfilled; End 1 Fulfilled] ∧
  (Start 0 ∈ [Start 0; Start 2; End 0 Rejected] ∧
   ∃ o, End 0 o ∈ [Start 0; Start 2; End 0 Rejected]) ∧
  (starts 1 (trace sample_state) = 1%nat ∧ ends 1 (trace sample_state) = 1%nat).
Proof.
  destruct (enqueueByChat_serializes sample_schedule sample_state eq_refl)
    as (H1 & _ & H3 & _ & H5 & _).
  split; [exact H1|]. split; [reflexivity|]. split.
  - eapply (H3 0%nat 1%nat _ _ [Start 0; Start 2; End 0 Rejected]
              [End 2 Fulfilled; End 1 Fulfilled]); [lia|reflexivity..].
  - apply H5; [|simpl; lia]. apply settled_quiescent. repeat constructor.
Defined.

End QueueFacts.

(** ** More on the string operations and the reply chunker *)

Module ChunkerMore.
Import JS Chunker JSFacts ChunkerFacts.

Lemma trimStart_split (s : jsstring) :
  ∃ lead, blank lead ∧ s = lead ++ trimStart s.
Proof.
  induction s as [|c r (lead & Hb & Hr)]; [exists []; split; [constructor|done]|].
  simpl. destruct (is_white_space c) eqn:E.
  - exists (c :: lead). split; [by constructor|]. simpl. by f_equal.
  - exists []. split; [constructor|done].
Qed.

Lemma blank_rev (s : jsstring) : blank s → blank (rev s).
Proof.
  unfold blank. rewrite !Forall_forall. intros H c Hc. apply H.
  apply list_elem_of_In. apply in_rev. by apply list_elem_of_In.
Qed.

Lemma trimEnd_split (s : jsstring) :
  ∃ trail, blank trail ∧ s = trimEnd s ++ trail.
Proof.
  unfold trimEnd. destruct (trimStart_split (rev s)) as (lead & Hb & Hr).
  exists (rev lead). split; [by apply blank_rev|].
  rewrite <- rev_app_distr, <- Hr. by rewrite rev_involutive.
Qed.

Lemma trim_split (s : jsstring) :
  ∃ lead trail, blank lead ∧ blank trail ∧ s = lead ++ trim s ++ trail.
Proof.
  destruct (trimStart_split s) as (lead & Hl & Hs).
  destruct (trimEnd_split (trimStart s)) as (trail & Ht & He).
  exists lead, trail. split; [done|]. split; [done|]. unfold trim.
  by rewrite <- He.
Qed.

Lemma trimEnd_idemp (s : jsstring) : trimEnd (trimEnd s) = trimEnd s.
Proof. unfold trimEnd. by rewrite rev_involutive, trimStart_idemp. Qed.

(** Cutting white space off the end leaves the start as it is. *)
Lemma trimEnd_no_leading_space (s : jsstring) :
  no_leading_space s → no_leading_space (trimEnd s).
Proof.
  unfold no_leading_space. intros Hs.
  destruct (trimEnd_split s) as (trail & _ & He).
  destruct (trimEnd s) as [|c r] eqn:T; [done|].
  destruct s as [|c' r']; [by destruct r|]. injection He as -> _.
  simpl. by rewrite (trimStart_fixed_cons c r').
Qed.

Lemma trim_trimmed (s : jsstring) :
  no_leading_space (trim s) ∧ no_trailing_space (trim s).
Proof.
  unfold trim. split.
  - apply trimEnd_no_leading_space, trimStart_idemp.
  - apply trimEnd_idemp.
Qed.

Lemma blank_app (a b : jsstring) : blank a → blank b → blank (a ++ b).
Proof. unfold blank. intros. by apply Forall_app. Qed.

(** What one iteration takes off the text: blank, segment, blank. *)
Lemma body_split (limit : Z) (st : loop_state) :
  0 ≤ limit → limit < len (remaining st) →
  ∃ lead seg gap,
    chunks (loop_body limit st) = chunks st ++ [seg] ∧
    no_leading_space seg ∧ no_trailing_space seg ∧
    blank lead ∧ blank gap ∧
    remaining st = lead ++ seg ++ gap ++ remaining (loop_body limit st).
Proof.
  intros Hmax Hlen. pose proof (cut_point_nonneg limit (remaining st) Hmax) as Hc.
  destruct (trim_split (take (Z.to_nat (cut_point limit (remaining st))) (remaining st)))
    as (lead & trail & Hl & Ht & Htake).
  destruct (trimStart_split (drop (Z.to_nat (cut_point limit (remaining st))) (remaining st)))
    as (lead2 & Hl2 & Hdrop).
  exists lead, (trim (take (Z.to_nat (cut_point limit (remaining st))) (remaining st))),
    (trail ++ lead2).
  simpl. rewrite slice_prefix, slice_suffix by lia.
  split; [done|]. destruct (trim_trimmed
    (take (Z.to_nat (cut_point limit (remaining st))) (remaining st))) as [H1 H2].
  split; [done|]. split; [done|]. split; [done|]. split; [by apply blank_app|].
  rewrite <- (take_drop (Z.to_nat (cut_point limit (remaining st))) (remaining st)) at 1.
  rewrite Htake at 1. rewrite Hdrop at 1. by rewrite <- !app_assoc.
Qed.

Lemma loop_weaves (limit : Z) (fuel : nat) (text : jsstring) (st' : loop_state) (n : nat) :
  while_loop fuel (loop_guard limit) (loop_body limit)
    {| remaining := text; chunks := [] |} = Some (st', n) →
  ∃ gaps pending,
    length gaps = length (chunks st') ∧ Forall blank gaps ∧ blank pending ∧
    text = concat (zip_with app gaps (chunks st')) ++ pending ++ remaining st'.
Proof.
  intros W. destruct (decide (limit < 0)) as [Hneg|Hnn].
  { by rewrite negative_max_diverges in W. }
  eapply (while_loop_invariant _ _ (λ s, ∃ gaps pending,
            length gaps = length (chunks s) ∧ Forall blank gaps ∧ blank pending ∧
            text = concat (zip_with app gaps (chunks s)) ++ pending ++ remaining s));
    [| |exact W].
  - intros s G (gaps & pending & Hlen & Hg & Hp & Htext). apply guard_true in G.
    destruct (body_split limit s) as (lead & seg & gap & -> & _ & _ & Hl & Hgap & Hrem);
      [lia|done|].
    remember (remaining (loop_body limit s)) as rest eqn:Er. clear Er.
    exists (gaps ++ [pending ++ lead]), gap.
    split; [rewrite !length_app; simpl; lia|].
    split; [apply Forall_app; split; [done|]; apply Forall_singleton; by apply blank_app|].
    split; [done|].
    rewrite zip_with_app by done. rewrite concat_app. simpl.
    rewrite Htext, Hrem. by rewrite !app_nil_r, <- !app_assoc.
  - exists [], []. simpl. repeat split; constructor.
Qed.

(** X1. The text is kept: it is the returned segments in their order, with
    nothing but white space before, between and after them. *)
Theorem splitForTelegram_keeps_text (text : jsstring) (limit : Z) (segs : list jsstring) :
  splitForTelegram text limit = Some segs → weaves text segs.
Proof.
  unfold splitForTelegram, splitForTelegram_run.
  destruct (len text <=? limit).
  - intros [= <-]. exists [[]], []. simpl. rewrite !app_nil_r.
    repeat split; repeat constructor.
  - destruct (while_loop _ _ _ _) as [[st n]|] eqn:W; [|done]. simpl.
    destruct (loop_weaves limit _ text st n W) as (gaps & pending & Hlen & Hg & Hp & Htext).
    destruct (Z.ltb_spec 0 (len (remaining st))) as [Hpos|Hz]; intros [= <-].
    + exists (gaps ++ [pending]), []. split; [rewrite !length_app; simpl; lia|].
      split; [apply Forall_app; split; [done|by constructor]|]. split; [constructor|].
      rewrite zip_with_app by done. rewrite concat_app. simpl.
      by rewrite Htext, ?app_nil_r, <- ?app_assoc.
    + exists gaps, pending. split; [done|]. split; [done|]. split; [done|].
      assert (remaining st = []) as Hnil.
      { apply len_nil_iff. pose proof (len_nonneg (remaining st)). lia. }
      by rewrite Htext, Hnil, app_nil_r.
Qed.

Lemma splitForTelegram_keeps_text_witness :
  weaves (lit "hello" ++ [LF] ++ lit "world and more")
         [lit "hello"; lit "world an"; lit "d more"].
Proof.
  apply (splitForTelegram_keeps_text (lit "hello" ++ [LF] ++ lit "world and more") 8).
  reflexivity.
Defined.

Lemma loop_segments_trimmed (limit : Z) (fuel : nat) (text : jsstring)
  (st' : loop_state) (n : nat) :
  limit < len text →
  while_loop fuel (loop_guard limit) (loop_body limit)
    {| remaining := text; chunks := [] |} = Some (st', n) →
  Forall (λ seg, no_leading_space seg ∧ no_trailing_space seg) (chunks st') ∧
  no_leading_space (remaining st').
Proof.
  intros Hlong W. destruct (decide (limit < 0)) as [Hneg|Hnn].
  { by rewrite negative_max_diverges in W. }
  set (init := {| remaining := text; chunks := [] |}) in *.
  destruct (while_loop_invariant (loop_guard limit) (loop_body limit)
              (λ s, Forall (λ seg, no_leading_space seg ∧ no_trailing_space seg) (chunks s) ∧
                    (s = init ∨ no_leading_space (remaining s)))
              ) with (fuel := fuel) (s := init) (s' := st') (n := n)
    as [[Hc Hr] Hg]; [| |exact W|].
  - intros s G [Hc _]. apply guard_true in G.
    destruct (body_split limit s) as (lead & seg & gap & -> & H1 & H2 & _); [lia|done|].
    split; [apply Forall_app; split; [done|by constructor]|].
    right. simpl. apply trimStart_idemp.
  - split; [constructor|by left].
  - split; [done|]. destruct Hr as [->|Hr]; [|done].
    apply guard_false in Hg. simpl in Hg. lia.
Qed.

(** X2. When the text is longer than [max], no returned segment starts with
    white space, and no segment but the last ends with white space. *)
Theorem splitForTelegram_segments_trimmed (text : jsstring) (limit : Z)
  (segs : list jsstring) :
  limit < len text → splitForTelegram text limit = Some segs →
  Forall no_leading_space segs ∧
  (∀ i seg, (S i < length segs)%nat → segs !! i = Some seg → no_trailing_space seg).
Proof.
  intros Hlong. unfold splitForTelegram, splitForTelegram_run.
  destruct (Z.leb_spec (len text) limit) as [|_]; [lia|].
  destruct (while_loop _ _ _ _) as [[st n]|] eqn:W; [|done]. simpl.
  destruct (loop_segments_trimmed limit _ text st n Hlong W) as [Hc Hr].
  assert (Forall no_leading_space (chunks st)) as Hlead.
  { eapply Forall_impl; [exact Hc|]. by intros seg [? ?]. }
  assert (∀ i seg, chunks st !! i = Some seg → no_trailing_space seg) as Htrail.
  { intros i seg Hi. rewrite Forall_lookup in Hc. by destruct (Hc i seg Hi). }
  destruct (0 <? len (remaining st)); intros [= <-].
  - split; [apply Forall_app; split; [done|by constructor]|].
    intros i seg Hi Hseg. rewrite length_app in Hi. simpl in Hi.
    rewrite lookup_app_l in Hseg by lia. by eapply Htrail.
  - split; [done|]. intros i seg _ Hseg. by eapply Htrail.
Qed.

Lemma splitForTelegram_segments_trimmed_witness :
  Forall no_leading_space [lit "hello"; lit "world an"; lit "d more  "] ∧
  no_trailing_space (lit "world an").
Proof.
  destruct (splitForTelegram_segments_trimmed
              (lit "hello  " ++ [LF] ++ lit " world and more  ") 8
              [lit "hello"; lit "world an"; lit "d more  "]) as [H1 H2];
    [vm_compute; reflexivity|reflexivity|].
  split; [exact H1|]. apply (H2 1%nat); [simpl; lia|reflexivity].
Defined.

(** [lastIndexOf] finds an occurrence, and the last one at or before the
    position where the search starts. *)
Lemma search_backward_hit (s : jsstring) (c : N) (i : nat) :
  0 ≤ search_backward s c i → s !! Z.to_nat (search_backward s c i) = Some c.
Proof.
  induction i as [|i IH]; simpl; case_decide as H; try lia.
  - intros _. by rewrite Nat2Z.id.
  - intros _. by rewrite Nat2Z.id.
  - exact IH.
Qed.

Lemma search_backward_last (s : jsstring) (c : N) (i k : nat) :
  (k ≤ i)%nat → s !! k = Some c → Z.of_nat k ≤ search_backward s c i.
Proof.
  induction i as [|i IH]; simpl; intros Hk Hc; case_decide as H.
  - lia.
  - assert (k = O) as -> by lia. done.
  - lia.
  - destruct (decide (k = S i)) as [->|Hne]; [done|]. apply IH; [lia|done].
Qed.

Lemma lastIndexOf_in_range (text : jsstring) (limit : Z) :
  0 ≤ limit < len text →
  lastIndexOf text LF limit = search_backward text LF (Z.to_nat limit).
Proof.
  intros H. unfold lastIndexOf. destruct (Z.eqb_spec (len text) 0); [lia|].
  f_equal. lia.
Qed.

(** Where one iteration cuts: at the last line feed of the window, and at
    [max] when the window has none. *)
Lemma cut_point_window (text : jsstring) (limit : Z) :
  1 ≤ limit → limit < len text →
  ((∀ i, ¬ newline_in_window text limit i) → cut_point limit text = limit) ∧
  (∀ i, newline_in_window text limit i →
        newline_in_window text limit (Z.to_nat (cut_point limit text)) ∧
        Z.of_nat i ≤ cut_point limit text).
Proof.
  intros Hmax Hlen. unfold cut_point, below_sixty_percent. cbv zeta.
  rewrite lastIndexOf_in_range by lia.
  pose proof (search_backward_bounds text LF (Z.to_nat limit)) as Hb.
  pose proof (search_backward_hit text LF (Z.to_nat limit)) as Hhit.
  destruct (Z.ltb_spec (5 * search_backward text LF (Z.to_nat limit)) (3 * limit))
    as [Hlow|Hhigh]; split.
  - done.
  - intros i (Hi & Hi60 & Hile).
    pose proof (search_backward_last text LF (Z.to_nat limit) i ltac:(lia) Hi). lia.
  - intros Hnone. exfalso.
    apply (Hnone (Z.to_nat (search_backward text LF (Z.to_nat limit)))).
    split; [apply Hhit; lia|]. lia.
  - intros i (Hi & Hi60 & Hile).
    pose proof (search_backward_last text LF (Z.to_nat limit) i ltac:(lia) Hi).
    split; [|done]. split; [apply Hhit; lia|]. lia.
Qed.

Lemma loop_chunks_grow (limit : Z) (fuel : nat) (st st' : loop_state) (n : nat) :
  while_loop fuel (loop_guard limit) (loop_body limit) st = Some (st', n) →
  ∃ more, chunks st' = chunks st ++ more.
Proof.
  intros W.
  eapply (while_loop_invariant _ _ (λ s, ∃ more, chunks s = chunks st ++ more));
    [| |exact W].
  - intros s _ [more Hs]. exists (more ++ [trim (slice (remaining s) 0
                                      (cut_point limit (remaining s)))]).
    simpl. by rewrite Hs, <- app_assoc.
  - exists []. by rewrite app_nil_r.
Qed.

(** X3. For a text longer than [max], the first segment is the trimmed
    text before the first cut; the cut is at the last line feed that lies
    between 60% of [max] and [max], and exactly at [max] when there is none. *)
Theorem splitForTelegram_first_cut (text : jsstring) (limit : Z) :
  1 ≤ limit → limit < len text →
  ∃ cut rest,
    splitForTelegram text limit = Some (trim (take cut text) :: rest) ∧
    ((∀ i, ¬ newline_in_window text limit i) → Z.of_nat cut = limit) ∧
    (∀ i, newline_in_window text limit i →
          newline_in_window text limit cut ∧ (i ≤ cut)%nat).
Proof.
  intros Hmax Hlen.
  destruct (cut_point_window text limit Hmax Hlen) as [Hnone Hsome].
  pose proof (cut_point_nonneg limit text ltac:(lia)) as Hc.
  exists (Z.to_nat (cut_point limit text)).
  destruct (run_terminates text limit Hmax) as [[segs n] R].
  unfold splitForTelegram. rewrite R. simpl. revert R.
  unfold splitForTelegram_run. destruct (Z.leb_spec (len text) limit); [lia|].
  simpl. rewrite (proj2 (guard_true limit {| remaining := text; chunks := [] |}))
    by done.
  destruct (while_loop _ _ _ _) as [[st k]|] eqn:W; [|done].
  destruct (loop_chunks_grow _ _ _ _ _ W) as [more Hmore]. simpl in Hmore.
  rewrite slice_prefix in Hmore by lia.
  intros [= <- _].
  exists (if 0 <? len (remaining st) then more ++ [remaining st] else more).
  split; [|split].
  - rewrite Hmore. by destruct (0 <? len (remaining st)).
  - intros Hno. rewrite Z2Nat.id by lia. exact (Hnone Hno).
  - intros i Hi. destruct (Hsome i Hi) as [H1 H2]. split; [done|lia].
Qed.

Lemma splitForTelegram_first_cut_witness :
  ∃ cut rest,
    splitForTelegram (lit "hello" ++ [LF] ++ lit "world and more") 8
      = Some (trim (take cut (lit "hello" ++ [LF] ++ lit "world and more")) :: rest) ∧
    newline_in_window (lit "hello" ++ [LF] ++ lit "world and more") 8 cut ∧
    (5 ≤ cut)%nat.
Proof.
  destruct (splitForTelegram_first_cut (lit "hello" ++ [LF] ++ lit "world and more") 8)
    as (cut & rest & H1 & _ & H3); [lia|vm_compute; reflexivity|].
  exists cut, rest. split; [exact H1|]. apply (H3 5%nat).
  split; [reflexivity|]. lia.
Defined.

End ChunkerMore.

(** ** The numeric settings *)

Module ConfigFacts.
Import JS Config.

Lemma floor_in_range (q : Q) (lo hi : Z) :
  lt_int q lo = false → gt_int q hi = false → lo ≤ Qfloor q ≤ hi.
Proof.
  unfold lt_int, gt_int. rewrite !negb_false_iff, !Qle_bool_iff. intros Hlo Hhi.
  apply Qfloor_resp_le in Hlo, Hhi. rewrite Qfloor_Z in Hlo, Hhi. lia.
Qed.

(** X4. Whatever [MAX_REPLY_CHARS] holds, also nothing, a text that is no
    number, a fraction or a value out of range, [parseMaxReplyChars] gives an
    integer between 200 and 4096. *)
Theorem parseMaxReplyChars_range (Number_of_string : jsstring → number)
  (raw : option jsstring) :
  200 ≤ parseMaxReplyChars Number_of_string raw ≤ 4096.
Proof.
  unfold parseMaxReplyChars. destruct (Number Number_of_string raw) as [|b|q]; try lia.
  destruct (lt_int q 200) eqn:Hlo; [simpl; lia|].
  destruct (gt_int q 4096) eqn:Hhi; [simpl; lia|]. simpl.
  by apply floor_in_range.
Qed.

(** X5. [parseBoundedInt] gives an integer between [min] and [max] whenever
    the fallback lies between them, whatever the raw text. *)
Theorem parseBoundedInt_range (Number_of_string : jsstring → number)
  (raw : option jsstring) (fallback lo hi : Z) :
  lo ≤ fallback ≤ hi →
  lo ≤ parseBoundedInt Number_of_string raw fallback lo hi ≤ hi.
Proof.
  intros Hf. unfold parseBoundedInt.
  destruct (Number Number_of_string raw) as [|b|q]; try lia.
  destruct (lt_int q lo) eqn:Hlo; [simpl; lia|].
  destruct (gt_int q hi) eqn:Hhi; [simpl; lia|]. simpl.
  by apply floor_in_range.
Qed.

Lemma parseBoundedInt_range_witness :
  1 ≤ parseBoundedInt (λ _, Finite (7 # 2)) (Some (lit "3.5")) 8 1 40 ≤ 40.
Proof. apply (parseBoundedInt_range (λ _, Finite (7 # 2))). lia. Defined.

End ConfigFacts.

(** ** More on the session registry *)

Module StoreMore.
Import JS StoreFacts.

Lemma lit_inj (a b : string) : lit a = lit b → a = b.
Proof.
  revert b. induction a as [|x a IH]; intros [|y b]; simpl; try done.
  intros [= Hxy Hab]. f_equal; [|by apply IH].
  rewrite <- (ascii_N_embedding x), <- (ascii_N_embedding y). by rewrite Hxy.
Qed.

(** Distinct chats have distinct keys. *)
Lemma String_of_inj (k k' : Z) : Store.String_of k = Store.String_of k' → k = k'.
Proof. unfold Store.String_of. intros H. apply lit_inj in H. by apply (inj pretty). Qed.

Lemma set_sessions (chatId : Z) (sessionId : jsstring) (write_ok : bool)
  (disk : Store.file) (st : Store.SessionStore) :
  Store.sessions (Store.set chatId sessionId write_ok disk st).1.2 =
    match (Store.loadOnce disk st).1 with
    | Store.Returns _ =>
        <[Store.String_of chatId := sessionId]> (Store.sessions (Store.loadOnce disk st).2)
    | Store.Throws => Store.sessions (Store.loadOnce disk st).2
    end.
Proof.
  unfold Store.set, Store.persistQueued.
  destruct (Store.loadOnce disk st) as [[[]|] st0]; simpl; [|done].
  destruct (Store.writeQueue st0); [by destruct write_ok|done].
Qed.

Lemma clear_sessions (chatId : Z) (write_ok : bool)
  (disk : Store.file) (st : Store.SessionStore) :
  Store.sessions (Store.clear chatId write_ok disk st).1.2 =
    match (Store.loadOnce disk st).1 with
    | Store.Returns _ =>
        delete (Store.String_of chatId) (Store.sessions (Store.loadOnce disk st).2)
    | Store.Throws => Store.sessions (Store.loadOnce disk st).2
    end.
Proof.
  unfold Store.clear, Store.persistQueued.
  destruct (Store.loadOnce disk st) as [[[]|] st0]; simpl; [|done].
  destruct (Store.writeQueue st0); [by destruct write_ok|done].
Qed.

(** X6. [set] and [clear] for one chat leave the session of every other
    chat as it is after loading. *)
Theorem set_clear_keep_other_chats (k k' : Z) (sessionId : jsstring) (write_ok : bool)
  (disk : Store.file) (st : Store.SessionStore) :
  k ≠ k' →
  Store.sessions (Store.set k sessionId write_ok disk st).1.2 !! Store.String_of k'
    = Store.sessions (Store.loadOnce disk st).2 !! Store.String_of k' ∧
  Store.sessions (Store.clear k write_ok disk st).1.2 !! Store.String_of k'
    = Store.sessions (Store.loadOnce disk st).2 !! Store.String_of k'.
Proof.
  intros Hne.
  assert (Store.String_of k ≠ Store.String_of k') as Hkey.
  { intros H. by apply Hne, String_of_inj. }
  rewrite set_sessions, clear_sessions.
  destruct (Store.loadOnce disk st).1; [|done].
  by rewrite lookup_insert_ne, lookup_delete_ne.
Qed.

Lemma set_clear_keep_other_chats_witness :
  Store.sessions (Store.set 1 (lit "a") true Store.Absent Store.new_store).1.2
    !! Store.String_of 2 = None.
Proof.
  destruct (set_clear_keep_other_chats 1 2 (lit "a") true Store.Absent Store.new_store)
    as [H _]; [lia|]. exact H.
Defined.

(** What a new store reads from the document that a completed write left. *)
Lemma get_after_restart (k : Z) (m : gmap jsstring jsstring) :
  (Store.get k (Store.Document (Store.snapshot m)) Store.new_store).1 =
    Store.Returns (match m !! Store.String_of k with
                   | Some sid => if 0 <? len sid then Some sid else None
                   | None => None
                   end).
Proof.
  pose proof (reload_lookup m (Store.String_of k)) as R. revert R.
  unfold Store.get, Store.loadOnce, Store.snapshot. simpl. by intros ->.
Qed.

Lemma ids_not_empty_lookup (st : Store.SessionStore) (k : jsstring) :
  Store.ids_not_empty st →
  match Store.sessions st !! k with
  | Some sid => if 0 <? len sid then Some sid else None
  | None => None
  end = Store.sessions st !! k.
Proof.
  intros Hne. destruct (Store.sessions st !! k) as [sid|] eqn:E; [|done].
  specialize (Hne k sid E). destruct (Z.ltb_spec 0 (len sid)) as [|Hz]; [done|].
  exfalso. apply Hne, JSFacts.len_nil_iff. pose proof (JSFacts.len_nonneg sid). lia.
Qed.

(** X8. A write that fails stops all later writes: [set] and [clear] then
    throw, whether or not the file could be written again, and leave the
    document as it is, while the map in memory still follows them. *)
Theorem failed_write_stops_persistence (k : Z) (sessionId : jsstring)
  (disk : Store.file) (st : Store.SessionStore) :
  Store.loaded st = true →
  (Store.writeQueue (Store.set k sessionId false disk st).1.2 = Store.QueueRejected ∧
   Store.writeQueue (Store.clear k false disk st).1.2 = Store.QueueRejected) ∧
  (Store.writeQueue st = Store.QueueRejected →
   ∀ write_ok,
     Store.set k sessionId write_ok disk st
       = (Store.Throws,
          {| Store.loaded := true;
             Store.sessions := <[Store.String_of k := sessionId]> (Store.sessions st);
             Store.writeQueue := Store.QueueRejected |}, disk) ∧
     Store.clear k write_ok disk st
       = (Store.Throws,
          {| Store.loaded := true;
             Store.sessions := delete (Store.String_of k) (Store.sessions st);
             Store.writeQueue := Store.QueueRejected |}, disk)).
Proof.
  intros L. unfold Store.set, Store.clear, Store.persistQueued.
  rewrite (loadOnce_when_loaded disk st L). simpl. split.
  - by destruct (Store.writeQueue st).
  - intros -> write_ok. by rewrite L.
Qed.

Lemma failed_write_stops_persistence_witness :
  let st1 := (Store.set 1 (lit "a") false Store.Absent
                (Store.get 1 Store.Absent Store.new_store).2).1.2 in
  Store.writeQueue st1 = Store.QueueRejected ∧
  (Store.set 2 (lit "b") true Store.Absent st1).1.1 = Store.Throws ∧
  (Store.set 2 (lit "b") true Store.Absent st1).2 = Store.Absent.
Proof.
  set (st0 := (Store.get 1 Store.Absent Store.new_store).2).
  destruct (failed_write_stops_persistence 1 (lit "a") Store.Absent st0 eq_refl)
    as [[H1 _] _].
  set (st1 := (Store.set 1 (lit "a") false Store.Absent st0).1.2) in *.
  destruct (failed_write_stops_persistence 2 (lit "b") Store.Absent st1 eq_refl)
    as [_ H2].
  destruct (H2 H1 true) as [Hset _].
  cbv zeta. split; [exact H1|]. by rewrite Hset.
Defined.

(** X9. A missing document is an empty registry. A document that cannot be
    used makes the first call throw; the load is not tried again, so every
    later call works on an empty registry, and the next completed [set]
    replaces the document by one that holds this mapping only. *)
Theorem load_happens_once (k : Z) (sessionId : jsstring) (disk : Store.file) :
  (disk = Store.Absent →
   (Store.get k disk Store.new_store).1 = Store.Returns None) ∧
  (∀ st1, Store.get k disk Store.new_store = (Store.Throws, st1) →
     ∀ k', Store.get k' disk st1 = (Store.Returns None, st1) ∧
           (Store.set k' sessionId true disk st1).2
             = Store.Document (Store.snapshot {[Store.String_of k' := sessionId]})).
Proof.
  split; [by intros ->|].
  intros st1. unfold Store.get, Store.set, Store.loadOnce, Store.persistQueued. simpl.
  destruct disk as [| |v]; [done| |].
  - intros [= <-]. intros k'. simpl. by rewrite lookup_empty, insert_empty.
  - destruct (Store.Object_entries v); [done|].
    intros [= <-]. intros k'. simpl. by rewrite lookup_empty, insert_empty.
Qed.

Lemma load_happens_once_witness :
  (Store.get 7 Store.Absent Store.new_store).1 = Store.Returns None ∧
  Store.get 7 Store.Unusable (Store.get 7 Store.Unusable Store.new_store).2
    = (Store.Returns None, (Store.get 7 Store.Unusable Store.new_store).2).
Proof.
  destruct (load_happens_once 7 (lit "a") Store.Absent) as [H1 _].
  destruct (load_happens_once 7 (lit "a") Store.Unusable) as [_ H2].
  split; [by apply H1|].
  by destruct (H2 (Store.get 7 Store.Unusable Store.new_store).2 eq_refl 7) as [H _].
Defined.

(** Loading, [get], [clear], and [set] with an id that is not empty keep
    the store free of empty ids. *)
Lemma foldl_load_entry_ids (entries : list (jsstring * json)) (m : gmap jsstring jsstring) :
  (∀ k v, m !! k = Some v → v ≠ []) →
  ∀ k v, foldl Store.load_entry m entries !! k = Some v → v ≠ [].
Proof.
  revert m. induction entries as [|e entries IH]; intros m Hm; [done|]. simpl.
  apply IH. unfold Store.load_entry. destruct (snd e) as [| | |sid| |]; try done.
  destruct (Z.ltb_spec 0 (len sid)) as [Hpos|]; [|done].
  intros k v Hl. apply lookup_insert_Some in Hl as [[_ <-]|[_ Hl]]; [|by eapply Hm].
  intros ->. unfold len in Hpos. simpl in Hpos. lia.
Qed.

Lemma loadOnce_ids (disk : Store.file) (st : Store.SessionStore) :
  Store.ids_not_empty st → Store.ids_not_empty (Store.loadOnce disk st).2.
Proof.
  intros Hne. unfold Store.loadOnce. destruct (Store.loaded st); [done|].
  destruct disk as [| |v]; [done|done|].
  destruct (Store.Object_entries v) as [entries|]; [|done].
  unfold Store.ids_not_empty. simpl. by apply foldl_load_entry_ids.
Qed.

Lemma get_ids (k : Z) (disk : Store.file) (st : Store.SessionStore) :
  Store.ids_not_empty st → Store.ids_not_empty (Store.get k disk st).2.
Proof.
  intros Hne. pose proof (loadOnce_ids disk st Hne) as H. unfold Store.get.
  by destruct (Store.loadOnce disk st) as [[[]|] st0].
Qed.

Lemma set_ids (k : Z) (sessionId : jsstring) (write_ok : bool)
  (disk : Store.file) (st : Store.SessionStore) :
  sessionId ≠ [] → Store.ids_not_empty st →
  Store.ids_not_empty (Store.set k sessionId write_ok disk st).1.2.
Proof.
  intros Hs Hne. pose proof (loadOnce_ids disk st Hne) as H.
  unfold Store.ids_not_empty. rewrite set_sessions.
  destruct (Store.loadOnce disk st).1; [|done].
  intros key v Hl. apply lookup_insert_Some in Hl as [[_ <-]|[_ Hl]]; [done|].
  by eapply H.
Qed.

End StoreMore.

(** ** Calls of the session registry that overlap *)

Module OverlapFacts.
Import JS Overlap.

(** A call with no other call in flight does what [Store] says. *)
Lemma alone_agrees (m : method) (write_ok : bool) (st : Store.SessionStore)
  (d : Store.file) :
  ∃ s r, run (alone m write_ok st d) (start st d) = Some s ∧
         calls s = [(m, Ended r)] ∧
         (r, store_of s, disk s) = awaited m write_ok st d.
Proof.
  destruct st as [l sess q].
  destruct l, d as [| |v], m as [k|k sid|k], q, write_ok;
    try (eexists _, _; split; [reflexivity|]; split; reflexivity);
    unfold alone, awaited, Store.get, Store.set, Store.clear, Store.loadOnce; simpl;
    destruct (Store.Object_entries v) as [entries|] eqn:E; simpl; rewrite ?E; simpl;
    eexists _, _; (split; [reflexivity|]); split; reflexivity.
Qed.


(** *** Overlap after the load has completed *)

Lemma load_completed_start (st : Store.SessionStore) (d : Store.file) :
  Store.loaded st = true → load_completed (start st d).
Proof. intros L. by constructor. Qed.

(** Before a write whose predecessor is settled, every write is settled. *)
Lemma settled_before (s : state) (n a : nat) (wa : write_status) :
  (∀ n m wn wm, (n < m)%nat → writes s !! n = Some wn →
     writes s !! m = Some wm → pending wn = true → wm = Queued) →
  previous n s ≠ Pending → (a < n)%nat → writes s !! a = Some wa → pending wa = false.
Proof.
  intros HO Hprev Han Ha. destruct n as [|k]; [lia|]. simpl in Hprev.
  destruct (writes s !! k) as [wk|] eqn:Hk; [simpl in Hprev|done].
  destruct (decide (a = k)) as [->|Hne].
  - assert (wa = wk) as -> by congruence. by destruct wk.
  - destruct (pending wa) eqn:Hp; [|done].
    rewrite (HO a k wa wk ltac:(lia) Ha Hk Hp) in Hprev. done.
Qed.

Lemma set_phase_no_reading (s : state) (i : nat) (ph : phase) :
  (∀ j c, calls s !! j = Some c → c.2 ≠ Reading ∧ ∀ d, c.2 ≠ Fetched d) →
  ph ≠ Reading → (∀ d, ph ≠ Fetched d) →
  ∀ j c, alter (λ c, (c.1, ph)) i (calls s) !! j = Some c →
         c.2 ≠ Reading ∧ ∀ d, c.2 ≠ Fetched d.
Proof.
  intros HR H1 H2 j c. rewrite list_lookup_alter.
  destruct (decide (i = j)) as [->|]; [|by apply HR].
  destruct (calls s !! j); [|done]. by intros [= <-].
Qed.

Lemma load_completed_step (l : label) (s s' : state) :
  load_completed s → step l s = Some s' → load_completed s'.
Proof.
  intros [HL HR HO HT HD] Hstep. destruct l as [m|i|i|i|n|n|n|i]; simpl in Hstep.
  - rewrite HL in Hstep. injection Hstep as <-. constructor; simpl; try done.
    intros j c Hc. apply lookup_snoc_Some in Hc as [[_ Hc]|[_ <-]]; [exact (HR _ _ Hc)|done].
  - destruct (calls s !! i) as [c|] eqn:Hc; [simpl in Hstep|done].
    destruct (HR i c Hc) as [Hr _]. by destruct (c.2).
  - destruct (calls s !! i) as [c|] eqn:Hc; [simpl in Hstep|done].
    destruct (HR i c Hc) as [_ Hr]. destruct (c.2) as [|d| | |]; try done.
    by destruct (Hr d).
  - destruct (calls s !! i) as [c|] eqn:Hc; [simpl in Hstep|done].
    destruct (c.2) eqn:Hph; try done.
    assert (∀ m0, load_completed (persistQueued i m0 s)) as Hpersist.
    { intros m0. constructor; simpl; try done.
      - by apply set_phase_no_reading.
      - intros a b wa wb Hlt' Ha Hb Hp.
        apply lookup_snoc_Some in Hb as [[Hlt Hb]|[_ <-]]; [|done].
        apply lookup_snoc_Some in Ha as [[_ Ha]|[-> _]]; [exact (HO _ _ _ _ Hlt' Ha Hb Hp)|lia].
      - intros a p Hlen Ha. rewrite length_app in Hlen. simpl in Hlen.
        apply lookup_snoc_Some in Ha as [[Hlt _]|[_ ?]]; [lia|done].
      - intros a Hlen Ha. rewrite length_app in Hlen. simpl in Hlen.
        apply lookup_snoc_Some in Ha as [[Hlt _]|[_ ?]]; [lia|done]. }
    destruct (c.1) as [k|k v|k]; injection Hstep as <-; [|apply Hpersist..].
    constructor; simpl; try done. by apply set_phase_no_reading.
  - destruct (writes s !! n) as [ws|] eqn:Hn; [simpl in Hstep|done].
    destruct ws; try done. destruct (previous n s) eqn:Hprev; try done.
    injection Hstep as <-. constructor; simpl; try done.
    + intros a b wa wb Hab Ha Hb Hp.
      apply list_lookup_insert_Some in Ha as [(<- & <- & _)|[Hna Ha]];
        apply list_lookup_insert_Some in Hb as [(Hb1 & <- & _)|[Hnb Hb]]; try lia.
      * exact (HO n b _ _ Hab Hn Hb eq_refl).
      * subst b. rewrite (settled_before s n a wa HO) in Hp; [done|by rewrite Hprev|done..].
      * exact (HO a b _ _ Hab Ha Hb Hp).
    + intros a p Hlen Ha. rewrite length_insert in Hlen.
      apply list_lookup_insert_Some in Ha as [(_ & [= <-] & _)|[_ Ha]]; [done|exact (HT _ _ Hlen Ha)].
    + intros a Hlen Ha. rewrite length_insert in Hlen.
      apply list_lookup_insert_Some in Ha as [(_ & ? & _)|[_ Ha]]; [done|exact (HD _ Hlen Ha)].
  - destruct (writes s !! n) as [ws|] eqn:Hn; [simpl in Hstep|done].
    destruct ws as [|p| |]; try done. injection Hstep as <-.
    constructor; simpl; try done.
    + intros a b wa wb Hab Ha Hb Hp.
      apply list_lookup_insert_Some in Ha as [(<- & <- & _)|[Hna Ha]]; [done|].
      apply list_lookup_insert_Some in Hb as [(Hb1 & <- & _)|[Hnb Hb]].
      * subst b. by pose proof (HO a n wa _ Hab Ha Hn Hp).
      * exact (HO a b _ _ Hab Ha Hb Hp).
    + intros a p' Hlen Ha. rewrite length_insert in Hlen.
      apply list_lookup_insert_Some in Ha as [(_ & ? & _)|[_ Ha]]; [done|exact (HT _ _ Hlen Ha)].
    + intros a Hlen Ha. rewrite length_insert in Hlen.
      apply list_lookup_insert_Some in Ha as [(<- & _ & _)|[Hna Ha]].
      * by rewrite (HT n p Hlen Hn).
      * apply lookup_lt_Some in Hn as Hlt.
        by pose proof (HO n a _ _ ltac:(lia) Hn Ha eq_refl).
  - destruct (writes s !! n) as [ws|] eqn:Hn; [simpl in Hstep|done].
    assert (ws = Queued ∧ previous n s ≠ Pending ∨ ∃ p, ws = Stringified p) as Hcase.
    { destruct ws as [|p| |]; try done; [|by right; eexists].
      left. split; [done|]. by destruct (previous n s). }
    assert (s' = set_write n Failed s) as ->.
    { destruct ws; try done; [|by injection Hstep as <-].
      destruct (previous n s); try done; by injection Hstep as <-. }
    clear Hstep. constructor; simpl; try done.
    + intros a b wa wb Hab Ha Hb Hp.
      apply list_lookup_insert_Some in Ha as [(<- & <- & _)|[Hna Ha]]; [done|].
      apply list_lookup_insert_Some in Hb as [(Hb1 & <- & _)|[Hnb Hb]];
        [|exact (HO a b _ _ Hab Ha Hb Hp)].
      subst b. destruct Hcase as [[-> Hprev]|[p ->]].
      * by rewrite (settled_before s n a wa HO Hprev Hab Ha) in Hp.
      * by pose proof (HO a n wa _ Hab Ha Hn Hp).
    + intros a p' Hlen Ha. rewrite length_insert in Hlen.
      apply list_lookup_insert_Some in Ha as [(_ & ? & _)|[_ Ha]]; [done|exact (HT _ _ Hlen Ha)].
    + intros a Hlen Ha. rewrite length_insert in Hlen.
      apply list_lookup_insert_Some in Ha as [(_ & ? & _)|[_ Ha]]; [done|exact (HD _ Hlen Ha)].
  - destruct (calls s !! i) as [c|] eqn:Hc; [simpl in Hstep|done].
    destruct (c.2) as [| | |n|]; try done.
    destruct (from_option promise_of Pending (writes s !! n)); try done;
      injection Hstep as <-;
      constructor; simpl; try done; by apply set_phase_no_reading.
Qed.

Lemma load_completed_run (ls : list label) (s s' : state) :
  load_completed s → run ls s = Some s' → load_completed s'.
Proof.
  revert s. induction ls as [|l ls IH]; intros s Hinv; simpl; [by intros [= <-]|].
  destruct (step l s) as [s1|] eqn:Hstep; [simpl|done].
  apply IH. by eapply load_completed_step.
Qed.

(** X7. Once the load of the store has completed, calls of [get], [set] and
    [clear] may overlap in any way: whenever the last write that was chained
    has completed, the document holds the map as it is in memory; so, when
    no session id in the map is empty, a new store that loads the document
    answers [get] for every chat with the session that the map holds. *)
Theorem overlap_after_load_keeps_document (st : Store.SessionStore) (d : Store.file)
  (ls : list label) (s : state) :
  Store.loaded st = true → run ls (start st d) = Some s →
  last (writes s) = Some Written →
  disk s = Store.Document (Store.snapshot (sessions s)) ∧
  (Store.ids_not_empty (store_of s) →
   ∀ k, (Store.get k (disk s) Store.new_store).1
          = (Store.get k (disk s) (store_of s)).1).
Proof.
  intros L Hrun Hlast.
  destruct (load_completed_run ls _ s (load_completed_start st d L) Hrun)
    as [HL _ _ _ HD].
  assert (disk s = Store.Document (Store.snapshot (sessions s))) as Hd.
  { rewrite last_lookup in Hlast. apply lookup_lt_Some in Hlast as Hlt.
    apply (HD (pred (length (writes s)))); [lia|done]. }
  split; [done|]. intros Hne k.
  rewrite Hd, StoreMore.get_after_restart, StoreFacts.get_when_loaded by done.
  simpl. f_equal. exact (StoreMore.ids_not_empty_lookup (store_of s) _ Hne).
Qed.

Lemma sample_schedule_runs : run sample_schedule sample_start = Some sample_state.
Proof. vm_compute. reflexivity. Qed.

Lemma overlap_after_load_keeps_document_witness :
  disk sample_state = Store.Document (Store.snapshot (sessions sample_state)) ∧
  (Store.get 1 (disk sample_state) Store.new_store).1 = Store.Returns (Some (lit "a")) ∧
  (Store.get 3 (disk sample_state) Store.new_store).1 = Store.Returns (Some (lit "c")).
Proof.
  destruct (overlap_after_load_keeps_document
              {| Store.loaded := true;
                 Store.sessions := {[ Store.String_of 3 := lit "c" ]};
                 Store.writeQueue := Store.QueueFulfilled |}
              Store.Absent sample_schedule sample_state eq_refl sample_schedule_runs
              eq_refl)
    as [H1 H2].
  split; [exact H1|].
  assert (sessions sample_state
            = <[Store.String_of 2 := lit "b"]>
                (<[Store.String_of 1 := lit "a"]> {[ Store.String_of 3 := lit "c" ]}))
    as Hs by (vm_compute; reflexivity).
  assert (Store.ids_not_empty (store_of sample_state)) as Hne.
  { intros key sid. cbn [store_of Store.sessions]. rewrite Hs. intros H.
    apply lookup_insert_Some in H as [[_ <-]|[_ H]]; [done|].
    apply lookup_insert_Some in H as [[_ <-]|[_ H]]; [done|].
    apply lookup_singleton_Some in H as [_ <-]. done. }
  split; rewrite (H2 Hne); vm_compute; reflexivity.
Defined.

(** *** Overlap with the first load *)

(** X24. A call that overlaps the first load can lose sessions. The document
    holds session [a] for chat [k]; [get(k)] starts the load and, before
    [readFile] completes, [set(k', b)] for another chat runs to its end on the
    map that is still empty. Both calls return, [get(k)] with [a]; the
    document now holds the session of [k'] only, and a new store that loads
    it has no session for [k]. *)
Theorem overlap_during_load_loses_session (k k' : Z) (a b : jsstring)
  (m : gmap jsstring jsstring) :
  k ≠ k' → m !! Store.String_of k = Some a → a ≠ [] →
  ∃ s,
    run (overlap_schedule k k' b)
        (start Store.new_store (Store.Document (Store.snapshot m))) = Some s ∧
    calls s = [(CallGet k, Ended (Store.Returns (Some a)));
               (CallSet k' b, Ended (Store.Returns None))] ∧
    disk s = Store.Document (Store.snapshot {[ Store.String_of k' := b ]}) ∧
    (Store.get k (disk s) Store.new_store).1 = Store.Returns None.
Proof.
  intros Hkk Ha Hne.
  assert (Store.String_of k' ≠ Store.String_of k) as Hkey.
  { intros H. by apply Hkk, eq_sym, StoreMore.String_of_inj. }
  assert (foldl Store.load_entry {[ Store.String_of k' := b ]}
            (prod_map Datatypes.id JStr <$> map_to_list m) !! Store.String_of k = Some a)
    as Hload.
  { rewrite StoreFacts.foldl_load_entry_lookup by apply NoDup_fst_map_to_list.
    rewrite list_to_map_to_list, Ha.
    destruct (Z.ltb_spec 0 (len a)) as [|Hz]; [done|]. exfalso.
    apply Hne, JSFacts.len_nil_iff. pose proof (JSFacts.len_nonneg a). lia. }
  eexists. split; [simpl; reflexivity|].
  unfold set_phase. cbn [calls disk sessions alter list_alter fst].
  rewrite insert_empty, Hload. split; [done|]. split; [done|].
  rewrite StoreMore.get_after_restart. by rewrite lookup_singleton_ne.
Qed.

Lemma overlap_during_load_loses_session_witness :
  ∃ s,
    run (overlap_schedule 1 2 (lit "b"))
        (start Store.new_store
           (Store.Document (Store.snapshot {[ Store.String_of 1 := lit "a" ]}))) = Some s ∧
    calls s = [(CallGet 1, Ended (Store.Returns (Some (lit "a"))));
               (CallSet 2 (lit "b"), Ended (Store.Returns None))] ∧
    disk s = Store.Document (Store.snapshot {[ Store.String_of 2 := lit "b" ]}) ∧
    (Store.get 1 (disk s) Store.new_store).1 = Store.Returns None.
Proof.
  apply (overlap_during_load_loses_session 1 2 (lit "a") (lit "b")
           {[ Store.String_of 1 := lit "a" ]}); [lia| |done].
  apply lookup_singleton_eq.
Defined.

End OverlapFacts.

(** ** More on the per-conversation serializer *)

Module QueueMore.
Import Queue QueueFacts.

(** X10. The map holds an entry for a chat exactly while some call of the
    chat has not run to its end; once nothing is left to run the map is
    empty. *)
Theorem inFlightByChat_tracks_pending (ls : list label) (s : state) (c : Z) :
  run ls initial = Some s →
  (is_Some (inFlightByChat s !! c) ↔
   ∃ j jb, jobs s !! j = Some jb ∧ chatId jb = c ∧ progress jb ≠ Settled) ∧
  (quiescent s → inFlightByChat s = ∅).
Proof.
  intros Hrun.
  destruct (invariant_run ls initial s invariant_initial Hrun)
    as [Hprev _ Hmap _ _].
  split.
  - specialize (Hmap c). destruct (inFlightByChat s !! c) as [p|]; split.
    + intros _. destruct Hmap as [(pb & Hp & Hc & Hs) _]. by exists p, pb.
    + by eexists.
    + by intros [? ?].
    + intros (j & jb & Hj & Hc & Hs). by destruct Hs, (Hmap j jb).
  - intros Hq. apply map_empty. intros c'. specialize (Hmap c').
    destruct (inFlightByChat s !! c') as [p|]; [|done].
    destruct Hmap as [(pb & Hp & _ & Hs) _].
    by destruct Hs, (quiescent_settled s Hprev Hq p pb).
Qed.

Lemma inFlightByChat_tracks_pending_witness :
  inFlightByChat sample_state = ∅.
Proof.
  destruct (inFlightByChat_tracks_pending sample_schedule sample_state 1 eq_refl)
    as [_ H].
  apply H. apply settled_quiescent. repeat constructor.
Defined.

(** X11. Chats do not wait for each other: the task of a waiting call can
    be called exactly when every earlier call of its own chat has run to its
    end, whatever the state of the calls of other chats. *)
Theorem waits_for_own_chat_only (ls : list label) (s : state) (j : nat) (jb : job) :
  run ls initial = Some s → jobs s !! j = Some jb → progress jb = Waiting →
  (is_Some (step (Run j) s) ↔
   ∀ i ib, (i < j)%nat → jobs s !! i = Some ib → chatId ib = chatId jb →
           progress ib = Settled).
Proof.
  intros Hrun Hj Hw.
  destruct (invariant_run ls initial s invariant_initial Hrun)
    as [Hprev Hord _ _ _].
  simpl. rewrite Hj. simpl. rewrite bool_decide_true by done. simpl. split.
  - destruct (previous_settled (jobs s) jb) eqn:Hps; [|by intros [? ?]].
    intros _. by eapply earlier_settled.
  - intros Hall.
    assert (previous_settled (jobs s) jb = true) as ->; [|by eexists].
    unfold previous_settled. specialize (Hprev j jb Hj).
    destruct (previous jb) as [p|]; [|done].
    destruct Hprev as (Hlt & (pb & Hp & Hc) & _). rewrite Hp.
    apply bool_decide_eq_true. by eapply Hall.
Qed.

Lemma waits_for_own_chat_only_witness :
  is_Some (step (Run 2) (default initial (run [Enqueue 1; Enqueue 1; Enqueue 2] initial))).
Proof.
  apply (waits_for_own_chat_only [Enqueue 1; Enqueue 1; Enqueue 2]
           (default initial (run [Enqueue 1; Enqueue 1; Enqueue 2] initial)) 2
           {| chatId := 2; previous := None; progress := Waiting |});
    [reflexivity..|].
  intros [|[|i]] ib Hi; [| |lia]; intros [= <-]; discriminate.
Defined.

(** *** What [console.error] reports *)

Lemma ends_elem (j : nat) (o : settlement) (tr : list event) :
  End j o ∈ tr → (0 < ends j tr)%nat.
Proof.
  intros H. apply list_elem_of_split in H as (a & b & ->).
  rewrite ends_app. unfold ends at 2. rewrite filter_cons. simpl.
  rewrite bool_decide_true by done. rewrite decide_True by done. simpl. lia.
Qed.

Lemma two_ends (j : nat) (o o' : settlement) (tr : list event) :
  End j o ∈ tr → End j o' ∈ tr → o ≠ o' → (2 ≤ ends j tr)%nat.
Proof.
  intros H H' Hne. apply list_elem_of_split in H as (a & b & ->).
  assert (End j o' ∈ a ∨ End j o' ∈ b) as Hab.
  { apply elem_of_app in H' as [?|H']; [by left|].
    apply elem_of_cons in H' as [[=]|?]; [congruence|by right]. }
  rewrite ends_app. unfold ends at 2. rewrite filter_cons. simpl.
  rewrite bool_decide_true by done. rewrite decide_True by done. simpl.
  fold (ends j b). destruct Hab as [Ha|Hb].
  - pose proof (ends_elem _ _ _ Ha). lia.
  - pose proof (ends_elem _ _ _ Hb). lia.
Qed.

Lemma log_ok_initial : log_ok initial.
Proof.
  split; [constructor|]. split.
  - intros j. split; [by intros ?%elem_of_nil|]. by intros (jb & H & _).
  - by intros j jb o H.
Qed.

Lemma log_ok_step (l : label) (s s' : state) :
  invariant s → log_ok s → step l s = Some s' → log_ok s'.
Proof.
  intros [_ _ _ [Hcnt _] _] (Hnd & Hlog & Hdone).
  destruct l as [c|j|j o|j]; simpl.
  - intros [= <-]. unfold enqueueByChat. split; [done|]. simpl. split.
    + intros j. rewrite Hlog. split; intros (jb & Hj & Hs & He).
      * exists jb. split; [by apply lookup_app_l_Some|done].
      * apply lookup_snoc_inv in Hj as [Hj|[_ ->]]; [by exists jb|done].
    + intros j jb o Hj Hp. apply lookup_snoc_inv in Hj as [Hj|[_ ->]]; [|done].
      by eapply Hdone.
  - destruct (jobs s !! j) as [jb|] eqn:Hj; [simpl|done].
    destruct (bool_decide (progress jb = Waiting)) eqn:Hw; [|done].
    destruct (previous_settled (jobs s) jb); [simpl|done].
    apply bool_decide_eq_true in Hw. intros [= <-]. split; [done|]. simpl. split.
    + intros k. rewrite Hlog. split; intros (kb & Hk & Hs & He).
      * destruct (lookup_set_progress_old j Running _ _ _ Hk) as (kb' & Hk' & _ & _ & Hp).
        exists kb'. split; [done|]. split; [|apply elem_of_app; by left].
        rewrite Hp. destruct (decide (k = j)) as [->|]; [congruence|done].
      * destruct (lookup_set_progress _ _ _ _ _ Hk) as (kb0 & Hk0 & _ & _ & Hp).
        rewrite Hp in Hs. destruct (decide (k = j)) as [->|]; [done|].
        exists kb0. split; [done|]. split; [done|].
        apply elem_of_app in He as [?|He]; [done|]. by apply list_elem_of_singleton in He.
    + intros k kb o Hk Hp.
      destruct (lookup_set_progress _ _ _ _ _ Hk) as (kb0 & Hk0 & _ & _ & Hp').
      rewrite Hp' in Hp. destruct (decide (k = j)) as [->|]; [done|].
      apply elem_of_app. left. by eapply Hdone.
  - destruct (jobs s !! j) as [jb|] eqn:Hj; [simpl|done].
    destruct (bool_decide (progress jb = Running)) eqn:Hw; [|done].
    apply bool_decide_eq_true in Hw. intros [= <-]. split; [done|]. simpl. split.
    + intros k. rewrite Hlog. split; intros (kb & Hk & Hs & He).
      * destruct (lookup_set_progress_old j (TaskDone o) _ _ _ Hk)
          as (kb' & Hk' & _ & _ & Hp).
        exists kb'. split; [done|]. split; [|apply elem_of_app; by left].
        rewrite Hp. destruct (decide (k = j)) as [->|]; [congruence|done].
      * destruct (lookup_set_progress _ _ _ _ _ Hk) as (kb0 & Hk0 & _ & _ & Hp).
        rewrite Hp in Hs. destruct (decide (k = j)) as [->|Hkj]; [done|].
        exists kb0. split; [done|]. split; [done|].
        apply elem_of_app in He as [?|He]; [done|].
        apply list_elem_of_singleton in He. congruence.
    + intros k kb o' Hk Hp.
      destruct (lookup_set_progress _ _ _ _ _ Hk) as (kb0 & Hk0 & _ & _ & Hp').
      rewrite Hp' in Hp. apply elem_of_app. destruct (decide (k = j)) as [->|].
      * right. injection Hp as ->. by apply list_elem_of_singleton.
      * left. by eapply Hdone.
  - destruct (jobs s !! j) as [jb|] eqn:Hj; [simpl|done].
    destruct (progress jb) as [| |o|] eqn:Hw; try done. intros [= <-]. simpl.
    assert (j ∉ logged s) as Hfresh.
    { rewrite Hlog. intros (jb' & Hj' & Hs & _). congruence. }
    assert (∀ k, (∃ kb, set_progress j Settled (jobs s) !! k = Some kb ∧
                        progress kb = Settled ∧ End k Rejected ∈ trace s) ↔
                 k ∈ logged s ∨ (k = j ∧ o = Rejected)) as Hiff.
    { intros k. rewrite Hlog. split.
      - intros (kb & Hk & Hs & He).
        destruct (lookup_set_progress _ _ _ _ _ Hk) as (kb0 & Hk0 & _ & _ & Hp).
        rewrite Hp in Hs. destruct (decide (k = j)) as [->|]; [|left; by exists kb0].
        right. split; [done|]. destruct o; [|done]. exfalso.
        pose proof (Hdone j jb Fulfilled Hj Hw) as Hf.
        pose proof (two_ends j Rejected Fulfilled _ He Hf ltac:(done)) as H2.
        destruct (Hcnt j jb Hj) as [_ Hends]. rewrite Hw in Hends. lia.
      - intros [(kb & Hk & Hs & He)|[-> ->]].
        + destruct (lookup_set_progress_old j Settled _ _ _ Hk) as (kb' & Hk' & _ & _ & Hp).
          exists kb'. split; [done|]. split; [|done].
          rewrite Hp. by destruct (decide (k = j)).
        + destruct (lookup_set_progress_old j Settled _ _ _ Hj) as (jb' & Hj' & _ & _ & Hp).
          exists jb'. split; [done|]. rewrite decide_True in Hp by done.
          split; [done|]. by eapply Hdone. }
    split; [|split].
    + destruct o; [done|]. apply NoDup_app. split; [done|]. split; [|apply NoDup_singleton].
      intros k Hk ->%list_elem_of_singleton. done.
    + intros k. rewrite Hiff. destruct o.
      * split; [by left|]. by intros [?|[_ ?]].
      * simpl. rewrite elem_of_app, list_elem_of_singleton. split; intros [?|?]; tauto.
    + intros k kb o' Hk Hp.
      destruct (lookup_set_progress _ _ _ _ _ Hk) as (kb0 & Hk0 & _ & _ & Hp').
      rewrite Hp' in Hp. destruct (decide (k = j)) as [->|]; [done|]. by eapply Hdone.
Qed.

Lemma log_ok_run (ls : list label) (s s' : state) :
  invariant s → log_ok s → run ls s = Some s' → log_ok s'.
Proof.
  revert s. induction ls as [|l ls IH]; intros s Hinv Hlog; simpl.
  - by intros [= <-].
  - destruct (step l s) as [s1|] eqn:Hstep; [simpl|done].
    apply IH; [by eapply invariant_step|by eapply log_ok_step].
Qed.

(** X12. A task that rejects does not stop the queue and is reported by
    [console.error] once, when its chain ends; a task that fulfils is never
    reported. *)
Theorem rejections_are_logged_once (ls : list label) (s : state) :
  run ls initial = Some s →
  NoDup (logged s) ∧
  ∀ j, j ∈ logged s ↔
       ∃ jb, jobs s !! j = Some jb ∧ progress jb = Settled ∧ End j Rejected ∈ trace s.
Proof.
  intros Hrun.
  destruct (log_ok_run ls initial s invariant_initial log_ok_initial Hrun)
    as (Hnd & Hlog & _).
  by split.
Qed.

Lemma rejections_are_logged_once_witness :
  NoDup (logged sample_state) ∧ (0%nat ∈ logged sample_state).
Proof.
  destruct (rejections_are_logged_once sample_schedule sample_state eq_refl) as [H1 H2].
  split; [exact H1|]. apply H2. eexists. split; [reflexivity|]. split; [reflexivity|].
  apply list_elem_of_In. simpl. tauto.
Defined.

End QueueMore.

(** ** More on the turn executor *)

Module RunnerMore.
Import JS Runner Args JSFacts ChunkerMore.

Lemma foldl_image_args (images : list jsstring) (args : list jsstring) :
  foldl (λ args imagePath, args ++ [lit "--image"; imagePath]) args images
    = args ++ flat_map (λ imagePath, [lit "--image"; imagePath]) images.
Proof.
  revert args. induction images as [|p images IH]; intros args; simpl.
  - by rewrite app_nil_r.
  - by rewrite IH, <- app_assoc.
Qed.

(** X13. The arguments of the child: the command, which resumes exactly
    when the request has a session id that is not empty; the options; one
    [--image] pair for each image, in order; then the session id when
    resuming; and the prompt as the last argument. *)
Theorem buildArgs_shape (relayConfig : RunnerConfig) (input : CodexTurnInput)
  (outputFile : jsstring) :
  last (buildArgs relayConfig input outputFile) = Some (prompt input) ∧
  buildArgs relayConfig input outputFile =
    match truthy (input_sessionId input) with
    | Some sessionId =>
        [lit "exec"; lit "resume"] ++ fixed_options relayConfig outputFile ++
        flat_map (λ imagePath, [lit "--image"; imagePath]) (imagePaths input) ++
        [sessionId; prompt input]
    | None =>
        [lit "exec"] ++ fixed_options relayConfig outputFile ++
        flat_map (λ imagePath, [lit "--image"; imagePath]) (imagePaths input) ++
        [prompt input]
    end.
Proof.
  unfold buildArgs, fixed_options. split.
  - by rewrite last_snoc.
  - rewrite foldl_image_args.
    destruct (truthy (input_sessionId input)), (truthy (codexModel relayConfig));
      simpl; rewrite <- ?app_assoc; simpl; done.
Qed.

(** X14. When the child process closes, the call leaves the directories as
    they were before it, whether it returns or throws: the directory of the
    turn is gone and no other is touched. *)
Theorem runCodexTurn_closed_restores_dirs (JSON_parse : jsstring → option json)
  (input : CodexTurnInput) (env : turn_env) (w : world) (code : option Z) :
  outcome env = Close code →
  (runCodexTurn JSON_parse input env w).1 = w ∧
  (tempDir_of w ∉ (runCodexTurn JSON_parse input env w).1).
Proof.
  intros Hc.
  rewrite (RunnerFacts.runCodexTurn_closed_removes_tempDir JSON_parse input env w code Hc).
  split; [done|]. apply is_fresh.
Qed.

Lemma runCodexTurn_closed_restores_dirs_witness :
  (runCodexTurn sample_parse RunnerFacts.fresh_request RunnerFacts.rate_limited_turn
     {[ 3%nat ]}).1 = {[ 3%nat ]}.
Proof.
  by destruct (runCodexTurn_closed_restores_dirs sample_parse RunnerFacts.fresh_request
                 RunnerFacts.rate_limited_turn {[ 3%nat ]} (Some 1) eq_refl) as [H _].
Defined.

Lemma trim_idemp (s : jsstring) : trim (trim s) = trim s.
Proof.
  destruct (trim_trimmed s) as [H1 H2]. unfold trim at 1.
  unfold Chunker.no_leading_space in H1. rewrite H1. exact H2.
Qed.

Section WithParser.
Context (JSON_parse : jsstring → option json).

Lemma nonblank_lines_not_blank (src : source) (ls : list (jsstring * source)) (m : jsstring) :
  m ∈ nonblank_lines src ls → trim m = m ∧ m ≠ [].
Proof.
  unfold nonblank_lines. rewrite list_elem_of_omap. intros (e & _ & He).
  destruct (decide (snd e = src)); [|done].
  destruct (trim (fst e)) as [|c t] eqn:T; [done|]. injection He as <-.
  split; [|done]. rewrite <- T. apply trim_idemp.
Qed.

Lemma exit_message_not_blank (n : Z) : trim (exit_message n) ≠ [].
Proof. unfold exit_message. simpl. by apply trim_cons_nonempty. Qed.

(** X15. The message of a turn that fails without a structured error is
    never blank: it is a line of the child that is not blank, or the generic
    text. *)
Theorem failure_message_not_blank (ls : list (jsstring * source)) (exitCode : Z) :
  reported_errors JSON_parse ls = [] →
  trim (failure_message JSON_parse ls exitCode) ≠ [].
Proof.
  intros Hnone. unfold failure_message. rewrite Hnone. simpl.
  destruct (last (nonblank_lines stderr ls)) as [m|] eqn:Herr.
  { apply last_Some_elem_of in Herr.
    destruct (nonblank_lines_not_blank _ _ _ Herr) as [-> ?]. done. }
  destruct (last (nonblank_lines stdout ls)) as [m|] eqn:Hout.
  { apply last_Some_elem_of in Hout.
    destruct (nonblank_lines_not_blank _ _ _ Hout) as [-> ?]. done. }
  apply exit_message_not_blank.
Qed.

End WithParser.

Lemma failure_message_not_blank_witness :
  trim (failure_message sample_parse
          [(lit "  ", stdout); (lit " rate limited ", stderr)] 1) ≠ [].
Proof. apply (failure_message_not_blank sample_parse). reflexivity. Defined.

End RunnerMore.

(** ** Replies and the task of one message *)

Module RelayFacts.
Import JS Chunker JSFacts ChunkerFacts ChunkerMore Relay.

(** X16. [humanError] never gives a blank text: an error whose message is
    empty or blank, and a thrown value that is no [Error], give the fixed
    text. *)
Theorem humanError_not_blank (error : thrown) : trim (humanError error) ≠ [].
Proof.
  destruct error as [message|]; simpl; [|by vm_compute].
  destruct (trim message) eqn:T; [by vm_compute|]. by rewrite T.
Qed.

Section WithEnvironment.
Context (maxReplyChars : Z) (telegram : nat → jsstring → option thrown).

#[local] Abbreviation reply := (reply telegram).
#[local] Abbreviation reply_each := (reply_each telegram).
#[local] Abbreviation sendResponse := (sendResponse maxReplyChars telegram).

(** The replies of a loop over [chunks]: the chunks are delivered in their
    order up to the first call that throws. *)
Lemma reply_each_delivers (chunks : list jsstring) (c c' : chat_state)
  (error : option thrown) :
  reply_each chunks c = (c', error) →
  ∃ k, sent c' = sent c ++ take k chunks ∧
       (error = None → k = length chunks) ∧
       (∀ e, error = Some e →
             ∃ chunk, chunks !! k = Some chunk ∧
                      telegram (attempts c + k) chunk = Some e).
Proof.
  revert c. induction chunks as [|chunk rest IH]; intros c; simpl.
  - intros [= <- <-]. exists O. rewrite app_nil_r. by repeat split.
  - unfold Relay.reply. destruct (telegram (attempts c) chunk) as [e|] eqn:T.
    + intros [= <- <-]. exists O. simpl. rewrite app_nil_r. split; [done|].
      split; [done|]. intros e' [= <-]. exists chunk. by rewrite Nat.add_0_r.
    + intros H. destruct (IH _ H) as (k & Hs & Hn & He). simpl in *.
      exists (S k). simpl. rewrite Hs, <- app_assoc. split; [done|].
      split; [intros Hnone; by rewrite Hn|].
      intros e Herr. destruct (He e Herr) as (x & Hx & Ht). exists x.
      split; [done|]. by rewrite <- Nat.add_succ_comm.
Qed.

End WithEnvironment.

(** X17. With the limit that [parseMaxReplyChars] gives, for any setting,
    [sendResponse] returns; what it has delivered are the first segments of
    the text in their order, all of them when no call of [ctx.reply] threw;
    and no delivered message is longer than 4096 units. *)
Theorem sendResponse_within_limit (Number_of_string : jsstring → Config.number)
  (raw : option jsstring) (telegram : nat → jsstring → option thrown)
  (text : jsstring) (c : chat_state) :
  ∃ c' error segs k,
    sendResponse (Config.parseMaxReplyChars Number_of_string raw) telegram text c
      = Some (c', error) ∧
    splitForTelegram text (Config.parseMaxReplyChars Number_of_string raw) = Some segs ∧
    sent c' = sent c ++ take k segs ∧
    (error = None → k = length segs) ∧
    Forall (λ m, len m ≤ 4096) (take k segs).
Proof.
  assert (200 ≤ Config.parseMaxReplyChars Number_of_string raw ≤ 4096) as Hrange.
  { unfold Config.parseMaxReplyChars.
    destruct (Config.Number Number_of_string raw) as [|b|q]; try lia.
    destruct (Config.lt_int q 200) eqn:Hlo; [simpl; lia|].
    destruct (Config.gt_int q 4096) eqn:Hhi; [simpl; lia|]. simpl.
    by apply ConfigFacts.floor_in_range. }
  set (limit := Config.parseMaxReplyChars Number_of_string raw) in *.
  destruct (run_terminates text limit ltac:(lia)) as [[segs n] R].
  unfold Relay.sendResponse, splitForTelegram. rewrite R. simpl.
  destruct (Relay.reply_each telegram segs c) as [c' error] eqn:E.
  destruct (reply_each_delivers telegram segs c c' error E) as (k & Hs & Hn & _).
  exists c', error, segs, k. repeat split; try done.
  apply Forall_take. eapply Forall_impl; [by eapply run_segments_bounded|].
  simpl. intros m Hm. lia.
Qed.

(** *** The task of one message *)

Lemma truthy_not_empty (s : option jsstring) (v : jsstring) :
  Args.truthy s = Some v → s = Some v ∧ v ≠ [].
Proof. by destruct s as [[|c r]|]; intros [= <-]. Qed.


(** What a turn returns or throws does not depend on the directories. *)
Lemma runCodexTurn_result_any_world (JSON_parse : jsstring → option json)
  (input : Runner.CodexTurnInput) (env : Runner.turn_env) (w1 w2 : Runner.world) :
  (Runner.runCodexTurn JSON_parse input env w1).2
    = (Runner.runCodexTurn JSON_parse input env w2).2.
Proof.
  unfold Runner.runCodexTurn. destruct (Runner.outcome env); [done| |done].
  by destruct (_ && _).
Qed.

(** A turn that ends leaves the directories as they were, unless the child
    could not be started. *)
Lemma runCodexTurn_ended_dirs (JSON_parse : jsstring → option json)
  (input : Runner.CodexTurnInput) (env : Runner.turn_env) (w w1 : Runner.world)
  (r : Runner.completion Runner.CodexTurnResult) :
  (∀ e, Runner.outcome env ≠ Runner.SpawnError e) →
  Runner.runCodexTurn JSON_parse input env w = (w1, r) → r ≠ Runner.NeverSettles →
  w1 = w.
Proof.
  intros Hspawn Hturn Hr. destruct (Runner.outcome env) as [e|code|] eqn:Ho.
  - by destruct (Hspawn e).
  - pose proof (RunnerFacts.runCodexTurn_closed_removes_tempDir JSON_parse input env w
                  code Ho) as H.
    by rewrite Hturn in H.
  - unfold Runner.runCodexTurn in Hturn. rewrite Ho in Hturn.
    by injection Hturn as _ <-.
Qed.

Section Task.
Context (JSON_parse : jsstring → option json) (maxReplyChars : Z)
        (telegram : nat → jsstring → option thrown).

#[local] Abbreviation message_task := (message_task JSON_parse maxReplyChars telegram).
#[local] Abbreviation try_block := (try_block JSON_parse maxReplyChars telegram).
#[local] Abbreviation request p prior :=
  {| Runner.prompt := payload_prompt p; Runner.input_sessionId := prior;
     Runner.imagePaths := payload_imagePaths p |}.
#[local] Abbreviation dirs0 p w := (list_to_set (payload_cleanupTargets p) ∪ dirs w).

(** The ways in which the [try] block ends. *)
Inductive try_block_ends (chatId : Z) (env : task_env) (w : world)
  : world → option thrown → Prop :=
| payload_failed error downloads :
    payload env = PayloadFails error downloads →
    try_block_ends chatId env w
      {| store := store w; disk := disk w; dirs := list_to_set downloads ∪ dirs w;
         chat := chat w; turns := turns w |}
      (Some error)
| load_failed p st1 :
    payload env = PayloadReady p →
    Store.get chatId (disk w) (store w) = (Store.Throws, st1) →
    try_block_ends chatId env w
      {| store := st1; disk := disk w; dirs := dirs0 p w; chat := chat w;
         turns := turns w |}
      (Some (store_failure env))
| turn_failed p prior st1 dirs1 message :
    payload env = PayloadReady p →
    Store.get chatId (disk w) (store w) = (Store.Returns prior, st1) →
    Runner.runCodexTurn JSON_parse (request p prior) (turn env) (dirs0 p w)
      = (dirs1, Runner.Throws message) →
    try_block_ends chatId env w
      {| store := st1; disk := disk w; dirs := dirs1; chat := chat w;
         turns := turns w ++ [request p prior] |}
      (Some (ErrorObject message))
| turn_returned p prior st1 dirs1 result saved st2 disk2 w1 caught :
    payload env = PayloadReady p →
    Store.get chatId (disk w) (store w) = (Store.Returns prior, st1) →
    Runner.runCodexTurn JSON_parse (request p prior) (turn env) (dirs0 p w)
      = (dirs1, Runner.Returns result) →
    match Args.truthy (Runner.sessionId result) with
    | Some sessionId => Store.set chatId sessionId (write_ok env) (disk w) st1
    | None => (Store.Returns (), st1, disk w)
    end = (saved, st2, disk2) →
    match saved with
    | Store.Throws =>
        w1 = {| store := st2; disk := disk2; dirs := dirs1; chat := chat w;
                turns := turns w ++ [request p prior] |} ∧
        caught = Some (store_failure env)
    | Store.Returns _ =>
        ∃ chat1, sendResponse maxReplyChars telegram (Runner.reply result) (chat w)
                   = Some (chat1, caught) ∧
                 w1 = {| store := st2; disk := disk2; dirs := dirs1; chat := chat1;
                         turns := turns w ++ [request p prior] |}
    end →
    try_block_ends chatId env w w1 caught.

Lemma try_block_inv (chatId : Z) (env : task_env) (w w1 : world)
  (caught : option thrown) :
  try_block chatId env w = Some (w1, caught) → try_block_ends chatId env w w1 caught.
Proof.
  unfold Relay.try_block.
  destruct (payload env) as [p|error downloads|] eqn:Hp;
    [|intros [= <- <-]; by constructor|done].
  cbv zeta.
  destruct (Store.get chatId (disk w) (store w)) as [[prior|] st1] eqn:Hget;
    [|intros [= <- <-]; by econstructor].
  destruct (Runner.runCodexTurn _ _ _ _) as [dirs1 [result|message|]] eqn:Hturn;
    [|intros [= <- <-]; by econstructor|done].
  destruct (match Args.truthy (Runner.sessionId result) with
            | Some sessionId => _ | None => _ end) as [[saved st2] disk2] eqn:Hsave.
  destruct saved as [[]|].
  - destruct (sendResponse _ _ _ _) as [[chat1 error]|] eqn:Hsend; [|done].
    simpl. intros [= <- <-]. eapply turn_returned; [done..|]. simpl. by eexists.
  - intros [= <- <-]. eapply turn_returned; [done..|]. simpl. done.
Qed.

Lemma message_task_inv (chatId : Z) (env : task_env) (w w' : world)
  (rejected : option thrown) :
  message_task chatId env w = Some (w', rejected) →
  ∃ w1 caught,
    try_block_ends chatId env w w1 caught ∧
    store w' = store w1 ∧ disk w' = disk w1 ∧
    dirs w' = cleanupTargets
                match payload env with
                | PayloadReady p => payload_cleanupTargets p
                | PayloadFails _ _ | PayloadPending => []
                end (dirs w1) ∧
    turns w' = turns w1 ∧
    match caught with
    | None => chat w' = chat w1 ∧ rejected = None
    | Some error =>
        reply telegram (lit "Error: " ++ humanError error) (chat w1) = (chat w', rejected)
    end.
Proof.
  intros H. unfold Relay.message_task in H.
  destruct (try_block chatId env w) as [[w1 caught]|] eqn:Htry; [|done].
  apply try_block_inv in Htry. exists w1, caught. split; [done|].
  cbn [mbind option_bind] in H. destruct caught as [error|].
  - destruct (reply telegram (lit "Error: " ++ humanError error) (chat w1))
      as [chat2 rej] eqn:Hr.
    injection H as <- <-. by cbn [store disk dirs chat turns].
  - injection H as <- <-. by cbn [store disk dirs chat turns].
Qed.

Lemma get_returns (chatId : Z) (d : Store.file) (st st1 : Store.SessionStore)
  (prior : option jsstring) :
  Store.get chatId d st = (Store.Returns prior, st1) →
  Store.loaded st1 = true ∧ prior = Store.sessions st1 !! Store.String_of chatId ∧
  st1 = (Store.loadOnce d st).2.
Proof.
  unfold Store.get. pose proof (StoreFacts.loadOnce_loaded d st) as L.
  destruct (Store.loadOnce d st) as [[[]|] st0]; [|done]. by intros [= <- <-].
Qed.

(** X18. The task stores no empty session id: when no id in the store is
    empty before the task, none is after it, however the task ends. *)
Theorem message_task_keeps_ids_not_empty (chatId : Z) (env : task_env) (w w' : world)
  (rejected : option thrown) :
  message_task chatId env w = Some (w', rejected) →
  Store.ids_not_empty (store w) → Store.ids_not_empty (store w').
Proof.
  intros H Hne. apply message_task_inv in H as (w1 & caught & Hends & -> & _).
  destruct Hends as [error downloads Hp|p st1 Hp Hget
                    |p prior st1 dirs1 message Hp Hget Hturn
                    |p prior st1 dirs1 result saved st2 disk2 w1 caught Hp Hget Hturn Hsave Hw1];
    simpl; try done.
  - pose proof (StoreMore.get_ids chatId (disk w) (store w) Hne) as H. by rewrite Hget in H.
  - pose proof (StoreMore.get_ids chatId (disk w) (store w) Hne) as H. by rewrite Hget in H.
  - pose proof (StoreMore.get_ids chatId (disk w) (store w) Hne) as Hst1.
    rewrite Hget in Hst1. simpl in Hst1.
    assert (Store.ids_not_empty st2) as Hst2.
    { destruct (Args.truthy (Runner.sessionId result)) as [sid|] eqn:Ht.
      - apply truthy_not_empty in Ht as [_ Hsid].
        pose proof (StoreMore.set_ids chatId sid (write_ok env) (disk w) st1 Hsid Hst1) as H.
        by rewrite Hsave in H.
      - by injection Hsave as _ <- _. }
    destruct saved as [[]|].
    + by destruct Hw1 as (chat1 & _ & ->).
    + by destruct Hw1 as [-> _].
Qed.

(** X19. What the task does to the session of its chat. When [buildPayload]
    fails the store is not touched. When the turn throws, the store is as
    [get] left it and the document is unchanged. When the turn returns, the
    session of the chat in memory is the session id of the result if that is
    not empty, also when writing it fails, and the prior session otherwise.
    A task that has ended has not met a child that never closes. *)
Theorem message_task_session (chatId : Z) (env : task_env) (w w' : world)
  (rejected : option thrown) :
  message_task chatId env w = Some (w', rejected) →
  (∀ error downloads, payload env = PayloadFails error downloads →
     store w' = store w ∧ disk w' = disk w) ∧
  (∀ p prior st1,
     payload env = PayloadReady p →
     Store.get chatId (disk w) (store w) = (Store.Returns prior, st1) →
     match (Runner.runCodexTurn JSON_parse
              {| Runner.prompt := payload_prompt p; Runner.input_sessionId := prior;
                 Runner.imagePaths := payload_imagePaths p |} (turn env) (dirs w)).2 with
     | Runner.Throws _ => store w' = st1 ∧ disk w' = disk w
     | Runner.Returns result =>
         Store.sessions (store w') !! Store.String_of chatId =
           match Args.truthy (Runner.sessionId result) with
           | Some sessionId => Some sessionId
           | None => prior
           end
     | Runner.NeverSettles => False
     end).
Proof.
  intros H. apply message_task_inv in H as (w1 & caught & Hends & -> & -> & _).
  destruct Hends as [error downloads Hp|p st1 Hp Hget
                    |p prior st1 dirs1 message Hp Hget Hturn
                    |p prior st1 dirs1 result saved st2 disk2 w1 caught Hp Hget Hturn Hsave Hw1];
    (split; [intros error' downloads' Hp'|intros p' prior' st1' Hp' Hget']);
    try congruence.
  - done.
  - assert (p' = p) as -> by congruence.
    assert (prior' = prior ∧ st1' = st1) as [-> ->] by (split; congruence).
    rewrite (runCodexTurn_result_any_world _ _ _ (dirs w) (dirs0 p w)).
    by rewrite Hturn.
  - assert (p' = p) as -> by congruence.
    assert (prior' = prior ∧ st1' = st1) as [-> ->] by (split; congruence).
    rewrite (runCodexTurn_result_any_world _ _ _ (dirs w) (dirs0 p w)).
    rewrite Hturn. simpl.
    destruct (get_returns _ _ _ _ _ Hget) as (L & Hprior & _).
    assert (store w1 = st2) as ->.
    { destruct saved as [[]|]; [by destruct Hw1 as (chat1 & _ & ->)|by destruct Hw1 as [-> _]]. }
    destruct (Args.truthy (Runner.sessionId result)) as [sid|].
    + pose proof (StoreMore.set_sessions chatId sid (write_ok env) (disk w) st1) as Hs.
      rewrite Hsave in Hs. simpl in Hs.
      rewrite (StoreFacts.loadOnce_when_loaded _ _ L) in Hs. simpl in Hs.
      by rewrite Hs, lookup_insert_eq.
    + by injection Hsave as _ <- _.
Qed.

(** X20. The [finally] block. When [buildPayload] has returned, no directory
    of the downloads of its payload is left, however the task ends, and
    unless the child could not be started no directory is left that was not
    there before the task. When [buildPayload] throws, [cleanup] is still
    empty: the directories that its downloads have created stay. *)
Theorem message_task_cleans_up (chatId : Z) (env : task_env) (w w' : world)
  (rejected : option thrown) :
  message_task chatId env w = Some (w', rejected) →
  (∀ p d, payload env = PayloadReady p → d ∈ payload_cleanupTargets p → d ∉ dirs w') ∧
  (∀ p, payload env = PayloadReady p →
        (∀ e, Runner.outcome (turn env) ≠ Runner.SpawnError e) → dirs w' ⊆ dirs w) ∧
  (∀ error downloads, payload env = PayloadFails error downloads →
        dirs w' = list_to_set downloads ∪ dirs w).
Proof.
  intros H. apply message_task_inv in H as (w1 & caught & Hends & _ & _ & -> & _).
  unfold cleanupTargets. split; [|split].
  - intros p d -> Hd. rewrite elem_of_difference, elem_of_list_to_set. tauto.
  - intros p Hp Hspawn. rewrite Hp.
    assert (dirs w1 = dirs0 p w) as ->.
    { destruct Hends as [error downloads Hp'|p' st1 Hp' Hget
                        |p' prior st1 dirs1 message Hp' Hget Hturn
                        |p' prior st1 dirs1 result saved st2 disk2 w1 caught Hp' Hget Hturn
                           Hsave Hw1];
        try congruence; assert (p' = p) as -> by congruence.
      - done.
      - simpl. by eapply runCodexTurn_ended_dirs.
      - assert (dirs w1 = dirs1) as ->.
        { destruct saved as [[]|];
            [by destruct Hw1 as (chat1 & _ & ->)|by destruct Hw1 as [-> _]]. }
        by eapply runCodexTurn_ended_dirs. }
    intros d. rewrite elem_of_difference, elem_of_union. tauto.
  - intros error downloads Hp. rewrite Hp.
    destruct Hends as [error' downloads' Hp'|p' st1 Hp' Hget
                      |p' prior st1 dirs1 message Hp' Hget Hturn
                      |p' prior st1 dirs1 result saved st2 disk2 w1 caught Hp' Hget Hturn
                         Hsave Hw1];
      try congruence.
    assert (downloads' = downloads) as -> by congruence. simpl.
    apply set_eq. intros d.
    rewrite elem_of_difference. pose proof (not_elem_of_empty (C:=gset nat) d). tauto.
Qed.




(** X23. A task that ends has called [runCodexTurn] at most once: not at
    all when [buildPayload] or [sessions.get] threw, and otherwise once,
    with the prompt and the images of the payload and the prior session of
    the chat. *)
Theorem message_task_turns (chatId : Z) (env : task_env) (w w' : world)
  (rejected : option thrown) :
  message_task chatId env w = Some (w', rejected) →
  turns w' = turns w ++
    match payload env, Store.get chatId (disk w) (store w) with
    | PayloadReady p, (Store.Returns prior, _) =>
        [{| Runner.prompt := payload_prompt p; Runner.input_sessionId := prior;
            Runner.imagePaths := payload_imagePaths p |}]
    | _, _ => []
    end.
Proof.
  intros H. apply message_task_inv in H as (w1 & caught & Hends & _ & _ & _ & -> & _).
  destruct Hends as [error downloads Hp|p st1 Hp Hget
                    |p prior st1 dirs1 message Hp Hget Hturn
                    |p prior st1 dirs1 result saved st2 disk2 w1 caught Hp Hget Hturn
                       Hsave Hw1];
    rewrite Hp; try rewrite Hget; simpl; rewrite ?app_nil_r; try done.
  destruct saved as [[]|]; [by destruct Hw1 as (chat1 & _ & ->)|by destruct Hw1 as [-> _]].
Qed.

End Task.

Lemma sample_task_runs :
  Relay.message_task Runner.sample_parse 3800 accepting 7 sample_task sample_world
    = Some (sample_result, None).
Proof. vm_compute. reflexivity. Qed.

Lemma voice_task_runs :
  Relay.message_task Runner.sample_parse 3800 accepting 7 voice_task sample_world
    = Some (voice_result, None).
Proof. vm_compute. reflexivity. Qed.

Lemma failing_task_runs :
  Relay.message_task Runner.sample_parse 3800 accepting 7 failing_task sample_world
    = Some (failing_result, None).
Proof. vm_compute. reflexivity. Qed.

Lemma message_task_keeps_ids_not_empty_witness :
  Store.ids_not_empty (store sample_result).
Proof.
  apply (message_task_keeps_ids_not_empty Runner.sample_parse 3800 accepting 7
           sample_task sample_world sample_result None sample_task_runs).
  intros k v Hl. unfold sample_world, Store.new_store in Hl. simpl in Hl.
  by rewrite lookup_empty in Hl.
Defined.

Lemma message_task_session_witness :
  Store.sessions (store sample_result) !! Store.String_of 7 = Some (lit "S1").
Proof.
  destruct (message_task_session Runner.sample_parse 3800 accepting 7
              sample_task sample_world sample_result None sample_task_runs) as [_ H].
  exact (H {| payload_prompt := lit "hi"; payload_imagePaths := [];
              payload_cleanupTargets := [5%nat] |} None
           (Store.get 7 Store.Absent Store.new_store).2 eq_refl eq_refl).
Defined.

Lemma message_task_cleans_up_witness :
  (5%nat ∉ dirs sample_result) ∧ dirs sample_result ⊆ dirs sample_world ∧
  dirs voice_result = list_to_set [6%nat] ∪ dirs sample_world.
Proof.
  destruct (message_task_cleans_up Runner.sample_parse 3800 accepting 7
              sample_task sample_world sample_result None sample_task_runs)
    as (H1 & H2 & _).
  destruct (message_task_cleans_up Runner.sample_parse 3800 accepting 7
              voice_task sample_world voice_result None voice_task_runs)
    as (_ & _ & H3).
  split; [|split].
  - apply (H1 {| payload_prompt := lit "hi"; payload_imagePaths := [];
                 payload_cleanupTargets := [5%nat] |}); [reflexivity|].
    apply list_elem_of_In. simpl. by left.
  - apply (H2 {| payload_prompt := lit "hi"; payload_imagePaths := [];
                 payload_cleanupTargets := [5%nat] |}); [reflexivity|].
    intros e. simpl. discriminate.
  - apply (H3 (ErrorObject (lit "Voice input requires OPENAI_API_KEY."))). reflexivity.
Defined.



Lemma message_task_turns_witness :
  turns sample_result
    = [{| Runner.prompt := lit "hi"; Runner.input_sessionId := None;
          Runner.imagePaths := [] |}] ∧
  turns voice_result = [].
Proof.
  split.
  - apply (message_task_turns Runner.sample_parse 3800 accepting 7 sample_task
             sample_world sample_result None sample_task_runs).
  - apply (message_task_turns Runner.sample_parse 3800 accepting 7 voice_task
             sample_world voice_result None voice_task_runs).
Defined.

(** C1 as stated fails. One message for chat 7, without content: its task
    is called once, fulfils, and the queue comes to rest; [runCodexTurn] has
    not been called. *)
Lemma enqueueByChat_task_without_turn :
  let schedule := [Queue.Enqueue 7; Queue.Run 0; Queue.Finish 0 Queue.Fulfilled;
                   Queue.Settle 0] in
  ∃ s,
    Queue.run schedule Queue.initial = Some s ∧
    Queue.submissions schedule = [7] ∧
    Queue.quiescent s ∧
    Queue.starts 0 (Queue.trace s) = 1%nat ∧ Queue.ends 0 (Queue.trace s) = 1%nat ∧
    Relay.message_task Runner.sample_parse 3800 accepting 7 failing_task sample_world
      = Some (failing_result, None) ∧
    turns sample_world = [] ∧ turns failing_result = [].
Proof.
  cbv zeta. eexists. split; [reflexivity|]. split; [reflexivity|]. split.
  { apply QueueFacts.settled_quiescent. repeat constructor. }
  split; [reflexivity|]. split; [reflexivity|]. split; [exact failing_task_runs|].
  split; reflexivity.
Qed.

End RelayFacts.
